(** * Azure DevOps test reporting scripts: the fetch, hierarchy and outcome core

    A shallow embedding of [test_cases_by_top_suite_patched3.py] (and of the
    functions it shares verbatim with [test_case_burndown.py]):

    - the HTTP layer ([get_json], [get_json_paginated_fallback]) as a state
      and error monad over the remote service;
    - plan resolution, suite normalisation and the two hierarchy walks
      ([top_ancestor], [path_for] / [build_suite_path_lookup]);
    - the outcome table [OUTCOME_ORDER], [resolve_point_outcome] and [worse];
    - the orchestration [main]: back-fill map, per-top-suite buckets and the
      rows written to the CSV files.

    The JSON dictionaries the scripts pass around are records here, one per
    entity of the remote API, with [option] fields where the scripts use
    [.get]; the dictionaries the scripts use as maps ([by_id], [cache],
    [latest_by_point], [OUTCOME_ORDER], the query parameters, the response
    headers) are [gmap]s.  Loops that Python runs unboundedly ([while True],
    [while cur is not None]) take a fuel argument and answer [OutOfFuel] when
    it is exhausted. *)

From Stdlib Require Import ZArith String Ascii.
From stdpp Require Import gmap strings list pretty sorting.

Open Scope string_scope.
Open Scope Z_scope.

(** ** Python values and control *)

(** Exceptions the modelled code raises. *)
Inductive exn :=
  | SystemExit (msg : string)
  | KeyError (key : string).

(** What running a piece of the script gives: a value, an exception that
    propagates, or a loop that is still running when the fuel is spent. *)
Inductive result (A : Type) :=
  | Ret (a : A)
  | Raise (e : exn)
  | OutOfFuel.
Arguments Ret {A} a.
Arguments Raise {A} e.
Arguments OutOfFuel {A}.

(** Truth value of an [Optional[str]]: [None] and [""] are false. *)
Definition truthy (o : option string) : bool :=
  match o with
  | Some s => negb (String.eqb s "")
  | None => false
  end.

(** [a or b] on [Optional[str]]. *)
Definition py_or (a b : option string) : option string :=
  if truthy a then a else b.

(** ** The script monad

    A computation reads and updates a state [S] (the remote service, plus
    whatever dictionary the code mutates in place) and ends in a [result]. *)
Definition M (S A : Type) : Type := S → result A * S.

Definition ret {S A} (a : A) : M S A := λ st, (Ret a, st).

Definition raise {S A} (e : exn) : M S A := λ st, (Raise e, st).

Definition bind {S A B} (m : M S A) (k : A → M S B) : M S B :=
  λ st, match m st with
        | (Ret a, st') => k a st'
        | (Raise e, st') => (Raise e, st')
        | (OutOfFuel, st') => (OutOfFuel, st')
        end.

(** A pure partial computation run inside the monad. *)
Definition lift {S A} (r : result A) : M S A := λ st, (r, st).

Declare Scope py_scope.
Delimit Scope py_scope with py.
Notation "x <- m ;; k" := (bind m (λ x, k))
  (at level 100, m at next level, right associativity) : py_scope.
Notation "m ;;; k" := (bind m (λ _, k))
  (at level 100, right associativity) : py_scope.
Open Scope py_scope.

(** [for x in xs: body], the loop-carried variables passed as [acc]. *)
Fixpoint for_each {S A B} (body : B → A → M S B) (xs : list A) (acc : B) : M S B :=
  match xs with
  | [] => ret acc
  | x :: xs' => acc' <- body acc x ;; for_each body xs' acc'
  end.

(** ** Outcome precedence *)

(** [OUTCOME_ORDER]: keys are [None] and strings. *)
Definition OUTCOME_ORDER : gmap (option string) Z :=
  list_to_map
    [ (Some "Failed", 6);
      (Some "Blocked", 5);
      (Some "Paused", 4);
      (Some "Active", 3);
      (Some "NotApplicable", 2);
      (Some "Passed", 0);
      (None, -1); (Some "", -1); (Some "None", -1); (Some "NeverRun", -1) ].

(** [OUTCOME_ORDER.get(a, -1)]. *)
Definition precedence (a : option string) : Z :=
  default (-1) (OUTCOME_ORDER !! a).

Definition worse (a b : option string) : option string :=
  let va := precedence a in
  let vb := precedence b in
  if va >=? vb then a else b.

(** The sub-dictionaries of a point that may carry an outcome
    ([mostRecentResult], [lastTestRun], [lastResultDetails]). *)
Record OutcomeRef := { ref_outcome : option string }.

(** [{}]: what [point.get(k) or {}] falls back to. *)
Definition empty_ref : OutcomeRef := {| ref_outcome := None |}.

Record TestCaseRef := {
  tc_id : option Z;
  tc_name : option string
}.

(** A test point as the points endpoint returns it; [p_resolvedOutcome] is the
    key [get_points_for_suite] adds. *)
Record Point := {
  p_id : option Z;
  p_testCase : option TestCaseRef;
  p_outcome : option string;
  p_mostRecentResult : option OutcomeRef;
  p_lastTestRun : option OutcomeRef;
  p_lastResultDetails : option OutcomeRef;
  p_resolvedOutcome : option string
}.

Definition resolve_point_outcome (point : Point) : option string :=
  let o := p_outcome point in
  if truthy o then o else
  let mrr := default empty_ref (p_mostRecentResult point) in
  let o := ref_outcome mrr in
  if truthy o then o else
  let ltr := default empty_ref (p_lastTestRun point) in
  let o := ref_outcome ltr in
  if truthy o then o else
  let lrd := default empty_ref (p_lastResultDetails point) in
  ref_outcome lrd.

(** The four candidate fields of a point, in the order of the docstring of
    [resolve_point_outcome]. *)
Definition candidate_outcomes (point : Point) : list (option string) :=
  [ p_outcome point;
    p_mostRecentResult point ≫= ref_outcome;
    p_lastTestRun point ≫= ref_outcome;
    p_lastResultDetails point ≫= ref_outcome ].

(** The life of [bucket["outcome"]] in [main]: created as [None], then
    [bucket["outcome"] = worse(bucket["outcome"], outcome)] for each
    observation. *)
Definition reconcile (outcomes : list (option string)) : option string :=
  foldl worse None outcomes.

(** The [Outcome] column:
    [info["outcome"] if info["outcome"] not in (None, "", "None") else "NeverRun"]. *)
Definition emitted_outcome (o : option string) : string :=
  match o with
  | Some s => if bool_decide (s ∈ [""; "None"]) then "NeverRun" else s
  | None => "NeverRun"
  end.

(** The statuses of the precedence table that carry a non-negative rank. *)
Definition recognized : list string :=
  ["Failed"; "Blocked"; "Paused"; "Active"; "NotApplicable"; "Passed"].

(** An accumulator is settled when it is still [None] or holds a status of
    non-negative rank. *)
Definition settled (a : option string) : Prop := a = None ∨ 0 ≤ precedence a.

(** ** The HTTP layer *)

(** The line feed of the f-strings. *)
Definition nl : string := String "010"%char "".

(** What a JSON object holds under the key a paginated fetch reads: an array of
    items, or a single item that is not an array. *)
Inductive Value (A : Type) :=
  | VList (items : list A)
  | VOne (item : A).
Arguments VList {A} items.
Arguments VOne {A} item.

(** A [requests] response whose body is a JSON object with values in [V].
    [r_url] is the final URL, [r_json] is [r.json()]. *)
Record Response (V : Type) := {
  status_code : Z;
  text : string;
  r_url : string;
  r_json : gmap string V;
  headers : gmap string string
}.
Arguments status_code {V} r.
Arguments text {V} r.
Arguments r_url {V} r.
Arguments r_json {V} r.
Arguments headers {V} r.

(** [requests.get(url, headers=H(), params=q)] against a service in state
    [St]; the authorisation header is the same on every call and left out. *)
Definition Get (St V : Type) : Type :=
  string → gmap string string → St → Response V * St.

(** [q["continuationToken"] = token] under [if token:]. *)
Definition with_token (token : option string) (q : gmap string string)
  : gmap string string :=
  match token with
  | Some t => if truthy token then <["continuationToken" := t]> q else q
  | None => q
  end.

(** [chunk if isinstance(chunk, list) else [chunk]]. *)
Definition as_list {A} (chunk : Value A) : list A :=
  match chunk with
  | VList l => l
  | VOne x => [x]
  end.

Section Http.
Context {St V A : Type}.

(** [get_json] of [test_cases_by_top_suite_patched3.py]. *)
Definition get_json (requests_get : Get St V) (url : string)
    (params : option (gmap string string)) : M St (gmap string V) :=
  λ st,
    let (r, st') := requests_get url (default ∅ params) st in
    if status_code r >=? 400
    then (Raise (SystemExit ("HTTP " +:+ pretty (status_code r) +:+ " for GET "
                             +:+ r_url r +:+ nl +:+ text r)), st')
    else (Ret (r_json r), st').

Variable requests_get : Get St (Value A).
Variables (url : string) (params : option (gmap string string))
          (value_key : string).

(** The [while True] loop of [get_json_paginated_fallback] under one
    version.  It leaves by [break] with the new value of [last] ([inl]), or
    by [return out] ([inr]). *)
Fixpoint pages_loop (fuel : nat) (ver : string) (token : option string)
    (out : list A) : M St (string + list A) :=
  match fuel with
  | O => lift OutOfFuel
  | S fuel' =>
      λ st,
        let q := default ∅ params in
        let q := <["api-version" := ver]> q in
        let q := with_token token q in
        let (r, st') := requests_get url q st in
        if status_code r >=? 400
        then (Ret (inl (pretty (status_code r) +:+ " " +:+ text r)), st')
        else
          let body := r_json r in
          let chunk := default (VList []) (body !! value_key) in
          let out := (out ++ as_list chunk)%list in
          let token := headers r !! "x-ms-continuationtoken" in
          if negb (truthy token) then (Ret (inr out), st')
          else pages_loop fuel' ver token out st'
  end.

(** The [for ver in versions] loop, [last] carried from one version to the
    next, [out] and [token] initialised afresh for each. *)
Fixpoint versions_loop (fuel : nat) (versions : list string) (last : string)
    : M St (list A) :=
  match versions with
  | [] => raise (SystemExit ("All versions failed for " +:+ url +:+ nl +:+ last))
  | ver :: versions' =>
      r <- pages_loop fuel ver None [] ;;
      match r with
      | inl last' => versions_loop fuel versions' last'
      | inr out => ret out
      end
  end.

Definition get_json_paginated_fallback (fuel : nat) (versions : list string)
    : M St (list A) :=
  versions_loop fuel versions "".

(** *** What the service does under one version

    [pages st ver token chunks st']: from state [st], the requests of one
    version starting with continuation [token] are all answered without
    error, the answers carry the item lists [chunks] in order, the last one
    carries no continuation token, and the service is left in [st']. *)
Inductive pages : St → string → option string → list (list A) → St → Prop :=
  | pages_last st ver token r st' :
      requests_get url (with_token token (<["api-version" := ver]> (default ∅ params))) st
        = (r, st') →
      (status_code r < 400)%Z →
      truthy (headers r !! "x-ms-continuationtoken") = false →
      pages st ver token [as_list (default (VList []) (r_json r !! value_key))] st'
  | pages_more st ver token r st' chunks st'' :
      requests_get url (with_token token (<["api-version" := ver]> (default ∅ params))) st
        = (r, st') →
      (status_code r < 400)%Z →
      truthy (headers r !! "x-ms-continuationtoken") = true →
      pages st' ver (headers r !! "x-ms-continuationtoken") chunks st'' →
      pages st ver token
        (as_list (default (VList []) (r_json r !! value_key)) :: chunks) st''.

(** [version_fails st ver token status body st']: from [st], the requests of
    one version starting with [token] run, after zero or more good pages,
    into an answer with [status >= 400] and text [body]. *)
Inductive version_fails : St → string → option string → Z → string → St → Prop :=
  | fails_now st ver token r st' :
      requests_get url (with_token token (<["api-version" := ver]> (default ∅ params))) st
        = (r, st') →
      (400 ≤ status_code r)%Z →
      version_fails st ver token (status_code r) (text r) st'
  | fails_later st ver token r st' status body st'' :
      requests_get url (with_token token (<["api-version" := ver]> (default ∅ params))) st
        = (r, st') →
      (status_code r < 400)%Z →
      truthy (headers r !! "x-ms-continuationtoken") = true →
      version_fails st' ver (headers r !! "x-ms-continuationtoken") status body st'' →
      version_fails st ver token status body st''.

(** [all_fail st versions last0 last st']: every version of the list fails
    in turn; [last] is the status and text of the last failure ([last0]
    when the list is empty). *)
Inductive all_fail : St → list string → string → string → St → Prop :=
  | all_fail_nil st last0 : all_fail st [] last0 last0 st
  | all_fail_cons st ver versions last0 status body st' last st'' :
      version_fails st ver None status body st' →
      all_fail st' versions (pretty status +:+ " " +:+ body) last st'' →
      all_fail st (ver :: versions) last0 last st''.
End Http.

(** ** Configuration and string helpers *)

(** The values the scripts read from [.env] at import time. *)
Record Config := {
  BASE : string;
  PROJECT_PATH : string;
  TEST_PLAN_NAME : string
}.

Definition TESTPLAN_API_VER : string := "7.1-preview.1".
Definition VER_POINTS : list string := ["7.1-preview.2"; "7.1-preview.1"; "7.0"; "6.0"].
Definition VER_RUNS : list string := ["7.1-preview.7"; "7.1-preview.1"; "7.0"; "6.0"].
Definition VER_RESULTS : list string := ["7.1-preview.6"; "7.1-preview.1"; "7.0"; "6.0"].

Definition urlp (cfg : Config) (suffix : string) : string :=
  BASE cfg +:+ "/" +:+ PROJECT_PATH cfg
    +:+ (if String.prefix "/" suffix then suffix else "/" +:+ suffix).

(** [needle in hay] on strings. *)
Fixpoint is_substring (needle hay : string) : bool :=
  String.prefix needle hay
  || match hay with
     | String _ hay' => is_substring needle hay'
     | EmptyString => false
     end.

(** [str.lower] and [str.strip] restricted to ASCII text; the functions that
    use them take the two operations as arguments. *)
Definition ascii_lower_char (c : ascii) : ascii :=
  let n := nat_of_ascii c in
  if (65 <=? n)%nat && (n <=? 90)%nat then ascii_of_nat (n + 32) else c.

Fixpoint ascii_lower (s : string) : string :=
  match s with
  | String c s' => String (ascii_lower_char c) (ascii_lower s')
  | EmptyString => EmptyString
  end.

Definition is_space (c : ascii) : bool :=
  let n := nat_of_ascii c in
  ((9 <=? n)%nat && (n <=? 13)%nat) || ((28 <=? n)%nat && (n <=? 32)%nat).

Fixpoint lstrip (s : string) : string :=
  match s with
  | String c s' => if is_space c then lstrip s' else s
  | EmptyString => EmptyString
  end.

Definition ascii_strip (s : string) : string :=
  String.rev (lstrip (String.rev (lstrip s))).

(** ** Plans and suites *)

Record Plan := {
  pl_id : Z;
  pl_name : option string
}.

(** [p.get("name", "")]. *)
Definition name_of (p : Plan) : string := default "" (pl_name p).

Record ParentRef := { pr_id : option Z }.

(** A suite as the suites endpoint returns it. *)
Record RawSuite := {
  rs_id : option Z;
  rs_name : string;
  rs_parentSuite : option ParentRef
}.

(** A suite after [list_suites]: [id] and [parentId] are strings. *)
Record Suite := {
  s_id : string;
  s_name : string;
  s_parentId : option string
}.

(** [str(x)] for an integer or [None]. *)
Definition py_str (x : option Z) : string :=
  match x with
  | Some n => pretty n
  | None => "None"
  end.

Definition normalize_suite (s : RawSuite) : Suite :=
  let par := default {| pr_id := None |} (rs_parentSuite s) in
  let par := pr_id par in
  {| s_id := py_str (rs_id s);
     s_name := rs_name s;
     s_parentId := match par with Some _ => Some (py_str par) | None => None end |}.

(** [{s["id"]: s for s in suites}]: a later suite replaces an earlier one with
    the same id. *)
Definition by_id (suites : list Suite) : gmap string Suite :=
  foldl (λ m s, <[s_id s := s]> m) ∅ suites.

Section Hierarchy.
Variable by_id : gmap string Suite.

(** The loop of [top_ancestor], entered with [cur]. *)
Fixpoint climb (fuel : nat) (cur : Suite) : result string :=
  match fuel with
  | O => OutOfFuel
  | S fuel' =>
      match s_parentId cur with
      | Some pid =>
          match by_id !! pid with
          | Some next => climb fuel' next
          | None => Raise (KeyError pid)
          end
      | None => Ret (s_id cur)
      end
  end.

Definition top_ancestor (fuel : nat) (sid : string) : result string :=
  match by_id !! sid with
  | Some cur => climb fuel cur
  | None => Raise (KeyError sid)
  end.

(** The loop of [path_for], entered with [cur] and the names appended so
    far; a parent id that is not a key of [by_id] ends the walk. *)
Fixpoint collect (fuel : nat) (cur : Suite) (parts : list string)
    : result (list string) :=
  match fuel with
  | O => OutOfFuel
  | S fuel' =>
      let parts := (parts ++ [s_name cur])%list in
      match s_parentId cur with
      | Some pid =>
          match by_id !! pid with
          | Some next => collect fuel' next parts
          | None => Ret parts
          end
      | None => Ret parts
      end
  end.

(** [path_for]; the state is the dictionary [cache]. *)
Definition path_for (fuel : nat) (sid : string) : M (gmap string string) string :=
  λ cache,
    match cache !! sid with
    | Some path => (Ret path, cache)
    | None =>
        match by_id !! sid with
        | Some cur =>
            match collect fuel cur [] with
            | Ret parts =>
                let path := String.concat "/" (rev parts) in
                (Ret path, <[sid := path]> cache)
            | Raise e => (Raise e, cache)
            | OutOfFuel => (OutOfFuel, cache)
            end
        | None => (Raise (KeyError sid), cache)
        end
    end.
End Hierarchy.

Definition build_suite_path_lookup (fuel : nat) (suites : list Suite)
    : result (gmap string string) :=
  let by_id := by_id suites in
  match for_each (λ _ s, _ <- path_for by_id fuel (s_id s) ;; ret tt) suites tt ∅ with
  | (Ret _, cache) => Ret cache
  | (Raise e, _) => Raise e
  | (OutOfFuel, _) => OutOfFuel
  end.

(** The ancestors of a suite, the suite first: each next element is the
    record [by_id] holds for the parent id of the previous one, and the last
    one has no parent. *)
Inductive ancestry (by_id : gmap string Suite) : Suite → list Suite → Prop :=
  | ancestry_root s :
      s_parentId s = None → ancestry by_id s [s]
  | ancestry_step s pid parent chain :
      s_parentId s = Some pid → by_id !! pid = Some parent →
      ancestry by_id parent chain → ancestry by_id s (s :: chain).

(** The names along an ancestry, root first, joined by slashes. *)
Definition slash_path (chain : list Suite) : string :=
  String.concat "/" (s_name <$> rev chain).

(** A snapshot in which every parent walk ends at a record with no parent. *)
Definition grounded (suites : list Suite) : Prop :=
  ∀ sid s, by_id suites !! sid = Some s → ∃ chain, ancestry (by_id suites) s chain.

(** Every parent reference of the snapshot names a suite of the snapshot. *)
Definition closed (suites : list Suite) : Prop :=
  ∀ s pid, s ∈ suites → s_parentId s = Some pid → is_Some (by_id suites !! pid).

(** The record reached from [s] after [n] parent references, if all of them
    resolve. *)
Fixpoint nth_parent (by_id : gmap string Suite) (n : nat) (s : Suite) : option Suite :=
  match n with
  | O => Some s
  | S n' =>
      match s_parentId s with
      | Some pid => by_id !! pid ≫= nth_parent by_id n'
      | None => None
      end
  end.

(** The walk from [s] comes back to a record it has already visited. *)
Definition revisits (by_id : gmap string Suite) (s : Suite) : Prop :=
  ∃ i k c, nth_parent by_id i s = Some c ∧ nth_parent by_id (S k) c = Some c.

(** No parent walk of the snapshot comes back to a record already visited. *)
Definition acyclic (suites : list Suite) : Prop :=
  ∀ sid s, by_id suites !! sid = Some s → ¬ revisits (by_id suites) s.

(** Every cached path is the path of the record stored under its key. *)
Definition cache_sound (m : gmap string Suite) (cache : gmap string string) : Prop :=
  ∀ k p, cache !! k = Some p →
    ∃ s chain, m !! k = Some s ∧ ancestry m s chain ∧ p = slash_path chain.

(** No key of the cache belongs to a record whose walk never ends. *)
Definition cache_finite (m : gmap string Suite) (cache : gmap string string) : Prop :=
  ∀ k s, is_Some (cache !! k) → m !! k = Some s →
    ¬ ∀ n, is_Some (nth_parent m n s).


(** ** Runs, results and the rows of the report *)

Record Run := {
  rn_id : option Z;
  rn_lastUpdatedDate : option string;
  rn_completedDate : option string
}.

Record PointRef := { tp_id : option Z }.

Record TestResult := {
  r_id : option Z;
  r_testPoint : option PointRef;
  r_pointId : option Z;
  r_outcome : option string;
  r_completedDate : option string;
  r_startedDate : option string
}.

(** A value of [latest_by_point]: [{"outcome": ..., "ts": ...}]. *)
Record Latest := {
  l_outcome : option string;
  l_ts : option string
}.

(** A value of [agg[tid]]: [{"name": ..., "outcome": ..., "paths": set()}]. *)
Record Bucket := {
  b_name : option string;
  b_outcome : option string;
  b_paths : gset string
}.

(** A row of the per-suite CSV file. *)
Record Row := {
  TopSuiteId : string;
  TopSuiteName : string;
  TestCaseId : Z;
  TestCaseName : option string;
  Outcome : string;
  Paths : string;
  NumPaths : nat
}.

(** The remote service: [requests.get] at each of the five resources the
    script reads, typed by what the resource carries under its value key. *)
Record Service (St : Type) := {
  get_plans : Get St (list Plan);
  get_suites : Get St (list RawSuite);
  get_points : Get St (Value Point);
  get_runs : Get St (Value Run);
  get_results : Get St (Value TestResult)
}.
Arguments get_plans {St} s.
Arguments get_suites {St} s.
Arguments get_points {St} s.
Arguments get_runs {St} s.
Arguments get_results {St} s.

(** [runs.sort(key=..., reverse=True)]: descending by key, elements with equal
    keys kept in their original order. *)
Definition run_sort_key (x : Run) : string :=
  default "" (py_or (py_or (rn_lastUpdatedDate x) (rn_completedDate x)) (Some "")).

Fixpoint insert_desc (x : Run) (sorted : list Run) : list Run :=
  match sorted with
  | y :: sorted' =>
      if String.ltb (run_sort_key x) (run_sort_key y)
      then y :: insert_desc x sorted'
      else x :: sorted
  | [] => [x]
  end.

Definition sort_desc (runs : list Run) : list Run :=
  foldr insert_desc [] runs.

(** [r["pointId"]] after the loop of [list_results_for_run]. *)
Definition normalize_result (r : TestResult) : TestResult :=
  match r_testPoint r ≫= tp_id with
  | Some n =>
      {| r_id := r_id r; r_testPoint := r_testPoint r; r_pointId := Some n;
         r_outcome := r_outcome r; r_completedDate := r_completedDate r;
         r_startedDate := r_startedDate r |}
  | None => r
  end.

(** The body of the innermost loop of the back-fill block of [main]. *)
Definition note_result (run : Run) (res : TestResult) (latest_by_point : gmap Z Latest)
    : gmap Z Latest :=
  match r_pointId res with
  | None => latest_by_point
  | Some pid =>
      let ts := py_or (py_or (r_completedDate res) (r_startedDate res))
                      (rn_lastUpdatedDate run) in
      let newer :=
        match latest_by_point !! pid with
        | None => true
        | Some prev => String.ltb (default "" (py_or (l_ts prev) (Some "")))
                                  (default "" (py_or ts (Some "")))
        end in
      if newer
      then <[pid := {| l_outcome := r_outcome res; l_ts := ts |}]> latest_by_point
      else latest_by_point
  end.

(** [agg[tid].setdefault(int(tcid), {...})] followed by the three updates of
    the bucket.  The dictionary keeps its keys in insertion order. *)
Definition touch (tcname outcome : option string) (path_str : string)
    (found : option Bucket) : Bucket :=
  let bucket := default {| b_name := tcname; b_outcome := None; b_paths := ∅ |} found in
  {| b_name := py_or (b_name bucket) tcname;
     b_outcome := worse (b_outcome bucket) outcome;
     b_paths := {[ path_str ]} ∪ b_paths bucket |}.

Fixpoint upsert (tcid : Z) (f : option Bucket → Bucket) (d : list (Z * Bucket))
    : list (Z * Bucket) :=
  match d with
  | (k, v) :: d' =>
      if decide (k = tcid) then (k, f (Some v)) :: d' else (k, v) :: upsert tcid f d'
  | [] => [(tcid, f None)]
  end.

(** Every bucket of [agg] holds a settled outcome. *)
Definition agg_settled (agg : gmap string (list (Z * Bucket))) : Prop :=
  ∀ tid buckets, agg !! tid = Some buckets →
    Forall (λ e, settled (b_outcome e.2)) buckets.

(** One row of the CSV file of the top-level suite [top]. *)
Definition row_of (top : Suite) (entry : Z * Bucket) : Row :=
  let (tcid, info) := entry in
  {| TopSuiteId := s_id top;
     TopSuiteName := s_name top;
     TestCaseId := tcid;
     TestCaseName := b_name info;
     Outcome := emitted_outcome (b_outcome info);
     Paths := String.concat "; "
                (merge_sort (λ a b : string, String.leb a b) (elements (b_paths info)));
     NumPaths := size (b_paths info) |}.

(** ** The script *)

(** A computation on the service run where a local dictionary [L] is
    mutated alongside. *)
Definition on_service {L St A} (m : M St A) : M (L * St) A :=
  λ '(l, st), let (r, st') := m st in (r, (l, st')).

Definition update_local {L St} (f : L → L) : M (L * St) unit :=
  λ '(l, st), (Ret tt, (f l, st)).

(** [try: block except SystemExit: ... except Exception: ...] around a block
    that fills the dictionary [L]: whatever the block raises is printed and
    dropped, and the dictionary stays as the block left it. *)
Definition try_filling {L St} (init : L) (block : M (L * St) unit) : M St L :=
  λ st, match block (init, st) with
        | (OutOfFuel, (_, st')) => (OutOfFuel, st')
        | (_, (l, st')) => (Ret l, st')
        end.

Section Script.
Context {St : Type} (svc : Service St) (cfg : Config).
(** [str.lower] and [str.strip]. *)
Variables lower strip : string → string.

Definition resolve_plan_id_by_name (plan_name : string) : M St string :=
  body <- get_json (get_plans svc) (urlp cfg "/_apis/testplan/plans")
            (Some {[ "api-version" := TESTPLAN_API_VER ]}) ;;
  let plans := default [] (body !! "value") in
  let wanted := strip (lower plan_name) in
  let exact := filter (λ p, strip (lower (name_of p)) = wanted) plans in
  exact <- (match exact with
            | [] =>
                let partial := filter (λ p, is_substring wanted (lower (name_of p)))
                                      plans in
                match partial with
                | [] => raise (SystemExit ("Plan '" +:+ plan_name +:+ "' not found"))
                | _ => ret partial
                end
            | _ => ret exact
            end) ;;
  match exact with
  | p :: _ =>
      let pid := pretty (pl_id p) in
      (* the f-string of the [print] reads [exact[0]['name']] *)
      match pl_name p with
      | Some _ => ret pid
      | None => raise (KeyError "name")
      end
  | [] => raise (KeyError "0")
  end.

Definition list_suites (plan_id : string) : M St (list Suite) :=
  resp <- get_json (get_suites svc)
            (urlp cfg ("/_apis/testplan/Plans/" +:+ plan_id +:+ "/suites"))
            (Some {[ "api-version" := TESTPLAN_API_VER ]}) ;;
  let suites := default (default [] (resp !! "suites")) (resp !! "value") in
  ret (normalize_suite <$> suites).

Definition get_points_for_suite (fuel : nat) (plan_id suite_id : string)
    : M St (list Point) :=
  pts <- get_json_paginated_fallback (get_points svc) (urlp cfg "/_apis/test/points")
           (Some (<["planId" := plan_id]> (<["suiteId" := suite_id]>
                  (<["includePointDetails" := "true"]>
                   {[ "returnIdentityRef" := "true" ]}))))
           "value" fuel VER_POINTS ;;
  ret ((λ p, {| p_id := p_id p; p_testCase := p_testCase p; p_outcome := p_outcome p;
                p_mostRecentResult := p_mostRecentResult p;
                p_lastTestRun := p_lastTestRun p;
                p_lastResultDetails := p_lastResultDetails p;
                p_resolvedOutcome := resolve_point_outcome p |}) <$> pts).

Definition list_runs_for_plan (fuel : nat) (plan_id : string) : M St (list Run) :=
  runs <- get_json_paginated_fallback (get_runs svc) (urlp cfg "/_apis/test/runs")
            (Some {[ "planId" := plan_id ]}) "value" fuel VER_RUNS ;;
  ret (sort_desc runs).

Definition list_results_for_run (fuel : nat) (run_id : Z) : M St (list TestResult) :=
  results <- get_json_paginated_fallback (get_results svc)
               (urlp cfg ("/_apis/test/Runs/" +:+ pretty run_id +:+ "/results"))
               (Some ∅) "value" fuel VER_RESULTS ;;
  ret (normalize_result <$> results).

(** The [try] block of [main]; the dictionary it fills is
    [latest_by_point]. *)
Definition backfill (fuel : nat) (plan_id : string) : M (gmap Z Latest * St) unit :=
  runs <- on_service (list_runs_for_plan fuel plan_id) ;;
  for_each (λ _ run,
      rid <- match rn_id run with
             | Some rid => ret rid
             | None => raise (KeyError "id")
             end ;;
      results <- on_service (list_results_for_run fuel rid) ;;
      for_each (λ _ res, update_local (note_result run res)) results tt)
    (take 50 runs) tt.

(** The body of [for p in pts] in [main]. *)
Definition merge_point (tid path_str : string) (agg : gmap string (list (Z * Bucket)))
    (p : Point) : M St (gmap string (list (Z * Bucket))) :=
  let tc := default {| tc_id := None; tc_name := None |} (p_testCase p) in
  let tcid := tc_id tc in
  let tcname := tc_name tc in
  let outcome := py_or (py_or (p_resolvedOutcome p) (p_outcome p)) (Some "NeverRun") in
  match tcid with
  | None | Some 0 => ret agg
  | Some tcid =>
      match agg !! tid with
      | Some buckets =>
          ret (<[tid := upsert tcid (touch tcname outcome path_str) buckets]> agg)
      | None => raise (KeyError tid)
      end
  end.

(** The body of [for s in suites] in [main]. *)
Definition merge_suite (fuel : nat) (plan_id : string) (by_id : gmap string Suite)
    (suite_path : gmap string string) (agg : gmap string (list (Z * Bucket)))
    (s : Suite) : M St (gmap string (list (Z * Bucket))) :=
  let sid := s_id s in
  pts <- get_points_for_suite fuel plan_id sid ;;
  match pts with
  | [] => ret agg
  | _ =>
      tid <- lift (top_ancestor by_id fuel sid) ;;
      tname <- match by_id !! tid with
               | Some t => ret (s_name t)
               | None => raise (KeyError tid)
               end ;;
      let path_str := default (s_name s) (suite_path !! sid) in
      for_each (merge_point tid path_str) pts agg
  end.

(** [main], up to the tables it writes: one per top-level suite, in the
    order of the suite list.  Printing, directory creation and the CSV
    encoding are left out. *)
Definition main (fuel : nat) : M St (list (Suite * list Row)) :=
  plan_id <- resolve_plan_id_by_name (TEST_PLAN_NAME cfg) ;;
  suites <- list_suites plan_id ;;
  let by_id := by_id suites in
  let top_level := filter (λ s, s_parentId s = None) suites in
  suite_path <- lift (build_suite_path_lookup fuel suites) ;;
  latest_by_point <- try_filling ∅ (backfill fuel plan_id) ;;
  let agg := foldl (λ m s, <[s_id s := []]> m) ∅ top_level in
  agg <- for_each (merge_suite fuel plan_id by_id suite_path) suites agg ;;
  for_each (λ tables top,
      match agg !! s_id top with
      | Some buckets => ret (tables ++ [(top, row_of top <$> buckets)])%list
      | None => raise (KeyError (s_id top))
      end)
    top_level [].
End Script.

(** ** Sample services and snapshots

    Small instances of the remote service, used to run the definitions
    above on concrete data. *)

Definition response {V} (status : Z) (body : string) (url : string)
    (json : gmap string V) (hdrs : gmap string string) : Response V :=
  {| status_code := status; text := body; r_url := url; r_json := json;
     headers := hdrs |}.

(** A resource with integer items; the state counts the requests served.
    Version [A] delivers one page and then answers 500; version [B] delivers
    two pages linked by a continuation token; any other version is unknown
    (404). *)
Definition paged_resource : Get nat (Value Z) :=
  λ url q served,
    let ver := default "" (q !! "api-version") in
    let token := q !! "continuationToken" in
    (if decide (ver = "A") then
       match token with
       | None => response 200 "" url {[ "value" := VList [1; 2] ]}
                          {[ "x-ms-continuationtoken" := "a2" ]}
       | Some _ => response 500 "boom" url ∅ ∅
       end
     else if decide (ver = "B") then
       match token with
       | None => response 200 "" url {[ "value" := VList [10; 11] ]}
                          {[ "x-ms-continuationtoken" := "b2" ]}
       | Some _ => response 200 "" url {[ "value" := VList [12] ]} ∅
       end
     else response 404 "no such version" url ∅ ∅,
     S served).

(** Two suites that are each other's parent. *)
Definition mutual_suites : list Suite :=
  [ {| s_id := "1"; s_name := "a"; s_parentId := Some "2" |};
    {| s_id := "2"; s_name := "b"; s_parentId := Some "1" |} ].

(** A three-level chain root, mid, leaf. *)
Definition chain_suites : list Suite :=
  [ {| s_id := "1"; s_name := "root"; s_parentId := None |};
    {| s_id := "2"; s_name := "mid"; s_parentId := Some "1" |};
    {| s_id := "3"; s_name := "leaf"; s_parentId := Some "2" |} ].

Definition sample_cfg : Config :=
  {| BASE := "https://dev.azure.com/org"; PROJECT_PATH := "proj";
     TEST_PLAN_NAME := " Release Plan " |}.

(** A plan whose name contains the wanted name comes before the plan whose
    name equals it. *)
Definition sample_plans : list Plan :=
  [ {| pl_id := 1; pl_name := Some "Release Plan (archive)" |};
    {| pl_id := 2; pl_name := Some "release plan" |} ].

Definition bare_point (id tcid : Z) (tcname : string) (outcome : option string) : Point :=
  {| p_id := Some id;
     p_testCase := Some {| tc_id := Some tcid; tc_name := Some tcname |};
     p_outcome := outcome;
     p_mostRecentResult := None; p_lastTestRun := None;
     p_lastResultDetails := None; p_resolvedOutcome := None |}.

(** One plan, a top-level suite [10] with two children [11] and [12]; the
    points of each suite are given by [points_of], and the only run, [100],
    holds a failed result for point [7]. *)
Definition sample_service (points_of : string → list Point) : Service nat :=
  {| get_plans := λ url q served,
       (response 200 "" url {[ "value" := sample_plans ]} ∅, S served);
     get_suites := λ url q served,
       (response 200 "" url
          {[ "value" :=
               [ {| rs_id := Some 10; rs_name := "Top"; rs_parentSuite := None |};
                 {| rs_id := Some 11; rs_name := "Child A";
                    rs_parentSuite := Some {| pr_id := Some 10 |} |};
                 {| rs_id := Some 12; rs_name := "Child B";
                    rs_parentSuite := Some {| pr_id := Some 10 |} |} ] ]} ∅,
        S served);
     get_points := λ url q served,
       (response 200 "" url
          {[ "value" := VList (points_of (default "" (q !! "suiteId"))) ]} ∅,
        S served);
     get_runs := λ url q served,
       (response 200 "" url
          {[ "value" :=
               VList [ {| rn_id := Some 100;
                          rn_lastUpdatedDate := Some "2024-01-02T00:00:00Z";
                          rn_completedDate := None |} ] ]} ∅,
        S served);
     get_results := λ url q served,
       (response 200 "" url
          {[ "value" :=
               VList [ {| r_id := Some 1;
                          r_testPoint := Some {| tp_id := Some 7 |};
                          r_pointId := None;
                          r_outcome := Some "Failed";
                          r_completedDate := Some "2024-01-02T00:00:00Z";
                          r_startedDate := None |} ] ]} ∅,
        S served) |}.

(** Point [7] of test case [42] sits in suite [11] and carries no outcome in
    any of its four fields. *)
Definition unrun_points (suite_id : string) : list Point :=
  if decide (suite_id = "11") then [ bare_point 7 42 "Login" None ] else [].

(** Test case [42] is observed as passed under suite [11] and as failed under
    suite [12]; test case [43] carries a status that is not in the table. *)
Definition mixed_points (suite_id : string) : list Point :=
  if decide (suite_id = "11") then
    [ bare_point 7 42 "Login" (Some "Passed");
      bare_point 8 43 "Logout" (Some "Inconclusive") ]
  else if decide (suite_id = "12") then
    [ bare_point 9 42 "Login" (Some "Failed") ]
  else [].

(** An endpoint that answers 503 to every request. *)
Definition unavailable {V} : Get nat V :=
  λ url q served, (response 503 "unavailable" url ∅ ∅, S served).

(** The sample service with the points endpoint down. *)
Definition service_without_points : Service nat :=
  let svc := sample_service mixed_points in
  {| get_plans := get_plans svc; get_suites := get_suites svc;
     get_points := unavailable;
     get_runs := get_runs svc; get_results := get_results svc |}.

(** The sample service with the runs endpoint down. *)
Definition service_without_runs : Service nat :=
  let svc := sample_service mixed_points in
  {| get_plans := get_plans svc; get_suites := get_suites svc;
     get_points := get_points svc;
     get_runs := unavailable; get_results := get_results svc |}.

(** ** Further notions about the hierarchy *)

(** A parent walk that breaks off: the records from [s] up to the one whose
    parent id, [missing], is not a key of [by_id]. *)
Inductive truncated (by_id : gmap string Suite) : Suite → list Suite → string → Prop :=
  | truncated_here s pid :
      s_parentId s = Some pid → by_id !! pid = None → truncated by_id s [s] pid
  | truncated_step s pid parent chain missing :
      s_parentId s = Some pid → by_id !! pid = Some parent →
      truncated by_id parent chain missing →
      truncated by_id s (s :: chain) missing.

(** A snapshot in which a grandchild names a parent that was not listed. *)
Definition orphan_suites : list Suite :=
  [ {| s_id := "7"; s_name := "grandchild"; s_parentId := Some "6" |};
    {| s_id := "6"; s_name := "child"; s_parentId := Some "5" |} ].

(** A parent walk that has ended: at a record without parent, or at a
    parent id that is not a key of [by_id]. *)
Definition ended (by_id : gmap string Suite) (s : Suite) (chain : list Suite) : Prop :=
  ancestry by_id s chain ∨ ∃ missing, truncated by_id s chain missing.

(** Every cached path is the path of the ended walk of the record stored
    under its key. *)
Definition cache_ended (m : gmap string Suite) (cache : gmap string string) : Prop :=
  ∀ k p, cache !! k = Some p →
    ∃ s chain, m !! k = Some s ∧ ended m s chain ∧ p = slash_path chain.

(** The variables [cur] and [parts] of the [while] loop of [path_for] after
    [n] turns, or as the loop left them when it ended before. *)
Fixpoint path_walk (by_id : gmap string Suite) (n : nat) (cur : option Suite)
    (parts : list string) : option Suite * list string :=
  match n, cur with
  | S n', Some c =>
      path_walk by_id n' (s_parentId c ≫= λ pid, by_id !! pid) (parts ++ [s_name c])
  | _, _ => (cur, parts)
  end.

(** ** Further notions about runs and results *)

(** [a] is at least as recently updated as [b], by the sort key. *)
Definition newer_first (a b : Run) : Prop :=
  String.le (run_sort_key b) (run_sort_key a).

(** The time stamp the back-fill block computes for a result of a run. *)
Definition stamp (run : Run) (res : TestResult) : option string :=
  py_or (py_or (r_completedDate res) (r_startedDate res)) (rn_lastUpdatedDate run).

(** [ts or ""]: the string a time stamp is compared as. *)
Definition stamp_key (ts : option string) : string :=
  default "" (py_or ts (Some "")).

(** ** Further notions about the aggregation *)

(** In every dictionary of [agg] the test case ids are pairwise distinct and
    non-zero, and every bucket has at least one path. *)
Definition agg_shaped (agg : gmap string (list (Z * Bucket))) : Prop :=
  ∀ tid buckets, agg !! tid = Some buckets →
    NoDup buckets.*1 ∧ Forall (λ e, e.1 ≠ 0 ∧ b_paths e.2 ≠ ∅) buckets.

(** The rows [main] writes for the top-level suite [top]. *)
Definition table_of (agg : gmap string (list (Z * Bucket))) (top : Suite)
    : option (Suite * list Row) :=
  match agg !! s_id top with
  | Some buckets => Some (top, row_of top <$> buckets)
  | None => None
  end.

(** ** Further sample data *)

(** Two suites as the suites endpoint returns them, the second a child of
    the first. *)
Definition raw_top : RawSuite :=
  {| rs_id := Some 10; rs_name := "Top"; rs_parentSuite := None |}.

Definition raw_child : RawSuite :=
  {| rs_id := Some 11; rs_name := "Child A";
     rs_parentSuite := Some {| pr_id := Some 10 |} |}.

(** The sample service with a suites endpoint that lists a suite whose parent
    [99] is not listed. *)
Definition service_with_orphan : Service nat :=
  let svc := sample_service mixed_points in
  {| get_plans := get_plans svc;
     get_suites := λ url q served,
       (response 200 "" url
          {[ "value" :=
               [ raw_top;
                 {| rs_id := Some 11; rs_name := "Child A";
                    rs_parentSuite := Some {| pr_id := Some 99 |} |} ] ]} ∅,
        S served);
     get_points := get_points svc;
     get_runs := get_runs svc; get_results := get_results svc |}.

(** The rows [main] produces for the sample service with mixed
    observations. *)
Definition mixed_rows : list Row :=
  [ {| TopSuiteId := "10"; TopSuiteName := "Top"; TestCaseId := 42;
       TestCaseName := Some "Login"; Outcome := "Failed";
       Paths := "Top/Child A; Top/Child B"; NumPaths := 2 |};
    {| TopSuiteId := "10"; TopSuiteName := "Top"; TestCaseId := 43;
       TestCaseName := Some "Logout"; Outcome := "NeverRun";
       Paths := "Top/Child A"; NumPaths := 1 |} ].

(** The points [get_points_for_suite] returns for suite [11] of that
    service. *)
Definition mixed_points_resolved : list Point :=
  [ {| p_id := Some 7;
       p_testCase := Some {| tc_id := Some 42; tc_name := Some "Login" |};
       p_outcome := Some "Passed"; p_mostRecentResult := None;
       p_lastTestRun := None; p_lastResultDetails := None;
       p_resolvedOutcome := Some "Passed" |};
    {| p_id := Some 8;
       p_testCase := Some {| tc_id := Some 43; tc_name := Some "Logout" |};
       p_outcome := Some "Inconclusive"; p_mostRecentResult := None;
       p_lastTestRun := None; p_lastResultDetails := None;
       p_resolvedOutcome := Some "Inconclusive" |} ].

(** ** The burndown script

    [main] of [test_case_burndown.py], up to the dictionary [results_by_top]
    it hands to the data-frame library.  Its [get_json] words the error in
    its own way, so [resolve_plan_id_by_name] and [list_suites], otherwise
    the same as in the other script, are given again on top of it; its
    [get_points_for_suite] and [list_runs_for_plan] are [burndown_points]
    and [burndown_runs]; [top_ancestor], the paginated fetch and
    [list_results_for_run] (whose integer [pointId] needs no guard) are
    those of the other script. *)

(** A run with the keys the burndown script reads. *)
Record BurndownRun := {
  br_id : option Z;
  br_name : option string;
  br_isAutomated : option bool
}.

(** A result with the keys [main] adds to it. *)
Record ResultRow := {
  rr_result : TestResult;
  rr_planId : Z;
  rr_topSuiteId : string;
  rr_runId : Z;
  rr_runName : option string;
  rr_automated : option bool
}.

(** [get_json] of [test_case_burndown.py]; its message is the status and the
    text of the answer. *)
Definition burndown_get_json {St V : Type} (requests_get : Get St V) (url : string)
    (params : option (gmap string string)) : M St (gmap string V) :=
  λ st,
    let (r, st') := requests_get url (default ∅ params) st in
    if status_code r >=? 400
    then (Raise (SystemExit (pretty (status_code r) +:+ " " +:+ text r)), st')
    else (Ret (r_json r), st').

Section Burndown.
Context {St : Type} (svc : Service St) (cfg : Config).
(** The runs endpoint, read with the keys of [BurndownRun]. *)
Variable get_burndown_runs : Get St (Value BurndownRun).
(** [START_DATE] and [END_DATE] of [.env]. *)
Variables START_DATE END_DATE : string.
(** [str.lower], [str.strip], and [int] on the decimal strings [str] makes. *)
Variables lower strip : string → string.
Variable int : string → Z.

Definition burndown_resolve_plan_id_by_name (plan_name : string) : M St string :=
  body <- burndown_get_json (get_plans svc) (urlp cfg "/_apis/testplan/plans")
            (Some {[ "api-version" := TESTPLAN_API_VER ]}) ;;
  let plans := default [] (body !! "value") in
  let wanted := strip (lower plan_name) in
  let exact := filter (λ p, strip (lower (name_of p)) = wanted) plans in
  exact <- (match exact with
            | [] =>
                let partial := filter (λ p, is_substring wanted (lower (name_of p)))
                                      plans in
                match partial with
                | [] => raise (SystemExit ("Plan '" +:+ plan_name +:+ "' not found"))
                | _ => ret partial
                end
            | _ => ret exact
            end) ;;
  match exact with
  | p :: _ =>
      let pid := pretty (pl_id p) in
      (* the f-string of the [print] reads [exact[0]['name']] *)
      match pl_name p with
      | Some _ => ret pid
      | None => raise (KeyError "name")
      end
  | [] => raise (KeyError "0")
  end.

Definition burndown_list_suites (plan_id : string) : M St (list Suite) :=
  resp <- burndown_get_json (get_suites svc)
            (urlp cfg ("/_apis/testplan/Plans/" +:+ plan_id +:+ "/suites"))
            (Some {[ "api-version" := TESTPLAN_API_VER ]}) ;;
  let suites := default (default [] (resp !! "suites")) (resp !! "value") in
  ret (normalize_suite <$> suites).

Definition burndown_points (fuel : nat) (plan_id suite_id : string) : M St (list Point) :=
  get_json_paginated_fallback (get_points svc) (urlp cfg "/_apis/test/points")
    (Some (<["planId" := plan_id]> {[ "suiteId" := suite_id ]})) "value" fuel VER_POINTS.

Definition burndown_runs (fuel : nat) (plan_id start end_ : string)
    : M St (list BurndownRun) :=
  let params : gmap string string := {[ "planId" := plan_id ]} in
  let params := if truthy (Some start)
                then <["minLastUpdatedDate" := start]> params else params in
  let params := if truthy (Some end_)
                then <["maxLastUpdatedDate" := end_]> params else params in
  runs <- get_json_paginated_fallback get_burndown_runs (urlp cfg "/_apis/test/runs")
            (Some params) "value" fuel VER_RUNS ;;
  (* [for r in runs: r["id"] = int(r["id"])] *)
  _ <- for_each (λ _ r, match br_id r with
                        | Some _ => ret tt
                        | None => raise (KeyError "id")
                        end) runs tt ;;
  ret runs.

(** The body of the loop over the suites: the points of a suite are added to
    the list of its top-level ancestor and mapped to it. *)
Definition map_suite_points (fuel : nat) (plan_id : string) (by_id : gmap string Suite)
    (maps : gmap string (list Z) * gmap Z string) (s : Suite)
    : M St (gmap string (list Z) * gmap Z string) :=
  let (top_points, point_to_top) := maps in
  let sid := s_id s in
  pts <- burndown_points fuel plan_id sid ;;
  let pids := omap p_id pts in
  match pids with
  | [] => ret (top_points, point_to_top)
  | _ =>
      tid <- lift (top_ancestor by_id fuel sid) ;;
      top_points <- match top_points !! tid with
                    | Some l => ret (<[tid := (l ++ pids)%list]> top_points)
                    | None => raise (KeyError tid)
                    end ;;
      let point_to_top := foldl (λ m pid, <[pid := tid]> m) point_to_top pids in
      (* the f-string of the [print] reads [by_id[tid]['name']] *)
      _ <- match by_id !! tid with
           | Some _ => ret tt
           | None => raise (KeyError tid)
           end ;;
      ret (top_points, point_to_top)
  end.

(** The body of the loop over the results of a run. *)
Definition collect_result (plan_id : string) (point_to_top : gmap Z string)
    (run : BurndownRun) (rid : Z) (results_by_top : gmap string (list ResultRow))
    (res : TestResult) : M St (gmap string (list ResultRow)) :=
  match r_pointId res with
  | None => ret results_by_top
  | Some pid =>
      match point_to_top !! pid with
      | None => ret results_by_top
      | Some tid =>
          if decide (tid = "") then ret results_by_top
          else
            let row := {| rr_result := res; rr_planId := int plan_id;
                          rr_topSuiteId := tid; rr_runId := rid;
                          rr_runName := br_name run;
                          rr_automated := br_isAutomated run |} in
            match results_by_top !! tid with
            | Some rows => ret (<[tid := (rows ++ [row])%list]> results_by_top)
            | None => raise (KeyError tid)
            end
      end
  end.

Definition burndown_main (fuel : nat) : M St (gmap string (list ResultRow)) :=
  plan_id <- burndown_resolve_plan_id_by_name (TEST_PLAN_NAME cfg) ;;
  suites <- burndown_list_suites plan_id ;;
  let by_id := by_id suites in
  let top_level := filter (λ s, s_parentId s = None) suites in
  let top_points := foldl (λ m s, <[s_id s := []]> m) ∅ top_level in
  maps <- for_each (map_suite_points fuel plan_id by_id) suites (top_points, ∅) ;;
  let point_to_top := maps.2 in
  runs <- burndown_runs fuel plan_id START_DATE END_DATE ;;
  let results_by_top := foldl (λ m s, <[s_id s := []]> m) ∅ top_level in
  for_each (λ results_by_top run,
      rid <- match br_id run with
             | Some rid => ret rid
             | None => raise (KeyError "id")
             end ;;
      results <- list_results_for_run svc cfg fuel rid ;;
      for_each (collect_result plan_id point_to_top run rid) results results_by_top)
    runs results_by_top.
End Burndown.

(** The two dictionaries of the loop over the suites agree: a point is
    mapped to a top-level suite only if it is in the list of that suite. *)
Definition maps_agree (maps : gmap string (list Z) * gmap Z string) : Prop :=
  ∀ pid tid, maps.2 !! pid = Some tid → ∃ l, maps.1 !! tid = Some l ∧ pid ∈ l.

(** The runs endpoint of the burndown sample: one automated run, [100]. *)
Definition sample_burndown_runs : Get nat (Value BurndownRun) :=
  λ url q served,
    (response 200 "" url
       {[ "value" := VList [ {| br_id := Some 100; br_name := Some "nightly";
                                br_isAutomated := Some true |} ] ]} ∅,
     S served).

(** [int] on the decimal strings of the sample plan ids. *)
Definition sample_int (s : string) : Z :=
  if decide (s = "2") then 2 else if decide (s = "1") then 1 else 0.

(** The suites of the sample service as [list_suites] returns them. *)
Definition sample_suites : list Suite :=
  [ {| s_id := "10"; s_name := "Top"; s_parentId := None |};
    {| s_id := "11"; s_name := "Child A"; s_parentId := Some "10" |};
    {| s_id := "12"; s_name := "Child B"; s_parentId := Some "10" |} ].

(** [top_points] and [point_to_top] of the burndown script for the sample
    service with mixed observations. *)
Definition sample_maps : gmap string (list Z) * gmap Z string :=
  ({[ "10" := [7; 8; 9] ]}, {[ 7 := "10"; 8 := "10"; 9 := "10" ]}).

(** [results_by_top] of the burndown script for the same service: the result
    of run [100] for point [7], filed under the top-level suite [10]. *)
Definition sample_results_by_top : gmap string (list ResultRow) :=
  {[ "10" :=
       [ {| rr_result :=
              {| r_id := Some 1; r_testPoint := Some {| tp_id := Some 7 |};
                 r_pointId := Some 7; r_outcome := Some "Failed";
                 r_completedDate := Some "2024-01-02T00:00:00Z";
                 r_startedDate := None |};
            rr_planId := 2; rr_topSuiteId := "10"; rr_runId := 100;
            rr_runName := Some "nightly"; rr_automated := Some true |} ] ]}.

(** * Facts about the outcome table *)

(** Membership in a list given by its elements. *)
Ltac in_list :=
  unfold recognized;
  repeat (apply elem_of_cons; first [left; reflexivity | right]).

Lemma precedence_unlisted (a : option string) :
  a ∉ [Some "Failed"; Some "Blocked"; Some "Paused"; Some "Active";
       Some "NotApplicable"; Some "Passed"; None; Some ""; Some "None";
       Some "NeverRun"] →
  precedence a = -1.
Proof.
  intros H. unfold precedence, OUTCOME_ORDER.
  rewrite not_elem_of_list_to_map_1; done.
Qed.

Lemma precedence_cases (a : option string) :
  (a = Some "Failed" ∧ precedence a = 6) ∨
  (a = Some "Blocked" ∧ precedence a = 5) ∨
  (a = Some "Paused" ∧ precedence a = 4) ∨
  (a = Some "Active" ∧ precedence a = 3) ∨
  (a = Some "NotApplicable" ∧ precedence a = 2) ∨
  (a = Some "Passed" ∧ precedence a = 0) ∨
  ((∀ s, s ∈ recognized → a ≠ Some s) ∧ precedence a = -1).
Proof.
  destruct (decide (a = Some "Failed")) as [->|n1]; [left; done|].
  destruct (decide (a = Some "Blocked")) as [->|n2]; [right; left; done|].
  destruct (decide (a = Some "Paused")) as [->|n3]; [do 2 right; left; done|].
  destruct (decide (a = Some "Active")) as [->|n4]; [do 3 right; left; done|].
  destruct (decide (a = Some "NotApplicable")) as [->|n5]; [do 4 right; left; done|].
  destruct (decide (a = Some "Passed")) as [->|n6]; [do 5 right; left; done|].
  do 6 right. split.
  - intros s Hs ->. unfold recognized in Hs.
    repeat (apply elem_of_cons in Hs as [->|Hs]; [congruence|]).
    by apply elem_of_nil in Hs.
  - destruct (decide (a = None)) as [->|n7]; [done|].
    destruct (decide (a = Some "")) as [->|n8]; [done|].
    destruct (decide (a = Some "None")) as [->|n9]; [done|].
    destruct (decide (a = Some "NeverRun")) as [->|n10]; [done|].
    apply precedence_unlisted.
    repeat (apply not_elem_of_cons; split; [done|]).
    apply not_elem_of_nil.
Qed.

Lemma precedence_lower_bound a : -1 ≤ precedence a.
Proof. destruct (precedence_cases a) as [[_ ->]|[[_ ->]|[[_ ->]|[[_ ->]|[[_ ->]|[[_ ->]|[_ ->]]]]]]]; lia. Qed.

Lemma precedence_recognized a :
  0 ≤ precedence a ↔ ∃ s, a = Some s ∧ s ∈ recognized.
Proof.
  split.
  - intros H.
    destruct (precedence_cases a)
      as [[-> _]|[[-> _]|[[-> _]|[[-> _]|[[-> _]|[[-> _]|[_ E]]]]]]];
      try (eexists; split; [reflexivity|]; in_list).
    lia.
  - intros (s & -> & Hs). unfold recognized in Hs.
    repeat (apply elem_of_cons in Hs as [->|Hs]; [done|]).
    by apply elem_of_nil in Hs.
Qed.

Lemma precedence_inj a b :
  0 ≤ precedence a → precedence a = precedence b → a = b.
Proof.
  intros Ha Hab.
  destruct (precedence_cases a)
    as [[-> Ea]|[[-> Ea]|[[-> Ea]|[[-> Ea]|[[-> Ea]|[[-> Ea]|[_ Ea]]]]]]];
  destruct (precedence_cases b)
    as [[-> Eb]|[[-> Eb]|[[-> Eb]|[[-> Eb]|[[-> Eb]|[[-> Eb]|[_ Eb]]]]]]];
  try reflexivity; rewrite ?Ea, ?Eb in *; lia.
Qed.

Lemma worse_cases a b :
  (precedence b ≤ precedence a ∧ worse a b = a) ∨
  (precedence a < precedence b ∧ worse a b = b).
Proof.
  unfold worse. destruct (precedence a >=? precedence b) eqn:E;
    rewrite Z.geb_leb in E.
  - left. apply Z.leb_le in E. done.
  - right. apply Z.leb_gt in E. done.
Qed.

Lemma worse_swap acc x y : worse (worse acc x) y = worse (worse acc y) x.
Proof.
  pose proof (precedence_lower_bound acc).
  destruct (worse_cases acc x) as [[H1 E1]|[H1 E1]];
  destruct (worse_cases acc y) as [[H2 E2]|[H2 E2]];
  repeat (rewrite E1 || rewrite E2).
  - done.
  - destruct (worse_cases y x) as [[_ ->]|[? _]]; [done|lia].
  - destruct (worse_cases x y) as [[_ ->]|[? _]]; [done|lia].
  - destruct (worse_cases x y) as [[H3 ->]|[H3 ->]];
    destruct (worse_cases y x) as [[H4 ->]|[H4 ->]]; try done; try lia.
    apply precedence_inj; lia.
Qed.

Lemma foldl_worse_perm (l1 l2 : list (option string)) :
  l1 ≡ₚ l2 → ∀ acc, foldl worse acc l1 = foldl worse acc l2.
Proof.
  induction 1 as [|x l1 l2 _ IH|x y l|l1 l2 l3 _ IH1 _ IH2]; intros acc; cbn.
  - done.
  - apply IH.
  - by rewrite worse_swap.
  - by rewrite IH1.
Qed.

Lemma worse_settled acc x : settled acc → settled (worse acc x).
Proof.
  intros Hacc. destruct (worse_cases acc x) as [[_ ->]|[H ->]]; [done|].
  right. pose proof (precedence_lower_bound acc). lia.
Qed.

Lemma foldl_worse_settled l : ∀ acc, settled acc → settled (foldl worse acc l).
Proof.
  induction l as [|x l IH]; intros acc Hacc; cbn; [done|].
  by apply IH, worse_settled.
Qed.

Lemma reconcile_settled l : settled (reconcile l).
Proof. apply foldl_worse_settled. by left. Qed.

Lemma emitted_outcome_settled a :
  settled a → emitted_outcome a ∈ "NeverRun" :: recognized.
Proof.
  intros [->|H]; [in_list|].
  apply precedence_recognized in H as (s & -> & Hs). cbn.
  unfold recognized in *.
  repeat (apply elem_of_cons in Hs as [->|Hs]; [cbn; in_list|]).
  by apply elem_of_nil in Hs.
Qed.

Lemma foldl_worse_reconcile l : ∀ acc, foldl worse acc l = worse acc (reconcile l).
Proof.
  unfold reconcile.
  induction l as [|x l IH] using rev_ind; intros acc.
  - cbn. destruct (worse_cases acc None) as [[_ ->]|[H _]]; [done|].
    pose proof (precedence_lower_bound acc). change (precedence None) with (-1) in H. lia.
  - rewrite !foldl_app. cbn. rewrite IH.
    set (r := foldl worse None l).
    pose proof (precedence_lower_bound acc).
    pose proof (precedence_lower_bound x).
    destruct (worse_cases acc r) as [[H1 E1]|[H1 E1]];
    destruct (worse_cases r x) as [[H2 E2]|[H2 E2]];
    repeat (rewrite E1 || rewrite E2).
    + destruct (worse_cases acc x) as [[_ ->]|[? _]]; [done|lia].
    + done.
    + done.
    + destruct (worse_cases acc x) as [[? _]|[_ ->]]; [lia|done].
Qed.

Lemma reconcile_app l1 l2 :
  reconcile (l1 ++ l2) = worse (reconcile l1) (reconcile l2).
Proof. unfold reconcile at 1. rewrite foldl_app. apply foldl_worse_reconcile. Qed.

(** C5.  [worse a b] is one of its arguments, the one of higher precedence
    (the first on a tie), under the order Failed > Blocked > Paused > Active >
    NotApplicable > Passed; every value outside these six statuses (unset,
    empty, never-run, unknown) has the lowest precedence [-1] and loses to
    each of the six, on either side. *)
Theorem worse_returns_higher_precedence (a b : option string) :
  (worse a b = a ∨ worse a b = b) ∧
  precedence (worse a b) = precedence a `max` precedence b ∧
  (precedence b < precedence a → worse a b = a) ∧
  (precedence a < precedence b → worse a b = b) ∧
  (precedence a = precedence b → worse a b = a) ∧
  precedence (Some "Blocked") < precedence (Some "Failed") ∧
  precedence (Some "Paused") < precedence (Some "Blocked") ∧
  precedence (Some "Active") < precedence (Some "Paused") ∧
  precedence (Some "NotApplicable") < precedence (Some "Active") ∧
  precedence (Some "Passed") < precedence (Some "NotApplicable") ∧
  (∀ u, (∀ s, s ∈ recognized → u ≠ Some s) →
        precedence u = -1 ∧ precedence u < precedence (Some "NotApplicable") ∧
        ∀ c, precedence u ≤ precedence c) ∧
  (∀ r u, r ∈ recognized → (∀ s, s ∈ recognized → u ≠ Some s) →
          worse (Some r) u = Some r ∧ worse u (Some r) = Some r).
Proof.
  split_and!; try done.
  - destruct (worse_cases a b) as [[_ ->]|[_ ->]]; auto.
  - destruct (worse_cases a b) as [[? ->]|[? ->]]; lia.
  - intros H. destruct (worse_cases a b) as [[_ ->]|[? _]]; [done|lia].
  - intros H. destruct (worse_cases a b) as [[? _]|[_ ->]]; [lia|done].
  - intros H. destruct (worse_cases a b) as [[_ ->]|[? _]]; [done|lia].
  - intros u Hu.
    assert (precedence u = -1) as Eu.
    { destruct (precedence_cases u)
        as [[-> _]|[[-> _]|[[-> _]|[[-> _]|[[-> _]|[[-> _]|[_ E]]]]]]];
        try done; exfalso; (eapply Hu; [|reflexivity]); in_list. }
    split_and!; [done|by rewrite Eu|].
    intros c. rewrite Eu. apply precedence_lower_bound.
  - intros r u Hr Hu.
    assert (0 ≤ precedence (Some r)) as Hpr by (apply precedence_recognized; eauto).
    assert (precedence u = -1) as Eu.
    { destruct (precedence_cases u)
        as [[-> _]|[[-> _]|[[-> _]|[[-> _]|[[-> _]|[[-> _]|[_ E]]]]]]];
        try done; exfalso; (eapply Hu; [|reflexivity]); in_list. }
    split.
    + destruct (worse_cases (Some r) u) as [[_ ->]|[? _]]; [done|lia].
    + destruct (worse_cases u (Some r)) as [[? _]|[_ ->]]; [lia|done].
Qed.

(** C4.  Reconciliation does not depend on the order of the observations: two
    sequences of raw outcomes that are permutations of each other leave the
    same value in the bucket and the same value in the [Outcome] column. *)
Theorem reconcile_permutation (l1 l2 : list (option string)) :
  l1 ≡ₚ l2 →
  reconcile l1 = reconcile l2 ∧
  emitted_outcome (reconcile l1) = emitted_outcome (reconcile l2).
Proof.
  intros Hperm.
  assert (reconcile l1 = reconcile l2) as E by (by apply foldl_worse_perm).
  by rewrite E.
Qed.

(** C6.  The outcome resolved for a point is the first non-empty value among
    the direct outcome, [mostRecentResult.outcome], [lastTestRun.outcome] and
    [lastResultDetails.outcome], probed in this order; when none of the four
    is non-empty, it is the (empty or absent) value of the last. *)
Theorem resolve_point_outcome_first_nonempty (point : Point) :
  resolve_point_outcome point
  = default (p_lastResultDetails point ≫= ref_outcome)
            (List.find truthy (candidate_outcomes point)).
Proof.
  unfold resolve_point_outcome, candidate_outcomes. cbn [List.find].
  destruct (truthy (p_outcome point)); [done|].
  destruct (p_mostRecentResult point) as [mrr|]; cbn;
    [destruct (truthy (ref_outcome mrr)); [done|]|];
  (destruct (p_lastTestRun point) as [ltr|]; cbn;
    [destruct (truthy (ref_outcome ltr)); [done|]|]);
  (destruct (p_lastResultDetails point) as [lrd|]; cbn;
    [destruct (truthy (ref_outcome lrd)); done|done]).
Qed.

(** The bucket of a test case, and hence the [Outcome] column, only ever
    holds a status of the table or the never-run sentinel. *)
Lemma emitted_outcome_reconcile (outcomes : list (option string)) :
  emitted_outcome (reconcile outcomes) ∈ "NeverRun" :: recognized.
Proof. apply emitted_outcome_settled, reconcile_settled. Qed.

(** The reconciliations listed among the testable properties. *)
Example reconcile_examples :
  emitted_outcome (reconcile []) = "NeverRun" ∧
  reconcile [Some "Passed"] = Some "Passed" ∧
  reconcile [Some "Passed"; Some "Failed"] = Some "Failed" ∧
  reconcile [Some "Active"; Some "Blocked"] = Some "Blocked" ∧
  reconcile [Some "Inconclusive"; Some "NeverRun"; Some ""] = None.
Proof. vm_compute. done. Qed.

(** * Facts about the paginated fetch *)

Section HttpFacts.
Context {St A : Type} (requests_get : Get St (Value A)).
Context (url : string) (params : option (gmap string string)) (value_key : string).

Local Abbreviation pages_loop := (pages_loop requests_get url params value_key).
Local Abbreviation versions_loop := (versions_loop requests_get url params value_key).
Local Abbreviation fetch :=
  (get_json_paginated_fallback requests_get url params value_key).
Local Abbreviation pages := (pages requests_get url params value_key).
Local Abbreviation version_fails := (version_fails requests_get url params).
Local Abbreviation all_fail := (all_fail requests_get url params).

Lemma geb_400_false (z : Z) : (z < 400)%Z → (z >=? 400) = false.
Proof. intros. rewrite Z.geb_leb. apply Z.leb_gt. lia. Qed.

Lemma geb_400_true (z : Z) : (400 ≤ z)%Z → (z >=? 400) = true.
Proof. intros. rewrite Z.geb_leb. apply Z.leb_le. lia. Qed.

Lemma pages_loop_complete st ver token chunks st' :
  pages st ver token chunks st' →
  ∀ out fuel, (length chunks ≤ fuel)%nat →
    pages_loop fuel ver token out st = (Ret (inr (out ++ concat chunks)%list), st').
Proof.
  induction 1 as [st ver token r st' Hget Hok Htok
                 |st ver token r st' chunks st'' Hget Hok Htok _ IH];
    intros out [|fuel] Hfuel; cbn in Hfuel; try lia; cbn.
  - rewrite Hget, (geb_400_false _ Hok), Htok. cbn. by rewrite app_nil_r.
  - rewrite Hget, (geb_400_false _ Hok), Htok. cbn.
    rewrite IH by lia. by rewrite <- app_assoc.
Qed.

Lemma pages_loop_fails st ver token status body st' :
  version_fails st ver token status body st' →
  ∃ n, ∀ out fuel, (n ≤ fuel)%nat →
    pages_loop fuel ver token out st
    = (Ret (inl (pretty status +:+ " " +:+ body)), st').
Proof.
  induction 1 as [st ver token r st' Hget Hbad
                 |st ver token r st' status body st'' Hget Hok Htok _ [n IH]].
  - exists 1%nat. intros out [|fuel] Hfuel; [lia|]. cbn.
    by rewrite Hget, (geb_400_true _ Hbad).
  - exists (S n). intros out [|fuel] Hfuel; [lia|]. cbn.
    rewrite Hget, (geb_400_false _ Hok), Htok. cbn. apply IH. lia.
Qed.

Lemma versions_loop_skip st versions last0 last st' :
  all_fail st versions last0 last st' →
  ∃ n, ∀ fuel rest, (n ≤ fuel)%nat →
    versions_loop fuel (versions ++ rest) last0 st = versions_loop fuel rest last st'.
Proof.
  induction 1 as [|st ver versions last0 status body st' last st'' Hf _ [n IH]].
  - by exists 0%nat.
  - destruct (pages_loop_fails _ _ _ _ _ _ Hf) as [m Hm].
    exists (n `max` m)%nat. intros fuel rest Hfuel. cbn. unfold bind.
    rewrite Hm by lia. apply IH. lia.
Qed.

Lemma pages_loop_sound fuel : ∀ ver token out st r st',
  pages_loop fuel ver token out st = (Ret r, st') →
  match r with
  | inr out' => ∃ chunks, pages st ver token chunks st' ∧ out' = (out ++ concat chunks)%list
  | inl last => ∃ status body, version_fails st ver token status body st'
                               ∧ last = pretty status +:+ " " +:+ body
  end.
Proof.
  induction fuel as [|fuel IH]; intros ver token out st r st'; cbn; [done|].
  destruct (requests_get _ _ st) as [resp st1] eqn:Hget.
  destruct (status_code resp >=? 400) eqn:Hst.
  - intros [= <- <-]. exists (status_code resp), (text resp). split; [|done].
    apply fails_now; [done|]. rewrite Z.geb_leb in Hst. apply Z.leb_le in Hst. lia.
  - assert (status_code resp < 400)%Z as Hok
      by (rewrite Z.geb_leb in Hst; apply Z.leb_gt in Hst; lia).
    destruct (truthy (headers resp !! "x-ms-continuationtoken")) eqn:Htok; cbn.
    + intros Hrec. apply IH in Hrec. destruct r as [last|out'].
      * destruct Hrec as (status & body & Hf & ->). exists status, body.
        split; [|done]. by eapply fails_later.
      * destruct Hrec as (chunks & Hp & ->). eexists (_ :: chunks). split.
        -- by eapply pages_more.
        -- cbn. by rewrite app_assoc.
    + intros [= <- <-]. eexists [_]. split.
      * by eapply pages_last.
      * cbn. by rewrite app_nil_r.
Qed.

Lemma versions_loop_sound fuel versions : ∀ last0 st out st',
  versions_loop fuel versions last0 st = (Ret out, st') →
  ∃ pre ver post last st1 chunks,
    versions = (pre ++ ver :: post)%list ∧ all_fail st pre last0 last st1 ∧
    pages st1 ver None chunks st' ∧ out = concat chunks.
Proof.
  induction versions as [|ver versions IH]; intros last0 st out st'; cbn; [done|].
  unfold bind. destruct (pages_loop fuel ver None [] st) as [[r| |] st1] eqn:Hloop; try done.
  apply pages_loop_sound in Hloop. destruct r as [last|out'].
  - destruct Hloop as (status & body & Hf & ->). intros Hrec.
    apply IH in Hrec as (pre & v & post & last & st2 & chunks & -> & Hall & Hp & ->).
    exists (ver :: pre), v, post, last, st2, chunks. split_and!; try done.
    by eapply all_fail_cons.
  - destruct Hloop as (chunks & Hp & ->). intros [= <- <-].
    exists [], ver, versions, last0, st, chunks. split_and!; try done. constructor.
Qed.


Lemma all_fail_one st ver last0 status body st' :
  version_fails st ver None status body st' →
  all_fail st [ver] last0 (pretty status +:+ " " +:+ body) st'.
Proof. intros Hf. eapply all_fail_cons; [done|]. constructor. Qed.


(** C1.  A paginated fetch returns the pages of one version only: when the
    versions before [ver] all fail (whatever pages they delivered before
    failing) and the requests under [ver] are answered page after page
    until no continuation token comes back, the fetch returns, given enough
    fuel, exactly the concatenation of the pages of [ver]; and whatever
    collection a fetch returns arises in this way. *)
Theorem paginated_fetch_single_version versions st :
  (∀ pre ver post last st1 chunks st2,
      versions = (pre ++ ver :: post)%list →
      all_fail st pre "" last st1 →
      pages st1 ver None chunks st2 →
      ∃ n, ∀ fuel, (n ≤ fuel)%nat →
        fetch fuel versions st = (Ret (concat chunks), st2)) ∧
  (∀ fuel out st2,
      fetch fuel versions st = (Ret out, st2) →
      ∃ pre ver post last st1 chunks,
        versions = (pre ++ ver :: post)%list ∧
        all_fail st pre "" last st1 ∧
        pages st1 ver None chunks st2 ∧
        out = concat chunks).
Proof.
  split.
  - intros pre ver post last st1 chunks st2 -> Hpre Hpages.
    destruct (versions_loop_skip _ _ _ _ _ Hpre) as [n Hn].
    exists (n `max` length chunks)%nat. intros fuel Hfuel.
    unfold get_json_paginated_fallback. rewrite Hn by lia. cbn. unfold bind.
    by rewrite (pages_loop_complete _ _ _ _ _ Hpages) by lia.
  - intros fuel out st2 Hrun. by apply versions_loop_sound in Hrun.
Qed.

End HttpFacts.

(** * Facts about the suite hierarchy *)

Lemma by_id_foldl_lookup suites : ∀ (m0 : gmap string Suite) sid s,
  foldl (λ m s, <[s_id s := s]> m) m0 suites !! sid = Some s →
  (s ∈ suites ∧ s_id s = sid) ∨ m0 !! sid = Some s.
Proof.
  induction suites as [|x suites IH]; intros m0 sid s; cbn; [by right|].
  intros H. apply IH in H as [[Hin Hid]|H].
  - left. split; [by right|done].
  - destruct (decide (s_id x = sid)) as [<-|Hne].
    + rewrite lookup_insert_eq in H. injection H as <-. left. split; [by left|done].
    + rewrite lookup_insert_ne in H by done. by right.
Qed.

Lemma by_id_lookup suites sid s :
  by_id suites !! sid = Some s → s ∈ suites ∧ s_id s = sid.
Proof.
  intros H. apply by_id_foldl_lookup in H as [H|H]; [done|].
  by rewrite lookup_empty in H.
Qed.

Lemma by_id_foldl_some suites : ∀ (m0 : gmap string Suite) sid,
  is_Some (m0 !! sid) ∨ (∃ s, s ∈ suites ∧ s_id s = sid) →
  is_Some (foldl (λ m s, <[s_id s := s]> m) m0 suites !! sid).
Proof.
  induction suites as [|x suites IH]; intros m0 sid; cbn.
  - intros [H|(s & Hs & _)]; [done|]. by apply elem_of_nil in Hs.
  - intros H. apply IH. destruct (decide (s_id x = sid)) as [<-|Hne].
    + left. rewrite lookup_insert_eq. by eexists.
    + rewrite lookup_insert_ne by done. destruct H as [H|(s & Hs & Hid)]; [by left|].
      apply elem_of_cons in Hs as [->|Hs]; [done|]. right. by exists s.
Qed.

Lemma by_id_elem suites s : s ∈ suites → is_Some (by_id suites !! s_id s).
Proof. intros H. apply by_id_foldl_some. right. by exists s. Qed.

Section HierarchyFacts.
Variable m : gmap string Suite.

Lemma ancestry_det s chain1 :
  ancestry m s chain1 → ∀ chain2, ancestry m s chain2 → chain1 = chain2.
Proof.
  induction 1 as [s Hs|s pid parent chain Hs Hp _ IH]; intros chain2 H2;
    inversion H2; subst; try congruence.
  f_equal. apply IH. congruence.
Qed.

Lemma ancestry_last s chain :
  ancestry m s chain → ∃ root, last chain = Some root ∧ s_parentId root = None.
Proof.
  induction 1 as [s Hs|s pid parent chain Hs Hp Hanc (root & Hl & Hr)].
  - by exists s.
  - exists root. split; [|done]. destruct chain; [inversion Hanc|done].
Qed.

Lemma climb_ancestry s chain :
  ancestry m s chain →
  ∀ fuel, (length chain ≤ fuel)%nat →
    ∃ root, last chain = Some root ∧ s_parentId root = None ∧
            climb m fuel s = Ret (s_id root).
Proof.
  induction 1 as [s Hs|s pid parent chain Hs Hp Hanc IH];
    intros [|fuel] Hfuel; cbn in Hfuel; try lia; cbn.
  - exists s. by rewrite Hs.
  - rewrite Hs, Hp. destruct (IH fuel ltac:(lia)) as (root & Hl & Hr & Hc).
    exists root. split_and!; try done. destruct chain; [inversion Hanc|done].
Qed.

Lemma collect_ancestry s chain :
  ancestry m s chain →
  ∀ fuel parts, (length chain ≤ fuel)%nat →
    collect m fuel s parts = Ret (parts ++ (s_name <$> chain))%list.
Proof.
  induction 1 as [s Hs|s pid parent chain Hs Hp Hanc IH];
    intros [|fuel] parts Hfuel; cbn in Hfuel; try lia; cbn.
  - by rewrite Hs.
  - rewrite Hs, Hp, IH by lia. by rewrite <- app_assoc.
Qed.

Lemma nth_parent_add i : ∀ j s,
  nth_parent m (i + j) s = nth_parent m i s ≫= nth_parent m j.
Proof.
  induction i as [|i IH]; intros j s; cbn; [done|].
  destruct (s_parentId s) as [pid|]; [|done].
  destruct (m !! pid) as [next|]; cbn; [apply IH|done].
Qed.

Lemma nth_parent_prefix i j s :
  (i ≤ j)%nat → is_Some (nth_parent m j s) → is_Some (nth_parent m i s).
Proof.
  intros Hle. replace j with (i + (j - i))%nat by lia. rewrite nth_parent_add.
  destruct (nth_parent m i s); [by eexists|by intros [? ?]].
Qed.

Lemma cycle_unbounded k c :
  nth_parent m (S k) c = Some c → ∀ n, is_Some (nth_parent m n c).
Proof.
  intros Hcyc n. induction (lt_wf n) as [n _ IH].
  destruct (decide (n ≤ S k)%nat) as [Hle|Hgt].
  - apply (nth_parent_prefix n (S k)); [done|]. by rewrite Hcyc.
  - replace n with (S k + (n - S k))%nat by lia.
    rewrite nth_parent_add, Hcyc. cbn [mbind option_bind]. apply IH. lia.
Qed.

Lemma revisits_unbounded s :
  revisits m s → ∀ n, is_Some (nth_parent m n s).
Proof.
  intros (i & k & c & Hi & Hcyc) n.
  destruct (decide (n ≤ i)%nat) as [Hle|Hgt].
  - apply (nth_parent_prefix n i); [done|]. by rewrite Hi.
  - replace n with (i + (n - i))%nat by lia.
    rewrite nth_parent_add, Hi. cbn [mbind option_bind]. by eapply cycle_unbounded.
Qed.

Lemma unbounded_step s :
  (∀ n, is_Some (nth_parent m n s)) →
  ∃ pid next, s_parentId s = Some pid ∧ m !! pid = Some next ∧
              ∀ n, is_Some (nth_parent m n next).
Proof.
  intros H. pose proof (H 1%nat) as H1. cbn in H1.
  destruct (s_parentId s) as [pid|] eqn:Hs; [|by destruct H1].
  destruct (m !! pid) as [next|] eqn:Hp; [|by destruct H1].
  exists pid, next. split_and!; try done.
  intros n. specialize (H (S n)). cbn in H. by rewrite Hs, Hp in H.
Qed.

Lemma climb_unbounded fuel : ∀ s,
  (∀ n, is_Some (nth_parent m n s)) → climb m fuel s = OutOfFuel.
Proof.
  induction fuel as [|fuel IH]; intros s H; cbn; [done|].
  destruct (unbounded_step s H) as (pid & next & -> & -> & Hnext). by apply IH.
Qed.

Lemma collect_unbounded fuel : ∀ s parts,
  (∀ n, is_Some (nth_parent m n s)) → collect m fuel s parts = OutOfFuel.
Proof.
  induction fuel as [|fuel IH]; intros s parts H; cbn; [done|].
  destruct (unbounded_step s H) as (pid & next & -> & -> & Hnext). by apply IH.
Qed.

Lemma ancestry_bounded s chain :
  ancestry m s chain → nth_parent m (length chain) s = None.
Proof.
  induction 1 as [s Hs|s pid parent chain Hs Hp _ IH]; cbn.
  - by rewrite Hs.
  - by rewrite Hs, Hp.
Qed.

Lemma ancestry_not_revisits s chain : ancestry m s chain → ¬ revisits m s.
Proof.
  intros Hanc Hrev. apply ancestry_bounded in Hanc.
  destruct (revisits_unbounded s Hrev (length chain)) as [x Hx]. congruence.
Qed.

Lemma collect_no_raise fuel : ∀ s parts e, collect m fuel s parts ≠ Raise e.
Proof.
  induction fuel as [|fuel IH]; intros s parts e; cbn; [done|].
  destruct (s_parentId s) as [pid|]; [|done].
  destruct (m !! pid) as [next|]; [apply IH|done].
Qed.

Lemma path_walk_None n parts : path_walk m n None parts = (None, parts).
Proof. by destruct n. Qed.

(** [collect] is the loop whose variables [path_walk] follows: it returns
    the names once [cur] is [None], and is still running otherwise. *)
Lemma collect_path_walk fuel : ∀ c parts,
  collect m fuel c parts
  = match path_walk m fuel (Some c) parts with
    | (None, parts') => Ret parts'
    | (Some _, _) => OutOfFuel
    end.
Proof.
  induction fuel as [|fuel IH]; intros c parts; cbn; [done|].
  destruct (s_parentId c) as [pid|]; cbn; [|by rewrite path_walk_None].
  destruct (m !! pid) as [next|]; [apply IH|by rewrite path_walk_None].
Qed.

Lemma path_walk_unbounded n : ∀ s parts,
  (∀ k, is_Some (nth_parent m k s)) →
  ∃ cur parts', path_walk m n (Some s) parts = (Some cur, parts') ∧
                length parts' = (length parts + n)%nat.
Proof.
  induction n as [|n IH]; intros s parts H; cbn.
  - exists s, parts. split; [done|lia].
  - destruct (unbounded_step s H) as (pid & next & -> & Hnext & Hunb). cbn.
    rewrite Hnext.
    destruct (IH next (parts ++ [s_name s])%list Hunb) as (cur & parts' & -> & Hlen).
    exists cur, parts'. split; [done|]. rewrite Hlen, length_app. cbn. lia.
Qed.

Lemma climb_truncated s chain missing :
  truncated m s chain missing →
  ∀ fuel, (length chain ≤ fuel)%nat → climb m fuel s = Raise (KeyError missing).
Proof.
  induction 1 as [s pid Hs Hp|s pid parent chain missing Hs Hp _ IH];
    intros [|fuel] Hfuel; cbn in Hfuel; try lia; cbn.
  - by rewrite Hs, Hp.
  - rewrite Hs, Hp. apply IH. lia.
Qed.

Lemma collect_truncated s chain missing :
  truncated m s chain missing →
  ∀ fuel parts, (length chain ≤ fuel)%nat →
    collect m fuel s parts = Ret (parts ++ (s_name <$> chain))%list.
Proof.
  induction 1 as [s pid Hs Hp|s pid parent chain missing Hs Hp _ IH];
    intros [|fuel] parts Hfuel; cbn in Hfuel; try lia; cbn.
  - by rewrite Hs, Hp.
  - rewrite Hs, Hp, IH by lia. by rewrite <- app_assoc.
Qed.

Lemma truncated_det s chain1 missing1 :
  truncated m s chain1 missing1 →
  ∀ chain2 missing2, truncated m s chain2 missing2 →
    chain1 = chain2 ∧ missing1 = missing2.
Proof.
  induction 1 as [s pid Hs Hp|s pid parent chain missing Hs Hp _ IH];
    intros chain2 missing2 H2; inversion H2 as [? ? Hs2 Hp2|? ? ? ? ? Hs2 Hp2 Hrest];
    subst; try congruence.
  - split; congruence.
  - assert (parent0 = parent) as -> by congruence.
    destruct (IH _ _ Hrest) as [-> ->]. done.
Qed.

Lemma ancestry_not_truncated s chain1 :
  ancestry m s chain1 → ∀ chain2 missing, ¬ truncated m s chain2 missing.
Proof.
  induction 1 as [s Hs|s pid parent chain Hs Hp _ IH];
    intros chain2 missing H2; inversion H2 as [? ? Hs2 Hp2|? ? ? ? ? Hs2 Hp2 Hrest];
    subst; try congruence.
  assert (parent0 = parent) as -> by congruence. by eapply IH.
Qed.

Lemma ended_det s chain1 chain2 : ended m s chain1 → ended m s chain2 → chain1 = chain2.
Proof.
  intros [H1|[m1 H1]] [H2|[m2 H2]].
  - by eapply ancestry_det.
  - by destruct (ancestry_not_truncated _ _ H1 _ _ H2).
  - by destruct (ancestry_not_truncated _ _ H2 _ _ H1).
  - by destruct (truncated_det _ _ _ H1 _ _ H2).
Qed.

Lemma collect_ended s chain :
  ended m s chain →
  ∀ fuel parts, (length chain ≤ fuel)%nat →
    collect m fuel s parts = Ret (parts ++ (s_name <$> chain))%list.
Proof.
  intros [H|[missing H]] fuel parts Hfuel;
    [by apply collect_ancestry|by eapply collect_truncated].
Qed.

Lemma ended_walk : ∀ j s,
  nth_parent m j s = None → ∃ chain, ended m s chain ∧ (length chain ≤ j)%nat.
Proof.
  induction j as [|j IH]; intros s; cbn; [done|].
  destruct (s_parentId s) as [pid|] eqn:Hpar;
    [|intros _; exists [s]; split; [left; by constructor|cbn; lia]].
  destruct (m !! pid) as [next|] eqn:Hnext; cbn.
  - intros (chain & [Hanc|[missing Htr]] & Hlen)%IH; exists (s :: chain);
      (split; [|cbn; lia]).
    + left. by eapply ancestry_step.
    + right. exists missing. by eapply truncated_step.
  - intros _. exists [s]. split; [right; exists pid; by constructor|cbn; lia].
Qed.
End HierarchyFacts.

Section PathLookup.
Variable m : gmap string Suite.
Variable fuel : nat.

Local Abbreviation body :=
  (λ (_ : unit) (s : Suite), _ <- path_for m fuel (s_id s) ;; ret tt).
Local Abbreviation cache_sound := (cache_sound m).
Local Abbreviation cache_finite := (cache_finite m).

Lemma path_for_ancestry sid s chain cache :
  m !! sid = Some s → ancestry m s chain → (length chain ≤ fuel)%nat →
  cache_sound cache →
  ∃ cache', path_for m fuel sid cache = (Ret (slash_path chain), cache') ∧
            cache_sound cache' ∧ cache ⊆ cache' ∧
            cache' !! sid = Some (slash_path chain).
Proof.
  intros Hs Hanc Hfuel Hsound. unfold path_for.
  destruct (cache !! sid) as [p|] eqn:Hc.
  - destruct (Hsound _ _ Hc) as (s' & chain' & Hs' & Hanc' & ->).
    assert (s' = s) as -> by congruence.
    assert (chain' = chain) as -> by (by eapply ancestry_det).
    exists cache. split_and!; done.
  - rewrite Hs, (collect_ancestry _ _ _ Hanc) by done. cbn [app].
    assert (String.concat "/" (rev (s_name <$> chain)) = slash_path chain) as ->.
    { unfold slash_path. by rewrite <- map_rev. }
    eexists. split; [done|]. split_and!.
    + intros k p. destruct (decide (sid = k)) as [<-|Hne].
      * rewrite lookup_insert_eq. intros [= <-]. by exists s, chain.
      * rewrite lookup_insert_ne by done. apply Hsound.
    + by apply insert_subseteq.
    + by rewrite lookup_insert_eq.
Qed.

Lemma lookup_loop_ancestry suites : ∀ cache,
  (∀ x, x ∈ suites → ∃ s chain,
      m !! s_id x = Some s ∧ ancestry m s chain ∧ (length chain ≤ fuel)%nat) →
  cache_sound cache →
  ∃ cache', for_each body suites tt cache = (Ret tt, cache') ∧
            cache_sound cache' ∧ cache ⊆ cache' ∧
            ∀ x, x ∈ suites → is_Some (cache' !! s_id x).
Proof.
  induction suites as [|x suites IH]; intros cache Hall Hsound; cbn.
  - exists cache. split_and!; try done. intros x Hx. by apply elem_of_nil in Hx.
  - destruct (Hall x) as (s & chain & Hs & Hanc & Hlen); [by left|].
    destruct (path_for_ancestry _ _ _ cache Hs Hanc Hlen Hsound)
      as (cache1 & Hrun & Hsound1 & Hsub1 & Hx).
    destruct (IH cache1) as (cache2 & Hloop & Hsound2 & Hsub2 & Hrest);
      [intros y Hy; apply Hall; by right|done|].
    exists cache2. unfold bind at 1 2. rewrite Hrun. cbn. split_and!; try done.
    + by etrans.
    + intros y [->|Hy]%elem_of_cons; [|by apply Hrest].
      exists (slash_path chain). by eapply lookup_weaken.
Qed.

Lemma lookup_loop_unbounded suites : ∀ cache x s,
  (∀ y, y ∈ suites → is_Some (m !! s_id y)) →
  x ∈ suites → m !! s_id x = Some s → (∀ n, is_Some (nth_parent m n s)) →
  cache_finite cache →
  ∃ cache', for_each body suites tt cache = (OutOfFuel, cache').
Proof.
  induction suites as [|y suites IH]; intros cache x s Hkeys Hx Hs Hunb Hfin.
  - by apply elem_of_nil in Hx.
  - cbn. unfold bind at 1 2. unfold path_for.
    destruct (cache !! s_id y) as [p|] eqn:Hc.
    + (* already cached: [y] is not the unbounded record *)
      cbn. apply elem_of_cons in Hx as [->|Hx].
      * exfalso. eapply Hfin; [by eexists|done..].
      * eapply IH; try done. intros z Hz. apply Hkeys. by right.
    + destruct (Hkeys y) as [sy Hsy]; [by left|]. rewrite Hsy.
      destruct (collect m fuel sy []) as [parts|e|] eqn:Hcol.
      * cbn. apply elem_of_cons in Hx as [->|Hx].
        -- assert (sy = s) as -> by congruence.
           by rewrite collect_unbounded in Hcol.
        -- eapply IH; try done; [intros z Hz; apply Hkeys; by right|].
           intros k s' [q Hq] Hs' Hunb'.
           destruct (decide (s_id y = k)) as [<-|Hne].
           ++ assert (s' = sy) as -> by congruence.
              by rewrite collect_unbounded in Hcol.
           ++ rewrite lookup_insert_ne in Hq by done.
              eapply Hfin; [by eexists|done..].
      * by apply collect_no_raise in Hcol.
      * by eexists.
Qed.

Lemma path_for_ended sid s chain cache :
  m !! sid = Some s → ended m s chain → (length chain ≤ fuel)%nat →
  cache_ended m cache →
  ∃ cache', path_for m fuel sid cache = (Ret (slash_path chain), cache') ∧
            cache_ended m cache' ∧ cache ⊆ cache' ∧
            cache' !! sid = Some (slash_path chain).
Proof.
  intros Hs Hend Hfuel Hsound. unfold path_for.
  destruct (cache !! sid) as [p|] eqn:Hc.
  - destruct (Hsound _ _ Hc) as (s' & chain' & Hs' & Hend' & ->).
    assert (s' = s) as -> by congruence.
    assert (chain' = chain) as -> by (by eapply ended_det).
    exists cache. split_and!; done.
  - rewrite Hs, (collect_ended _ _ _ Hend) by done. cbn [app].
    assert (String.concat "/" (rev (s_name <$> chain)) = slash_path chain) as ->.
    { unfold slash_path. by rewrite <- map_rev. }
    eexists. split; [done|]. split_and!.
    + intros k p. destruct (decide (sid = k)) as [<-|Hne].
      * rewrite lookup_insert_eq. intros [= <-]. by exists s, chain.
      * rewrite lookup_insert_ne by done. apply Hsound.
    + by apply insert_subseteq.
    + by rewrite lookup_insert_eq.
Qed.

Lemma lookup_loop_ended suites : ∀ cache,
  (∀ x, x ∈ suites → ∃ s chain,
      m !! s_id x = Some s ∧ ended m s chain ∧ (length chain ≤ fuel)%nat) →
  cache_ended m cache →
  ∃ cache', for_each body suites tt cache = (Ret tt, cache') ∧
            cache_ended m cache' ∧ cache ⊆ cache' ∧
            ∀ x, x ∈ suites → is_Some (cache' !! s_id x).
Proof.
  induction suites as [|x suites IH]; intros cache Hall Hsound; cbn.
  - exists cache. split_and!; try done. intros x Hx. by apply elem_of_nil in Hx.
  - destruct (Hall x) as (s & chain & Hs & Hend & Hlen); [by left|].
    destruct (path_for_ended _ _ _ cache Hs Hend Hlen Hsound)
      as (cache1 & Hrun & Hsound1 & Hsub1 & Hx).
    destruct (IH cache1) as (cache2 & Hloop & Hsound2 & Hsub2 & Hrest);
      [intros y Hy; apply Hall; by right|done|].
    exists cache2. unfold bind at 1 2. rewrite Hrun. cbn. split_and!; try done.
    + by etrans.
    + intros y [->|Hy]%elem_of_cons; [|by apply Hrest].
      exists (slash_path chain). by eapply lookup_weaken.
Qed.
End PathLookup.

Lemma grounded_bound suites :
  grounded suites →
  ∃ n, ∀ x, x ∈ suites → ∃ s chain,
    by_id suites !! s_id x = Some s ∧ ancestry (by_id suites) s chain ∧
    (length chain ≤ n)%nat.
Proof.
  intros Hacyc.
  assert (∀ l : list Suite, (∀ x, x ∈ l → x ∈ suites) →
    ∃ n, ∀ x, x ∈ l → ∃ s chain,
      by_id suites !! s_id x = Some s ∧ ancestry (by_id suites) s chain ∧
      (length chain ≤ n)%nat) as Hgen.
  { induction l as [|y l IH]; intros Hsub.
    - exists 0%nat. intros x Hx. by apply elem_of_nil in Hx.
    - destruct IH as [n Hn]; [intros x Hx; apply Hsub; by right|].
      destruct (by_id_elem suites y) as [s Hs]; [apply Hsub; by left|].
      destruct (Hacyc _ _ Hs) as [chain Hchain].
      exists (n `max` length chain)%nat.
      intros x [->|Hx]%elem_of_cons.
      + exists s, chain. split_and!; try done. lia.
      + destruct (Hn x Hx) as (s' & chain' & ? & ? & ?).
        exists s', chain'. split_and!; try done. lia. }
  by apply Hgen.
Qed.

(** From a record that is revisited both hierarchy computations are still
    in their loops after any number of turns. *)
Lemma cyclic_walks_run_forever suites sid s :
  by_id suites !! sid = Some s → revisits (by_id suites) s →
  ∀ fuel, top_ancestor (by_id suites) fuel sid = OutOfFuel ∧
          build_suite_path_lookup fuel suites = OutOfFuel.
Proof.
  intros Hs Hrev fuel.
  pose proof (revisits_unbounded _ _ Hrev) as Hunb. split.
  - unfold top_ancestor. rewrite Hs. by apply climb_unbounded.
  - unfold build_suite_path_lookup.
    destruct (by_id_lookup _ _ _ Hs) as [Hin Hid].
    destruct (lookup_loop_unbounded (by_id suites) fuel suites ∅ s s) as [cache' ->];
      try done.
    + intros y Hy. by apply by_id_elem.
    + by rewrite Hid.
    + intros k s' [q Hq]. by rewrite lookup_empty in Hq.
Qed.

(** C2 (as amended).  No cycle check exists.  When the parent walk from a
    suite comes back to a record it has already visited, the loop of
    [top_ancestor] on that suite is still running after any number of turns;
    the loop of [path_for] has, after [n] turns, a record in [cur] and [n]
    names in [parts], one more at every turn; and [build_suite_path_lookup]
    on the suite list returns no dictionary. *)
Theorem cyclic_walks_never_end suites sid s :
  by_id suites !! sid = Some s → revisits (by_id suites) s →
  (∀ fuel, top_ancestor (by_id suites) fuel sid = OutOfFuel) ∧
  (∀ n, ∃ cur parts,
     path_walk (by_id suites) n (Some s) [] = (Some cur, parts) ∧ length parts = n) ∧
  (∀ fuel cache, build_suite_path_lookup fuel suites ≠ Ret cache).
Proof.
  intros Hs Hrev. split_and!.
  - intros fuel. by destruct (cyclic_walks_run_forever _ _ _ Hs Hrev fuel).
  - intros n.
    destruct (path_walk_unbounded (by_id suites) n s [] (revisits_unbounded _ _ Hrev))
      as (cur & parts & Hwalk & Hlen).
    by exists cur, parts.
  - intros fuel cache.
    destruct (cyclic_walks_run_forever _ _ _ Hs Hrev fuel) as [_ ->]. done.
Qed.

(** Along a walk that starts at a record stored under its own id, every
    record is stored under its own id. *)
Lemma nth_parent_keyed suites n : ∀ s c,
  by_id suites !! s_id s = Some s →
  nth_parent (by_id suites) n s = Some c →
  by_id suites !! s_id c = Some c.
Proof.
  induction n as [|n IH]; intros s c Hs; cbn.
  - by intros [= <-].
  - destruct (s_parentId s) as [pid|]; [|done].
    destruct (by_id suites !! pid) as [next|] eqn:Hp; [|done]. cbn.
    apply IH. destruct (by_id_lookup _ _ _ Hp) as [_ ->]. done.
Qed.

(** After [k] steps a walk has ended, or has come back to a record, or has
    visited [k + 1] records with pairwise distinct ids. *)
Lemma walk_trichotomy suites s k :
  by_id suites !! s_id s = Some s →
  (∃ j, nth_parent (by_id suites) j s = None) ∨
  revisits (by_id suites) s ∨
  (∃ cs, length cs = S k ∧
         (∀ i c, cs !! i = Some c → nth_parent (by_id suites) i s = Some c) ∧
         NoDup (s_id <$> cs)).
Proof.
  intros Hs. induction k as [|k [Hend|[Hrev|(cs & Hlen & Hcs & Hnd)]]];
    [|by left|by right; left|].
  - right; right. exists [s]. split_and!; [done| |apply NoDup_singleton].
    intros [|i] c; [by intros [= <-]|done].
  - destruct (nth_parent (by_id suites) (S k) s) as [c|] eqn:Hc; [|left; by exists (S k)].
    right. destruct (decide (s_id c ∈ s_id <$> cs)) as [Hin|Hnotin].
    + left. apply list_elem_of_fmap in Hin as (c' & Hid & Hin).
      apply list_elem_of_lookup in Hin as [i Hi].
      pose proof (lookup_lt_Some _ _ _ Hi) as Hlt.
      pose proof (Hcs _ _ Hi) as Hi'.
      assert (c' = c) as ->.
      { pose proof (nth_parent_keyed _ _ _ _ Hs Hi') as H1.
        pose proof (nth_parent_keyed _ _ _ _ Hs Hc) as H2. congruence. }
      exists i, (k - i)%nat, c. split; [done|].
      replace (S k) with (i + S (k - i))%nat in Hc by lia.
      by rewrite nth_parent_add, Hi' in Hc.
    + right. exists (cs ++ [c])%list. split_and!.
      * rewrite length_app. cbn. lia.
      * intros i c' [[_ Hi]|[-> <-]]%lookup_snoc_Some; [by apply Hcs|].
        by rewrite Hlen.
      * rewrite fmap_app. apply NoDup_app. split_and!; [done| |apply NoDup_singleton].
        intros x Hx [->|Hx']%elem_of_cons; [done|]. by apply elem_of_nil in Hx'.
Qed.

(** A walk that never comes back to a record ends: it cannot visit more
    records than the snapshot has ids. *)
Lemma walk_ends suites s :
  by_id suites !! s_id s = Some s → ¬ revisits (by_id suites) s →
  ∃ j, nth_parent (by_id suites) j s = None.
Proof.
  intros Hs Hnorev.
  destruct (walk_trichotomy suites s (size (by_id suites)) Hs)
    as [Hend|[Hrev|(cs & Hlen & Hcs & Hnd)]]; [done..|]. exfalso.
  assert (list_to_set (s_id <$> cs) ⊆ dom (by_id suites)) as Hsub.
  { intros x [c [-> Hc]]%elem_of_list_to_set%list_elem_of_fmap.
    apply list_elem_of_lookup in Hc as [i Hi]. apply elem_of_dom.
    exists c. eapply nth_parent_keyed; [done|]. by apply Hcs. }
  apply subseteq_size in Hsub.
  rewrite size_list_to_set, length_fmap, Hlen, size_dom in Hsub by done. lia.
Qed.

Lemma ended_walk_ancestry suites :
  closed suites →
  ∀ j s, s ∈ suites → nth_parent (by_id suites) j s = None →
         ∃ chain, ancestry (by_id suites) s chain.
Proof.
  intros Hclosed. induction j as [|j IH]; intros s Hin; cbn; [done|].
  destruct (s_parentId s) as [pid|] eqn:Hpar; [|intros _; exists [s]; by constructor].
  destruct (Hclosed _ _ Hin Hpar) as [next Hnext]. rewrite Hnext. cbn. intros Hj.
  destruct (IH next) as [chain Hchain]; [by apply by_id_lookup in Hnext as [? _]|done|].
  exists (s :: chain). by eapply ancestry_step.
Qed.

(** In a closed snapshot without cycles every parent walk ends at a record
    with no parent. *)
Lemma closed_acyclic_grounded suites :
  closed suites → acyclic suites → grounded suites.
Proof.
  intros Hclosed Hacyc sid s Hs.
  destruct (by_id_lookup _ _ _ Hs) as [Hin Hid].
  destruct (walk_ends suites s) as [j Hj]; [by rewrite Hid|by eapply Hacyc|].
  by eapply ended_walk_ancestry.
Qed.

Lemma acyclic_bound suites :
  acyclic suites →
  ∃ n, ∀ x, x ∈ suites → ∃ s chain,
    by_id suites !! s_id x = Some s ∧ ended (by_id suites) s chain ∧
    (length chain ≤ n)%nat.
Proof.
  intros Hacyc.
  assert (∀ l : list Suite, (∀ x, x ∈ l → x ∈ suites) →
    ∃ n, ∀ x, x ∈ l → ∃ s chain,
      by_id suites !! s_id x = Some s ∧ ended (by_id suites) s chain ∧
      (length chain ≤ n)%nat) as Hgen.
  { induction l as [|y l IH]; intros Hsub.
    - exists 0%nat. intros x Hx. by apply elem_of_nil in Hx.
    - destruct IH as [n Hn]; [intros x Hx; apply Hsub; by right|].
      destruct (by_id_elem suites y) as [s Hs]; [apply Hsub; by left|].
      destruct (by_id_lookup _ _ _ Hs) as [_ Hid].
      destruct (walk_ends suites s) as [j Hj]; [by rewrite Hid|by eapply Hacyc|].
      destruct (ended_walk _ _ _ Hj) as (chain & Hend & Hlen).
      exists (n `max` j)%nat.
      intros x [->|Hx]%elem_of_cons.
      + exists s, chain. split_and!; try done. lia.
      + destruct (Hn x Hx) as (s' & chain' & ? & ? & ?).
        exists s', chain'. split_and!; try done. lia. }
  by apply Hgen.
Qed.

Lemma truncated_not_closed suites s chain missing :
  s ∈ suites → truncated (by_id suites) s chain missing → ¬ closed suites.
Proof.
  intros Hin Htr Hclosed. revert Hin.
  induction Htr as [s pid Hs Hp|s pid parent chain missing Hs Hp _ IH]; intros Hin.
  - destruct (Hclosed _ _ Hin Hs) as [x Hx]. congruence.
  - apply IH. by apply by_id_lookup in Hp as [? _].
Qed.

(** C8 (as amended).  In a snapshot in which no parent walk comes back to a
    record, the path lookup returns, given enough fuel, and for every suite
    one of two things holds.  Either its parent walk ends at a record
    without parent: then its path is the slash-joined names of that
    ancestry, root first, and [top_ancestor] returns the id of the root.  Or
    the walk breaks off at a parent id that no suite of the snapshot
    carries: then its path is the slash-joined names of the records reached,
    beginning at the last one reached, and [top_ancestor] raises [KeyError]
    for the missing id.  When every parent reference names a suite of the
    snapshot, the first holds of every suite. *)
Theorem acyclic_paths_and_roots suites :
  acyclic suites →
  ∃ n, ∀ fuel, (n ≤ fuel)%nat →
    ∃ cache, build_suite_path_lookup fuel suites = Ret cache ∧
      (∀ sid s, by_id suites !! sid = Some s →
         (∃ chain root,
            ancestry (by_id suites) s chain ∧
            last chain = Some root ∧ s_parentId root = None ∧
            cache !! sid = Some (slash_path chain) ∧
            top_ancestor (by_id suites) fuel sid = Ret (s_id root)) ∨
         (∃ chain missing,
            truncated (by_id suites) s chain missing ∧
            cache !! sid = Some (slash_path chain) ∧
            top_ancestor (by_id suites) fuel sid = Raise (KeyError missing))) ∧
      (closed suites →
       ∀ sid s, by_id suites !! sid = Some s →
         ∃ chain root,
           ancestry (by_id suites) s chain ∧
           last chain = Some root ∧ s_parentId root = None ∧
           cache !! sid = Some (slash_path chain) ∧
           top_ancestor (by_id suites) fuel sid = Ret (s_id root)).
Proof.
  intros Hacyc. destruct (acyclic_bound _ Hacyc) as [n Hn].
  exists n. intros fuel Hfuel.
  destruct (lookup_loop_ended (by_id suites) fuel suites ∅)
    as (cache & Hloop & Hsound & _ & Hkeys).
  { intros x Hx. destruct (Hn x Hx) as (s & chain & ? & ? & ?).
    exists s, chain. split_and!; try done. lia. }
  { intros k p Hk. by rewrite lookup_empty in Hk. }
  exists cache. split; [unfold build_suite_path_lookup; by rewrite Hloop|].
  assert (∀ sid s, by_id suites !! sid = Some s →
    (∃ chain root,
       ancestry (by_id suites) s chain ∧
       last chain = Some root ∧ s_parentId root = None ∧
       cache !! sid = Some (slash_path chain) ∧
       top_ancestor (by_id suites) fuel sid = Ret (s_id root)) ∨
    (∃ chain missing,
       truncated (by_id suites) s chain missing ∧
       cache !! sid = Some (slash_path chain) ∧
       top_ancestor (by_id suites) fuel sid = Raise (KeyError missing))) as Hcases.
  { intros sid s Hs. destruct (by_id_lookup _ _ _ Hs) as [Hin Hid].
    destruct (Hn s Hin) as (s' & chain & Hs' & Hend & Hlen).
    rewrite Hid, Hs in Hs'. injection Hs' as <-.
    assert (cache !! sid = Some (slash_path chain)) as Hpath.
    { destruct (Hkeys s Hin) as [p Hp]. rewrite Hid in Hp.
      destruct (Hsound _ _ Hp) as (s2 & chain2 & Hs2 & Hend2 & ->).
      assert (s2 = s) as -> by congruence.
      by rewrite (ended_det _ _ _ _ Hend2 Hend) in Hp. }
    destruct Hend as [Hanc|[missing Htr]].
    - left.
      destruct (climb_ancestry _ _ _ Hanc fuel ltac:(lia))
        as (root & Hlast & Hroot & Hclimb).
      exists chain, root. split_and!; try done. unfold top_ancestor. by rewrite Hs.
    - right. exists chain, missing. split_and!; try done.
      unfold top_ancestor. rewrite Hs. eapply climb_truncated; [done|lia]. }
  split; [done|]. intros Hclosed sid s Hs.
  destruct (Hcases sid s Hs) as [H|(chain & missing & Htr & _)]; [done|].
  exfalso. eapply truncated_not_closed; [|done..].
  by apply by_id_lookup in Hs as [? _].
Qed.

(** * Facts about plan resolution *)

Lemma append_String (c : ascii) (s t : string) :
  String c s +:+ t = String c (s +:+ t).
Proof. reflexivity. Qed.

Lemma append_empty (t : string) : "" +:+ t = t.
Proof. reflexivity. Qed.

Lemma prefix_spec (s1 : string) : ∀ s2,
  String.prefix s1 s2 = true ↔ ∃ post, s2 = s1 +:+ post.
Proof.
  induction s1 as [|a s1 IH]; intros [|b s2]; cbn.
  - split; [intros _; by exists ""|done].
  - split; [intros _; by eexists|done].
  - split; [done|]. intros [post Hp]. rewrite append_String in Hp. discriminate.
  - destruct (ascii_dec a b) as [->|Hne].
    + rewrite IH. split; intros [post Hp]; exists post;
        rewrite append_String in *; congruence.
    + split; [done|]. intros [post Hp]. rewrite append_String in Hp. congruence.
Qed.

(** [is_substring] finds exactly the occurrences of [needle] inside [hay]. *)
Lemma is_substring_spec (needle hay : string) :
  is_substring needle hay = true ↔ ∃ pre post, hay = pre +:+ needle +:+ post.
Proof.
  induction hay as [|c hay IH].
  - change (is_substring needle "") with (String.prefix needle "" || false).
    rewrite orb_true_iff, prefix_spec. split.
    + intros [[post Hp]|?]; [|done]. by exists "", post.
    + intros (pre & post & Hp). left. exists post.
      destruct pre; [done|]. rewrite append_String in Hp. discriminate.
  - change (is_substring needle (String c hay))
      with (String.prefix needle (String c hay) || is_substring needle hay).
    rewrite orb_true_iff, prefix_spec, IH. split.
    + intros [[post Hp]|(pre & post & Hp)].
      * by exists "", post.
      * exists (String c pre), post. rewrite append_String. by rewrite Hp.
    + intros (pre & post & Hp). destruct pre as [|c' pre].
      * left. by exists post.
      * right. exists pre, post. rewrite append_String in Hp. congruence.
Qed.

Lemma filter_first {A} (P : A → Prop) `{!∀ x, Decision (P x)} (pre : list A) p post :
  Forall (λ q, ¬ P q) pre → P p →
  filter P (pre ++ p :: post)%list = p :: filter P post.
Proof.
  intros Hpre Hp. induction Hpre as [|q pre Hq _ IH]; cbn [app].
  - by rewrite filter_cons_True.
  - by rewrite filter_cons_False.
Qed.

Lemma filter_none {A} (P : A → Prop) `{!∀ x, Decision (P x)} (l : list A) :
  Forall (λ q, ¬ P q) l → filter P l = [].
Proof.
  induction 1 as [|q l Hq _ IH]; [done|]. by rewrite filter_cons_False.
Qed.

Section PlanFacts.
Context {St : Type} (svc : Service St) (cfg : Config).
Variables lower strip : string → string.

Local Abbreviation resolve := (resolve_plan_id_by_name svc cfg lower strip).

(** C9.  The wanted name and the plan names are compared after [lower]
    (and [strip]).  The plan resolved is the first one whose name equals the
    wanted name, whatever substring matches come before it in the list; if
    no name is equal, it is the first plan whose name contains the wanted
    name; if there is none either, the resolution ends in [SystemExit] with
    the not-found message. *)
Theorem plan_resolution_exact_then_substring plan_name st r st' :
  get_plans svc (urlp cfg "/_apis/testplan/plans")
            {[ "api-version" := TESTPLAN_API_VER ]} st = (r, st') →
  status_code r < 400 →
  let plans := default [] (r_json r !! "value") in
  let wanted := strip (lower plan_name) in
  let exact p := strip (lower (name_of p)) = wanted in
  let partial p := Is_true (is_substring wanted (lower (name_of p))) in
  let answer p := match pl_name p with
                  | Some _ => Ret (pretty (pl_id p))
                  | None => Raise (KeyError "name")
                  end in
  (∀ p, lower (name_of p) = lower plan_name → exact p) ∧
  (∀ pre p post,
      plans = (pre ++ p :: post)%list → Forall (λ q, ¬ exact q) pre → exact p →
      resolve plan_name st = (answer p, st')) ∧
  (∀ pre p post,
      plans = (pre ++ p :: post)%list → Forall (λ q, ¬ exact q) plans →
      Forall (λ q, ¬ partial q) pre → partial p →
      resolve plan_name st = (answer p, st')) ∧
  (Forall (λ q, ¬ exact q) plans → Forall (λ q, ¬ partial q) plans →
      resolve plan_name st
      = (Raise (SystemExit ("Plan '" +:+ plan_name +:+ "' not found")), st')).
Proof.
  intros Hget Hok plans wanted exact partial answer.
  assert (∀ k : gmap string (list Plan) → M St string,
    bind (get_json (get_plans svc) (urlp cfg "/_apis/testplan/plans")
            (Some {[ "api-version" := TESTPLAN_API_VER ]})) k st
    = k (r_json r) st') as Hfetch.
  { intros k. unfold bind, get_json. cbn [from_option id]. rewrite Hget.
    replace (status_code r >=? 400) with false; [done|].
    symmetry. rewrite Z.geb_leb. apply Z.leb_gt. lia. }
  split_and!.
  - intros p Hp. unfold exact, wanted. by rewrite Hp.
  - intros pre p post Hplans Hpre Hp.
    unfold resolve_plan_id_by_name. rewrite Hfetch.
    fold plans. fold wanted. rewrite Hplans.
    rewrite (filter_first (λ p, strip (lower (name_of p)) = wanted)) by done.
    unfold bind, ret, raise, answer. by destruct (pl_name p).
  - intros pre p post Hplans Hnone Hpre Hp.
    unfold resolve_plan_id_by_name. rewrite Hfetch.
    fold plans. fold wanted.
    rewrite (filter_none (λ p, strip (lower (name_of p)) = wanted)) by done.
    rewrite Hplans.
    rewrite (filter_first (λ p, is_substring wanted (lower (name_of p)))) by done.
    unfold bind, ret, raise, answer. by destruct (pl_name p).
  - intros Hnone Hnone'.
    unfold resolve_plan_id_by_name. rewrite Hfetch.
    fold plans. fold wanted.
    rewrite (filter_none (λ p, strip (lower (name_of p)) = wanted)) by done.
    by rewrite (filter_none (λ p, is_substring wanted (lower (name_of p)))) by done.
Qed.
End PlanFacts.

(** * Facts about the orchestration *)

Lemma bind_Ret_inv {S A B} (m : M S A) (k : A → M S B) st b st' :
  bind m k st = (Ret b, st') →
  ∃ a st1, m st = (Ret a, st1) ∧ k a st1 = (Ret b, st').
Proof.
  unfold bind. destruct (m st) as [[a|e|] st1]; try done. intros H. by exists a, st1.
Qed.

Lemma for_each_invariant {S A B} (P : B → Prop) (body : B → A → M S B) :
  (∀ acc x st acc' st', P acc → body acc x st = (Ret acc', st') → P acc') →
  ∀ xs acc st acc' st',
    P acc → for_each body xs acc st = (Ret acc', st') → P acc'.
Proof.
  intros Hbody. induction xs as [|x xs IH]; intros acc st acc' st' Hacc; cbn.
  - by intros [= <- <-].
  - intros (acc1 & st1 & H1 & H2)%bind_Ret_inv. eapply IH; [|done]. by eapply Hbody.
Qed.

Lemma touch_settled tcname outcome path_str found :
  (∀ b, found = Some b → settled (b_outcome b)) →
  settled (b_outcome (touch tcname outcome path_str found)).
Proof.
  intros Hfound. cbn. apply worse_settled.
  destruct found as [b|]; cbn; [by apply Hfound|by left].
Qed.

Lemma upsert_settled tcid tcname outcome path_str buckets :
  Forall (λ e, settled (b_outcome e.2)) buckets →
  Forall (λ e, settled (b_outcome e.2))
         (upsert tcid (touch tcname outcome path_str) buckets).
Proof.
  induction 1 as [|[k v] buckets Hv Hrest IH]; cbn.
  - constructor; [|done]. by apply touch_settled.
  - destruct (decide (k = tcid)); (constructor; [|done]); [|done].
    apply touch_settled. by intros b [= <-].
Qed.

Section MainFacts.
Context {St : Type} (svc : Service St) (cfg : Config).
Variables lower strip : string → string.

Lemma merge_point_settled tid path_str agg p (st : St) agg' st' :
  agg_settled agg →
  merge_point tid path_str agg p st = (Ret agg', st') → agg_settled agg'.
Proof.
  intros Hagg. unfold merge_point.
  destruct (tc_id _) as [[|tcid|tcid]|]; try (by intros [= <- <-]);
    (destruct (agg !! tid) as [buckets|] eqn:Htid; [|done]);
    intros [= <- <-]; intros k bs; (destruct (decide (tid = k)) as [<-|Hne];
      [rewrite lookup_insert_eq; intros [= <-]; apply upsert_settled; by eapply Hagg
      |rewrite lookup_insert_ne by done; apply Hagg]).
Qed.

Lemma merge_suite_settled fuel plan_id m suite_path agg s st agg' st' :
  agg_settled agg →
  merge_suite svc cfg fuel plan_id m suite_path agg s st = (Ret agg', st') →
  agg_settled agg'.
Proof.
  intros Hagg. unfold merge_suite.
  intros (pts & st1 & _ & Hrest)%bind_Ret_inv.
  destruct pts as [|p pts]; [by injection Hrest as <- <-|].
  apply bind_Ret_inv in Hrest as (tid & st2 & _ & Hrest).
  apply bind_Ret_inv in Hrest as (tname & st3 & _ & Hrest).
  revert Hrest. apply for_each_invariant; [|done].
  intros acc x sta acc' sta' Hacc. by apply merge_point_settled.
Qed.

Lemma empty_agg_settled (top_level : list Suite) :
  agg_settled (foldl (λ m s, <[s_id s := []]> m) ∅ top_level).
Proof.
  assert (∀ m0, agg_settled m0 →
    agg_settled (foldl (λ m s, <[s_id s := []]> m) m0 top_level)) as Hgen.
  { induction top_level as [|t top_level IH]; intros m0 Hm0; cbn; [done|].
    apply IH. intros k bs. destruct (decide (s_id t = k)) as [<-|Hne].
    - rewrite lookup_insert_eq. by intros [= <-].
    - rewrite lookup_insert_ne by done. apply Hm0. }
  apply Hgen. intros k bs. by rewrite lookup_empty.
Qed.

Lemma row_of_outcome top buckets :
  Forall (λ e, settled (b_outcome e.2)) buckets →
  Forall (λ row, Outcome row ∈ "NeverRun" :: recognized) (row_of top <$> buckets).
Proof.
  induction 1 as [|[k v] buckets Hv _ IH]; cbn; constructor; [|done].
  by apply emitted_outcome_settled.
Qed.

(** C10.  The [Outcome] column only ever holds one of the six statuses of
    the table or [NeverRun]: a value outside the six statuses ties with the
    unset accumulator and is dropped by [worse]; whatever sequence of raw
    outcomes is merged into a bucket, the column shows a status or
    [NeverRun]; and so does every row of every table [main] produces. *)
Theorem emitted_outcome_is_a_status :
  (∀ u, (∀ s, s ∈ recognized → u ≠ Some s) → worse None u = None) ∧
  (∀ outcomes, emitted_outcome (reconcile outcomes) ∈ "NeverRun" :: recognized) ∧
  (∀ fuel st tables st',
      main svc cfg lower strip fuel st = (Ret tables, st') →
      ∀ top rows row, (top, rows) ∈ tables → row ∈ rows →
        Outcome row ∈ "NeverRun" :: recognized).
Proof.
  split_and!; [|apply emitted_outcome_reconcile|].
  { intros u Hu. destruct (worse_cases None u) as [[_ ->]|[Hlt _]]; [done|].
    destruct (precedence_cases u)
      as [[-> _]|[[-> _]|[[-> _]|[[-> _]|[[-> _]|[[-> _]|[_ E]]]]]]];
      try (exfalso; (eapply Hu; [|reflexivity]); in_list).
    rewrite E in Hlt. done. }
  intros fuel st tables st'. unfold main.
  intros (plan_id & st1 & _ & H)%bind_Ret_inv.
  apply bind_Ret_inv in H as (suites & st2 & _ & H).
  apply bind_Ret_inv in H as (suite_path & st3 & _ & H).
  apply bind_Ret_inv in H as (latest_by_point & st4 & _ & H).
  apply bind_Ret_inv in H as (agg & st5 & Hagg & H).
  assert (agg_settled agg) as Hsettled.
  { revert Hagg. apply for_each_invariant; [|apply empty_agg_settled].
    intros acc x sta acc' sta' Hacc. by apply merge_suite_settled. }
  assert (Forall (λ t, Forall (λ row, Outcome row ∈ "NeverRun" :: recognized) t.2)
                 tables) as Htables.
  { revert H. apply for_each_invariant; [|constructor].
    intros acc top sta acc' sta' Hacc.
    destruct (agg !! s_id top) as [buckets|] eqn:Htop; [|done].
    intros [= <- <-]. apply Forall_app. split; [done|].
    constructor; [|done]. cbn. apply row_of_outcome. by eapply Hsettled. }
  intros top rows row Htop Hrow.
  rewrite Forall_forall in Htables. specialize (Htables _ Htop). cbn in Htables.
  rewrite Forall_forall in Htables. by apply Htables.
Qed.
End MainFacts.

(** * The theorems at work on the sample data *)

(** What the sample resource does under each version. *)
Lemma paged_resource_A_fails :
  ∃ status body,
    version_fails paged_resource "u" None 0%nat "A" None status body 2%nat ∧
    "500 boom" = pretty status +:+ " " +:+ body.
Proof.
  apply (pages_loop_sound paged_resource "u" None "value" 5 "A" None [] 0%nat
           (inl "500 boom") 2%nat).
  vm_compute. reflexivity.
Qed.

Lemma paged_resource_B_pages :
  ∃ chunks,
    pages paged_resource "u" None "value" 2%nat "B" None chunks 4%nat ∧
    [10; 11; 12] = ([] ++ concat chunks)%list.
Proof.
  apply (pages_loop_sound paged_resource "u" None "value" 5 "B" None [] 2%nat
           (inr [10; 11; 12]) 4%nat).
  vm_compute. reflexivity.
Qed.


(** The resource errors on version [A] after a first page and delivers two
    pages on version [B]: the fetch returns the three items of [B] and
    neither of the two items already read under [A]. *)
Lemma paginated_fetch_single_version_witness :
  ∃ n, ∀ fuel, (n ≤ fuel)%nat →
    get_json_paginated_fallback paged_resource "u" None "value" fuel ["A"; "B"] 0%nat
    = (Ret [10; 11; 12], 4%nat).
Proof.
  destruct paged_resource_A_fails as (status & body & HA & _).
  destruct paged_resource_B_pages as (chunks & HB & Hitems).
  destruct (proj1 (paginated_fetch_single_version paged_resource "u" None "value"
                     ["A"; "B"] 0%nat)
              ["A"] "B" [] (pretty status +:+ " " +:+ body) 2%nat chunks 4%nat
              eq_refl
              (all_fail_one _ _ _ _ _ _ _ _ _ HA)
              HB) as [n Hn].
  exists n. intros fuel Hfuel. rewrite (Hn fuel Hfuel). by rewrite Hitems.
Defined.

(** Orders of the same five observations. *)
Lemma reconcile_permutation_witness :
  reconcile [Some "Passed"; None; Some "Inconclusive"; Some "Failed"; Some ""]
  = reconcile [Some ""; Some "Failed"; Some "Inconclusive"; None; Some "Passed"] ∧
  emitted_outcome
    (reconcile [Some "Passed"; None; Some "Inconclusive"; Some "Failed"; Some ""])
  = emitted_outcome
      (reconcile [Some ""; Some "Failed"; Some "Inconclusive"; None; Some "Passed"]).
Proof.
  apply (reconcile_permutation
           [Some "Passed"; None; Some "Inconclusive"; Some "Failed"; Some ""]
           [Some ""; Some "Failed"; Some "Inconclusive"; None; Some "Passed"]).
  symmetry.
  exact (reverse_Permutation
           [Some "Passed"; None; Some "Inconclusive"; Some "Failed"; Some ""]).
Defined.

(** A failure beats a pass, and a pass beats an unknown status, whichever
    comes first. *)
Lemma worse_returns_higher_precedence_witness :
  worse (Some "Passed") (Some "Failed") = Some "Failed" ∧
  worse (Some "Inconclusive") (Some "Passed") = Some "Passed" ∧
  worse (Some "Passed") (Some "Inconclusive") = Some "Passed".
Proof.
  destruct (worse_returns_higher_precedence (Some "Passed") (Some "Failed"))
    as (_ & _ & _ & Hlt & _ & _ & _ & _ & _ & _ & _ & Hrec).
  split; [apply Hlt; vm_compute; reflexivity|].
  destruct (Hrec "Passed" (Some "Inconclusive")) as [H1 H2].
  - unfold recognized. repeat (apply elem_of_cons; first [left; reflexivity | right]).
  - intros s Hs. unfold recognized in Hs.
    repeat (apply elem_of_cons in Hs as [->|Hs]; [discriminate|]).
    by apply elem_of_nil in Hs.
  - by split.
Defined.

(** The two suites that are each other's parent. *)
Lemma mutual_suites_revisit :
  revisits (by_id mutual_suites)
           {| s_id := "1"; s_name := "a"; s_parentId := Some "2" |}.
Proof. exists 0%nat, 1%nat, {| s_id := "1"; s_name := "a"; s_parentId := Some "2" |}. done. Qed.

(** On the mutual-parent cycle the root-ancestor walk never leaves its loop,
    the path walk has collected [n] names after [n] turns, and the lookup
    returns nothing. *)
Lemma cyclic_walks_never_end_witness :
  (∀ fuel, top_ancestor (by_id mutual_suites) fuel "1" = OutOfFuel) ∧
  (∀ n, ∃ cur parts,
     path_walk (by_id mutual_suites) n
       (Some {| s_id := "1"; s_name := "a"; s_parentId := Some "2" |}) []
     = (Some cur, parts) ∧ length parts = n) ∧
  (∀ fuel cache, build_suite_path_lookup fuel mutual_suites ≠ Ret cache).
Proof.
  apply (cyclic_walks_never_end mutual_suites "1"
           {| s_id := "1"; s_name := "a"; s_parentId := Some "2" |}).
  - vm_compute. reflexivity.
  - exact mutual_suites_revisit.
Defined.

(** Counterexample to C2 as stated: given the two-node mutual-parent cycle,
    no cycle error is raised when a walk comes back to a suite.  The
    root-ancestor walk from suite [1] is still in its loop after any number
    of turns.  The path walk from suite [1] is back at suite [1] after two
    turns and goes on: after five turns it holds five names and is at suite
    [2]; and the lookup returns no dictionary, however long it runs. *)
Lemma mutual_cycle_is_not_detected :
  (∀ fuel, top_ancestor (by_id mutual_suites) fuel "1" = OutOfFuel) ∧
  path_walk (by_id mutual_suites) 2
    (Some {| s_id := "1"; s_name := "a"; s_parentId := Some "2" |}) []
  = (Some {| s_id := "1"; s_name := "a"; s_parentId := Some "2" |}, ["a"; "b"]) ∧
  path_walk (by_id mutual_suites) 5
    (Some {| s_id := "1"; s_name := "a"; s_parentId := Some "2" |}) []
  = (Some {| s_id := "2"; s_name := "b"; s_parentId := Some "1" |},
     ["a"; "b"; "a"; "b"; "a"]) ∧
  (∀ fuel cache, build_suite_path_lookup fuel mutual_suites ≠ Ret cache).
Proof.
  assert (∀ fuel, top_ancestor (by_id mutual_suites) fuel "1" = OutOfFuel ∧
                  build_suite_path_lookup fuel mutual_suites = OutOfFuel) as H.
  { apply (cyclic_walks_run_forever mutual_suites "1"
             {| s_id := "1"; s_name := "a"; s_parentId := Some "2" |});
      [done|exact mutual_suites_revisit]. }
  split_and!.
  - intros fuel. by destruct (H fuel).
  - vm_compute. reflexivity.
  - vm_compute. reflexivity.
  - intros fuel cache. destruct (H fuel) as [_ ->]. done.
Qed.

(** The ancestry of each suite of the three-level chain. *)
Lemma chain_suites_ancestry :
  let root := {| s_id := "1"; s_name := "root"; s_parentId := None |} in
  let mid := {| s_id := "2"; s_name := "mid"; s_parentId := Some "1" |} in
  let leaf := {| s_id := "3"; s_name := "leaf"; s_parentId := Some "2" |} in
  ancestry (by_id chain_suites) root [root] ∧
  ancestry (by_id chain_suites) mid [mid; root] ∧
  ancestry (by_id chain_suites) leaf [leaf; mid; root].
Proof.
  intros root mid leaf.
  assert (ancestry (by_id chain_suites) root [root]) as Hroot by (by constructor).
  assert (ancestry (by_id chain_suites) mid [mid; root]) as Hmid
    by (by eapply ancestry_step).
  split_and!; [done..|]. by eapply ancestry_step.
Qed.

Lemma chain_suites_grounded : grounded chain_suites.
Proof.
  destruct chain_suites_ancestry as (Hroot & Hmid & Hleaf).
  intros sid s [Hin _]%by_id_lookup. unfold chain_suites in Hin.
  repeat (apply elem_of_cons in Hin as [->|Hin]; [by eexists|]).
  by apply elem_of_nil in Hin.
Qed.

Lemma chain_suites_closed : closed chain_suites.
Proof.
  intros s pid Hin. unfold chain_suites in Hin.
  repeat (apply elem_of_cons in Hin as [->|Hin]; [by intros [= <-]|]).
  by apply elem_of_nil in Hin.
Qed.

Lemma chain_suites_acyclic : acyclic chain_suites.
Proof.
  intros sid s Hs. destruct (chain_suites_grounded sid s Hs) as [chain Hchain].
  by eapply ancestry_not_revisits.
Qed.

(** For the chain root, mid, leaf the path of the leaf is ["root/mid/leaf"]
    and its root ancestor is the id of the root. *)
Lemma acyclic_paths_and_roots_witness :
  ∃ n, ∀ fuel, (n ≤ fuel)%nat →
    ∃ cache, build_suite_path_lookup fuel chain_suites = Ret cache ∧
             cache !! "3" = Some "root/mid/leaf" ∧
             top_ancestor (by_id chain_suites) fuel "3" = Ret "1".
Proof.
  destruct (acyclic_paths_and_roots chain_suites chain_suites_acyclic) as [n Hn].
  exists n. intros fuel Hfuel. destruct (Hn fuel Hfuel) as (cache & Hbuild & _ & Hall).
  exists cache. split; [exact Hbuild|].
  destruct (Hall chain_suites_closed
              "3" {| s_id := "3"; s_name := "leaf"; s_parentId := Some "2" |} eq_refl)
    as (chain & root & Hanc & Hlast & _ & Hpath & Htop).
  destruct chain_suites_ancestry as (_ & _ & Hleaf).
  rewrite (ancestry_det _ _ _ Hanc _ Hleaf) in Hlast, Hpath.
  injection Hlast as <-. by split.
Defined.

(** The snapshot whose grandchild names an unlisted parent has no cycle. *)
Lemma orphan_suites_acyclic : acyclic orphan_suites.
Proof.
  intros sid s [Hin _]%by_id_lookup Hrev. unfold orphan_suites in Hin.
  pose proof (revisits_unbounded _ _ Hrev 2) as [x Hx].
  repeat (apply elem_of_cons in Hin as [->|Hin]; [by vm_compute in Hx|]).
  by apply elem_of_nil in Hin.
Qed.

(** Counterexample to C8 as stated: the snapshot of the grandchild [7] and
    the child [6], whose parent [5] is not listed, is acyclic; the path
    lookup gives the grandchild the path ["child/grandchild"], which begins
    at the child and not at a root, no ancestry leads from the grandchild to
    a record without parent, and [top_ancestor] raises [KeyError]. *)
Lemma orphan_walks_reach_no_root :
  acyclic orphan_suites ∧
  build_suite_path_lookup 5 orphan_suites
  = Ret {[ "6" := "child"; "7" := "child/grandchild" ]} ∧
  top_ancestor (by_id orphan_suites) 5 "7" = Raise (KeyError "5") ∧
  ∀ chain,
    ¬ ancestry (by_id orphan_suites)
        {| s_id := "7"; s_name := "grandchild"; s_parentId := Some "6" |} chain.
Proof.
  split_and!; [exact orphan_suites_acyclic|vm_compute; reflexivity..|].
  intros chain Hanc.
  eapply (ancestry_not_truncated _ _ _ Hanc
            [ {| s_id := "7"; s_name := "grandchild"; s_parentId := Some "6" |};
              {| s_id := "6"; s_name := "child"; s_parentId := Some "5" |} ] "5").
  eapply truncated_step; [reflexivity|vm_compute; reflexivity|].
  apply truncated_here; [reflexivity|vm_compute; reflexivity].
Qed.

(** The wanted name [" Release Plan "] is contained in the name of plan [1]
    and equals, case and blanks apart, the name of plan [2], which comes
    later in the list: plan [2] is resolved. *)
Lemma plan_resolution_exact_then_substring_witness :
  resolve_plan_id_by_name (sample_service unrun_points) sample_cfg
    ascii_lower ascii_strip " Release Plan " 0%nat
  = (Ret "2", 1%nat).
Proof.
  refine (proj1 (proj2
    (plan_resolution_exact_then_substring (sample_service unrun_points) sample_cfg
       ascii_lower ascii_strip " Release Plan " 0%nat
       (response 200 "" (urlp sample_cfg "/_apis/testplan/plans")
                 {[ "value" := sample_plans ]} ∅)
       1%nat eq_refl _))
    [ {| pl_id := 1; pl_name := Some "Release Plan (archive)" |} ]
    {| pl_id := 2; pl_name := Some "release plan" |} [] eq_refl _ _).
  - vm_compute. reflexivity.
  - constructor; [|constructor]. vm_compute. discriminate.
  - vm_compute. reflexivity.
Defined.

(** C3.  The back-fill map is built and never read.  On the sample service
    where point [7] of test case [42] has no outcome of its own and the only
    run holds a failed result for point [7], the block records
    [7 ↦ Failed] in [latest_by_point], and the row of test case [42] still
    says [NeverRun]. *)
Theorem backfill_map_is_never_read :
  (∃ latest_by_point st,
      try_filling ∅ (backfill (sample_service unrun_points) sample_cfg 5 "2") 2%nat
      = (Ret latest_by_point, st) ∧
      latest_by_point !! 7
      = Some {| l_outcome := Some "Failed"; l_ts := Some "2024-01-02T00:00:00Z" |}) ∧
  fst (main (sample_service unrun_points) sample_cfg ascii_lower ascii_strip 5 0%nat)
  = Ret [ ({| s_id := "10"; s_name := "Top"; s_parentId := None |},
           [ {| TopSuiteId := "10"; TopSuiteName := "Top"; TestCaseId := 42;
                TestCaseName := Some "Login"; Outcome := "NeverRun";
                Paths := "Top/Child A"; NumPaths := 1 |} ]) ].
Proof.
  split.
  - eexists _, _. split; [reflexivity|]. vm_compute. reflexivity.
  - vm_compute. reflexivity.
Qed.

(** The tables of the sample service with mixed observations: test case [42],
    seen as passed under one suite and failed under another, is reported as
    failed; test case [43], seen with an unknown status, as never run. *)
Lemma emitted_outcome_is_a_status_witness :
  fst (main (sample_service mixed_points) sample_cfg ascii_lower ascii_strip 5 0%nat)
  = Ret [ ({| s_id := "10"; s_name := "Top"; s_parentId := None |},
           [ {| TopSuiteId := "10"; TopSuiteName := "Top"; TestCaseId := 42;
                TestCaseName := Some "Login"; Outcome := "Failed";
                Paths := "Top/Child A; Top/Child B"; NumPaths := 2 |};
             {| TopSuiteId := "10"; TopSuiteName := "Top"; TestCaseId := 43;
                TestCaseName := Some "Logout"; Outcome := "NeverRun";
                Paths := "Top/Child A"; NumPaths := 1 |} ]) ] ∧
  ∀ tables st',
    main (sample_service mixed_points) sample_cfg ascii_lower ascii_strip 5 0%nat
    = (Ret tables, st') →
    ∀ top rows row, (top, rows) ∈ tables → row ∈ rows →
      Outcome row ∈ "NeverRun" :: recognized.
Proof.
  split; [vm_compute; reflexivity|].
  intros tables st'.
  exact (proj2 (proj2 (emitted_outcome_is_a_status (sample_service mixed_points)
                         sample_cfg ascii_lower ascii_strip))
               5%nat 0%nat tables st').
Defined.

(** With the points endpoint down in every version, the [SystemExit] of the
    fetch ends [main]; with the runs endpoint down, the [try] block of the
    back-fill absorbs it and [main] produces the same tables as before. *)
Example main_and_failed_fetches :
  fst (main service_without_points sample_cfg ascii_lower ascii_strip 5 0%nat)
  = Raise (SystemExit ("All versions failed for "
                       +:+ "https://dev.azure.com/org/proj/_apis/test/points"
                       +:+ nl +:+ "503 unavailable")) ∧
  fst (main service_without_runs sample_cfg ascii_lower ascii_strip 5 0%nat)
  = fst (main (sample_service mixed_points) sample_cfg ascii_lower ascii_strip 5 0%nat).
Proof. split; vm_compute; reflexivity. Qed.

(** * Further facts about outcomes *)

Lemma foldl_worse_upper l : ∀ acc,
  precedence acc ≤ precedence (foldl worse acc l) ∧
  ∀ x, x ∈ l → precedence x ≤ precedence (foldl worse acc l).
Proof.
  induction l as [|y l IH]; intros acc; cbn.
  - split; [lia|]. intros x Hx. by apply elem_of_nil in Hx.
  - destruct (IH (worse acc y)) as [Hacc Hall].
    assert (precedence acc ≤ precedence (worse acc y) ∧
            precedence y ≤ precedence (worse acc y)) as [H1 H2].
    { destruct (worse_cases acc y) as [[? ->]|[? ->]]; lia. }
    split; [lia|]. intros x [->|Hx]%elem_of_cons; [lia|by apply Hall].
Qed.

Lemma foldl_worse_member l : ∀ acc,
  foldl worse acc l = acc ∨ foldl worse acc l ∈ l.
Proof.
  induction l as [|y l IH]; intros acc; cbn; [by left|].
  destruct (IH (worse acc y)) as [->|Hin].
  - destruct (worse_cases acc y) as [[_ ->]|[_ ->]]; [by left|right; by left].
  - right. by right.
Qed.

(** X1.  [worse] is associative and idempotent: it picks the leftmost
    argument of greatest precedence, however a chain of calls is
    bracketed. *)
Theorem worse_assoc_idem (a b c : option string) :
  worse (worse a b) c = worse a (worse b c) ∧ worse a a = a.
Proof.
  split.
  - destruct (worse_cases a b) as [[H1 E1]|[H1 E1]];
    destruct (worse_cases b c) as [[H2 E2]|[H2 E2]];
    repeat (rewrite E1 || rewrite E2).
    + destruct (worse_cases a c) as [[_ ->]|[? _]]; [done|lia].
    + done.
    + done.
    + destruct (worse_cases a c) as [[? _]|[_ ->]]; [lia|done].
  - destruct (worse_cases a a) as [[_ ->]|[? _]]; [done|lia].
Qed.

(** X2.  Merging observations into a bucket that already holds an outcome
    gives the same as merging their reconciliation into it, and reconciling
    two batches one after the other gives the same as combining their
    reconciliations with [worse]. *)
Theorem bucket_merge_regroups (acc : option string) (l1 l2 : list (option string)) :
  foldl worse acc l1 = worse acc (reconcile l1) ∧
  reconcile (l1 ++ l2) = worse (reconcile l1) (reconcile l2).
Proof.
  split; [apply foldl_worse_reconcile|].
  unfold reconcile at 1. rewrite foldl_app. apply foldl_worse_reconcile.
Qed.

(** X3.  The reconciled outcome is the worst one observed: no observation has
    a higher precedence than it, it is one of the observations unless it is
    still unset, and a single [Failed] among the observations makes the
    [Outcome] column say [Failed]. *)
Theorem reconcile_is_worst_observed (outcomes : list (option string)) :
  (∀ x, x ∈ outcomes → precedence x ≤ precedence (reconcile outcomes)) ∧
  (reconcile outcomes = None ∨ reconcile outcomes ∈ outcomes) ∧
  (Some "Failed" ∈ outcomes → emitted_outcome (reconcile outcomes) = "Failed").
Proof.
  split_and!.
  - apply foldl_worse_upper.
  - apply foldl_worse_member.
  - intros Hin. apply (proj2 (foldl_worse_upper outcomes None)) in Hin.
    fold (reconcile outcomes) in Hin. change (precedence (Some "Failed")) with 6 in Hin.
    destruct (precedence_cases (reconcile outcomes))
      as [[-> _]|[[_ E]|[[_ E]|[[_ E]|[[_ E]|[[_ E]|[_ E]]]]]]]; [done|lia..].
Qed.

(** * Further facts about the suite hierarchy *)

Lemma string_app_assoc (s1 s2 s3 : string) : s1 +:+ (s2 +:+ s3) = (s1 +:+ s2) +:+ s3.
Proof.
  induction s1 as [|c s1 IH]; [done|].
  rewrite !append_String. by rewrite IH.
Qed.

Lemma concat_snoc (sep x : string) (l : list string) :
  l ≠ [] → String.concat sep (l ++ [x]) = String.concat sep l +:+ sep +:+ x.
Proof.
  induction l as [|y [|z l] IH]; intros Hne; [done|done|].
  change (String.concat sep ((y :: z :: l) ++ [x]))
    with (y +:+ sep +:+ String.concat sep ((z :: l) ++ [x])).
  change (String.concat sep (y :: z :: l))
    with (y +:+ sep +:+ String.concat sep (z :: l)).
  rewrite IH by done. by rewrite !string_app_assoc.
Qed.

Lemma slash_path_cons s chain :
  chain ≠ [] → slash_path (s :: chain) = slash_path chain +:+ "/" +:+ s_name s.
Proof.
  intros Hne. unfold slash_path. cbn [rev]. rewrite fmap_app. cbn [fmap list_fmap].
  apply concat_snoc. intros Hnil. apply fmap_nil_inv in Hnil.
  apply (f_equal (@length Suite)) in Hnil. rewrite length_rev in Hnil.
  by destruct chain.
Qed.

Lemma by_id_foldl_last suites : ∀ (m0 : gmap string Suite) sid,
  foldl (λ m s, <[s_id s := s]> m) m0 suites !! sid
  = match last (filter (λ s, s_id s = sid) suites) with
    | Some s => Some s
    | None => m0 !! sid
    end.
Proof.
  induction suites as [|x suites IH]; intros m0 sid; cbn [foldl]; [done|].
  rewrite IH. destruct (decide (s_id x = sid)) as [Hx|Hx].
  - rewrite filter_cons_True by done. rewrite last_cons.
    destruct (last _); [done|]. by rewrite <- Hx, lookup_insert_eq.
  - rewrite filter_cons_False by done.
    destruct (last _); [done|]. by rewrite lookup_insert_ne.
Qed.

(** X4.  When several suites of the list carry the same id, [by_id] holds the
    last of them; an id carried by no suite is not a key. *)
Theorem by_id_last_wins (suites : list Suite) (sid : string) :
  by_id suites !! sid = last (filter (λ s, s_id s = sid) suites).
Proof.
  unfold by_id. rewrite by_id_foldl_last. by destruct (last _).
Qed.

Lemma insert_keys_is_Some {V} (f : Suite → V) (l : list Suite) : ∀ (m0 : gmap string V) k,
  is_Some (foldl (λ m s, <[s_id s := f s]> m) m0 l !! k)
  ↔ is_Some (m0 !! k) ∨ ∃ s, s ∈ l ∧ s_id s = k.
Proof.
  induction l as [|x l IH]; intros m0 k; cbn.
  - split; [by left|]. intros [H|(s & Hs & _)]; [done|]. by apply elem_of_nil in Hs.
  - rewrite IH. destruct (decide (s_id x = k)) as [<-|Hne].
    + rewrite lookup_insert_eq. split; [|intros _; left; by eexists].
      intros _. right. exists x. split; [by left|done].
    + rewrite lookup_insert_ne by done. split.
      * intros [H|(s & Hs & Hid)]; [by left|]. right. exists s. split; [by right|done].
      * intros [H|(s & [->|Hs]%elem_of_cons & Hid)]; [by left|done|].
        right. by exists s.
Qed.

Lemma climb_keyed suites fuel : ∀ cur tid,
  by_id suites !! s_id cur = Some cur →
  climb (by_id suites) fuel cur = Ret tid →
  ∃ t, by_id suites !! tid = Some t ∧ s_id t = tid ∧ s_parentId t = None.
Proof.
  induction fuel as [|fuel IH]; intros cur tid Hcur; cbn; [done|].
  destruct (s_parentId cur) as [pid|] eqn:Hpar.
  - destruct (by_id suites !! pid) as [next|] eqn:Hnext; [|done].
    apply IH. destruct (by_id_lookup _ _ _ Hnext) as [_ ->]. done.
  - intros [= <-]. by exists cur.
Qed.

(** X5.  Whatever id [top_ancestor] returns is the id of a suite without
    parent that [by_id] holds under that id: it is one of the top-level
    suites, so it is a key of the [agg] dictionary [main] creates, and
    neither [by_id[tid]] nor [agg[tid]] can raise [KeyError]. *)
Theorem top_ancestor_is_top_level suites fuel sid tid :
  top_ancestor (by_id suites) fuel sid = Ret tid →
  ∃ t, by_id suites !! tid = Some t ∧ s_id t = tid ∧ s_parentId t = None ∧
       t ∈ filter (λ s, s_parentId s = None) suites ∧
       is_Some (foldl (λ m s, <[s_id s := []]> m)
                      (∅ : gmap string (list (Z * Bucket)))
                      (filter (λ s, s_parentId s = None) suites) !! tid).
Proof.
  unfold top_ancestor. destruct (by_id suites !! sid) as [cur|] eqn:Hcur; [|done].
  intros Hclimb. destruct (by_id_lookup _ _ _ Hcur) as [_ Hid].
  destruct (climb_keyed suites fuel cur tid) as (t & Ht & Htid & Hroot); [by rewrite Hid|done|].
  destruct (by_id_lookup _ _ _ Ht) as [Hin _].
  assert (t ∈ filter (λ s, s_parentId s = None) suites) as Htop
    by (by apply list_elem_of_filter).
  exists t. split_and!; try done.
  apply insert_keys_is_Some. right. by exists t.
Qed.

(** X6.  The two walks disagree on a parent id that is missing from the
    list: [top_ancestor] raises [KeyError] on it, while [path_for] takes the
    last suite it could reach for the root and caches the shortened path. *)
Theorem missing_parent_splits_the_walks suites sid s chain missing fuel :
  by_id suites !! sid = Some s →
  truncated (by_id suites) s chain missing →
  (length chain ≤ fuel)%nat →
  top_ancestor (by_id suites) fuel sid = Raise (KeyError missing) ∧
  path_for (by_id suites) fuel sid ∅
  = (Ret (slash_path chain), {[ sid := slash_path chain ]}).
Proof.
  intros Hs Htr Hfuel. split.
  - unfold top_ancestor. rewrite Hs. by eapply climb_truncated.
  - unfold path_for. rewrite lookup_empty, Hs.
    rewrite (collect_truncated _ _ _ _ Htr) by done. cbn [app].
    unfold slash_path. rewrite map_rev. by rewrite insert_empty.
Qed.

Section MoreLookup.
Variable suites : list Suite.
Variable fuel : nat.

Local Abbreviation step :=
  (λ (_ : unit) (s : Suite), _ <- path_for (by_id suites) fuel (s_id s) ;; ret tt).

Lemma path_for_keys sid cache r cache' :
  is_Some (by_id suites !! sid) →
  path_for (by_id suites) fuel sid cache = (r, cache') →
  (∀ e, r ≠ Raise e) ∧
  (∀ p, r = Ret p →
     cache' !! sid = Some p ∧
     ∀ k, is_Some (cache' !! k) ↔ is_Some (cache !! k) ∨ k = sid).
Proof.
  intros [s Hs]. unfold path_for.
  destruct (cache !! sid) as [q|] eqn:Hc.
  - intros [= <- <-]. split; [done|]. intros p [= <-]. split; [done|].
    intros k. split; [by left|]. intros [H| ->]; [done|by eexists].
  - rewrite Hs. destruct (collect _ fuel s []) as [parts|e|] eqn:Hcol.
    + intros [= <- <-]. split; [done|]. intros p [= <-].
      split; [by rewrite lookup_insert_eq|].
      intros k. destruct (decide (sid = k)) as [->|Hne].
      * rewrite lookup_insert_eq. split; [by right|by eexists].
      * rewrite lookup_insert_ne by done. split; [by left|].
        intros [H|H]; [done|congruence].
    + by apply collect_no_raise in Hcol.
    + intros [= <- <-]. done.
Qed.

Lemma lookup_loop_keys (l : list Suite) : ∀ cache r cache',
  (∀ x, x ∈ l → is_Some (by_id suites !! s_id x)) →
  for_each step l tt cache = (r, cache') →
  (∀ e, r ≠ Raise e) ∧
  (r = Ret tt →
     ∀ k, is_Some (cache' !! k) ↔ is_Some (cache !! k) ∨ ∃ s, s ∈ l ∧ s_id s = k).
Proof.
  induction l as [|x l IH]; intros cache r cache' Hkeys; cbn.
  - intros [= <- <-]. split; [done|]. intros _ k. split; [by left|].
    intros [H|(s & Hs & _)]; [done|]. by apply elem_of_nil in Hs.
  - unfold bind at 1 2.
    destruct (path_for _ fuel (s_id x) cache) as [[p|e|] cache1] eqn:Hpath;
      (destruct (path_for_keys _ _ _ _ (Hkeys x ltac:(by left)) Hpath) as [Hne Hret]).
    + destruct (Hret p eq_refl) as [_ Hdom]. cbn. intros Hloop.
      destruct (IH cache1 r cache') as [Hne' Hret'];
        [intros y Hy; apply Hkeys; by right|done|].
      split; [done|]. intros Hr k. rewrite (Hret' Hr k), Hdom. split.
      * intros [[H| ->]|(s & Hs & Hid)]; [by left|..].
        -- right. exists x. split; [by left|done].
        -- right. exists s. split; [by right|done].
      * intros [H|(s & [->|Hs]%elem_of_cons & Hid)]; [by left; left|..].
        -- left. by right.
        -- right. by exists s.
    + by destruct (Hne e).
    + intros [= <- <-]. done.
Qed.
End MoreLookup.

(** X7.  Whenever [build_suite_path_lookup] returns, its dictionary has an
    entry for every suite id of the list and for nothing else, so the
    fallback of [suite_path.get(sid, s["name"])] in [main] is never taken;
    and every suite id of the list is a key of [by_id], so the subscript
    [by_id[sid]] at the head of [path_for] does not fail on it. *)
Theorem path_lookup_covers_suites (suites : list Suite) (fuel : nat) :
  (∀ s, s ∈ suites → is_Some (by_id suites !! s_id s)) ∧
  (∀ cache, build_suite_path_lookup fuel suites = Ret cache →
     ∀ sid, is_Some (cache !! sid) ↔ ∃ s, s ∈ suites ∧ s_id s = sid).
Proof.
  split; [intros s Hs; by apply by_id_elem|].
  unfold build_suite_path_lookup.
  destruct (for_each _ suites tt ∅) as [r cache'] eqn:Hloop.
  destruct (lookup_loop_keys suites fuel suites ∅ r cache') as [Hne Hret];
    [intros x Hx; by apply by_id_elem|done|].
  intros cache. destruct r as [[]|e'|]; [|done..]. intros [= <-] sid.
  rewrite (Hret eq_refl sid). rewrite lookup_empty. split.
  - intros [[? ?]|H]; done.
  - intros H. by right.
Qed.


(** X9.  In a snapshot without cycles whose parent references all name
    listed suites, the paths of the lookup compose along the hierarchy: the
    path of a suite without parent is its name, and the path of any other
    suite is the path of its parent, a slash, and its name. *)
Theorem paths_compose suites :
  closed suites → acyclic suites →
  ∃ n, ∀ fuel, (n ≤ fuel)%nat →
    ∃ cache, build_suite_path_lookup fuel suites = Ret cache ∧
      ∀ sid s, by_id suites !! sid = Some s →
        match s_parentId s with
        | None => cache !! sid = Some (s_name s)
        | Some pid =>
            ∃ parent_path, cache !! pid = Some parent_path ∧
                           cache !! sid = Some (parent_path +:+ "/" +:+ s_name s)
        end.
Proof.
  intros Hclosed Hacyc.
  destruct (grounded_bound _ (closed_acyclic_grounded _ Hclosed Hacyc)) as [n Hn].
  exists n. intros fuel Hfuel.
  destruct (lookup_loop_ancestry (by_id suites) fuel suites ∅)
    as (cache & Hloop & Hsound & _ & Hkeys).
  { intros x Hx. destruct (Hn x Hx) as (s & chain & ? & ? & ?).
    exists s, chain. split_and!; try done. lia. }
  { intros k p Hk. by rewrite lookup_empty in Hk. }
  exists cache. split; [unfold build_suite_path_lookup; by rewrite Hloop|].
  assert (∀ sid s chain, by_id suites !! sid = Some s →
            ancestry (by_id suites) s chain → cache !! sid = Some (slash_path chain))
    as Hpath.
  { intros sid s chain Hs Hanc. destruct (by_id_lookup _ _ _ Hs) as [Hin Hid].
    destruct (Hkeys s Hin) as [p Hp]. rewrite Hid in Hp.
    destruct (Hsound _ _ Hp) as (s2 & chain2 & Hs2 & Hanc2 & ->).
    assert (s2 = s) as -> by congruence.
    by rewrite (ancestry_det _ _ _ Hanc2 _ Hanc) in Hp. }
  intros sid s Hs. destruct (by_id_lookup _ _ _ Hs) as [Hin Hid].
  destruct (Hn s Hin) as (s' & chain & Hs' & Hanc & _).
  rewrite Hid, Hs in Hs'. injection Hs' as <-. clear Hid.
  inversion Hanc as [s0 Hroot|s0 pid parent chain' Hpar Hparent Hanc']; subst.
  - rewrite Hroot. by apply (Hpath sid s [s]).
  - rewrite Hpar. exists (slash_path chain'). split.
    + by eapply Hpath.
    + rewrite (Hpath _ _ _ Hs Hanc). f_equal. apply slash_path_cons.
      intros ->. inversion Hanc'.
Qed.

(** * Further facts about runs, suites and plans *)

Lemma ltb_le (a b : string) : String.ltb a b = true → String.le a b.
Proof.
  unfold String.ltb, String.le, String.leb. by destruct (String.compare a b).
Qed.

Lemma not_ltb_le (a b : string) : String.ltb a b = false → String.le b a.
Proof.
  unfold String.ltb, String.le, String.leb. rewrite (String.compare_antisym b a).
  by destruct (String.compare a b).
Qed.

Lemma ltb_neq (a b : string) : String.ltb a b = true → a ≠ b.
Proof.
  intros Hlt ->. apply ltb_le in Hlt as Hle.
  unfold String.ltb in Hlt. unfold String.le, String.leb in Hle.
  pose proof (String.compare_antisym b b) as Hanti.
  destruct (String.compare b b); done.
Qed.

Lemma insert_desc_perm x l : insert_desc x l ≡ₚ x :: l.
Proof.
  induction l as [|y l IH]; cbn; [done|].
  destruct (String.ltb _ _); [|done]. rewrite IH. apply Permutation_swap.
Qed.

Lemma insert_desc_sorted x l :
  StronglySorted newer_first l → StronglySorted newer_first (insert_desc x l).
Proof.
  induction 1 as [|y l Hsorted IH Hall]; cbn.
  - repeat constructor.
  - destruct (String.ltb (run_sort_key x) (run_sort_key y)) eqn:Hlt.
    + constructor; [done|]. rewrite insert_desc_perm. constructor; [|done].
      by apply ltb_le.
    + apply not_ltb_le in Hlt. constructor; [by constructor|].
      constructor; [done|]. eapply Forall_impl; [done|].
      intros z Hz. unfold newer_first in *. by etrans.
Qed.

Lemma insert_desc_stable x l k :
  filter (λ r, run_sort_key r = k) (insert_desc x l)
  = filter (λ r, run_sort_key r = k) (x :: l).
Proof.
  induction l as [|y l IH]; cbn [insert_desc]; [done|].
  destruct (String.ltb (run_sort_key x) (run_sort_key y)) eqn:Hlt; [|done].
  apply ltb_neq in Hlt.
  destruct (decide (run_sort_key y = k)) as [Hy|Hy].
  - rewrite (filter_cons_True _ y) by done. rewrite IH.
    rewrite (filter_cons_False _ x) by congruence.
    rewrite (filter_cons_False _ x) by congruence. by rewrite filter_cons_True.
  - rewrite (filter_cons_False _ y) by done. rewrite IH.
    destruct (decide (run_sort_key x = k)).
    + rewrite !(filter_cons_True _ x) by done. by rewrite filter_cons_False.
    + rewrite !(filter_cons_False _ x) by done. by rewrite filter_cons_False.
Qed.

Lemma sorted_take_drop (l : list Run) :
  StronglySorted newer_first l →
  ∀ n a b, a ∈ take n l → b ∈ drop n l → newer_first a b.
Proof.
  induction 1 as [|y l Hsorted IH Hall]; intros n a b.
  - rewrite take_nil. intros Ha. by apply elem_of_nil in Ha.
  - destruct n as [|n]; cbn.
    + intros Ha. by apply elem_of_nil in Ha.
    + intros [->|Ha]%elem_of_cons Hb; [|by eapply IH].
      rewrite Forall_forall in Hall. apply Hall. by eapply subseteq_drop.
Qed.

(** X10.  The sort of [list_runs_for_plan] rearranges the runs, most recently
    updated first, and keeps runs with equal keys in the order in which the
    service listed them; so each of the first [n] runs of the result is at
    least as recent as each of the runs after them. *)
Theorem sort_desc_newest_first (runs : list Run) :
  sort_desc runs ≡ₚ runs ∧
  StronglySorted newer_first (sort_desc runs) ∧
  (∀ k, filter (λ r, run_sort_key r = k) (sort_desc runs)
        = filter (λ r, run_sort_key r = k) runs) ∧
  (∀ n a b, a ∈ take n (sort_desc runs) → b ∈ drop n (sort_desc runs) →
            newer_first a b).
Proof.
  unfold sort_desc.
  assert (StronglySorted newer_first (foldr insert_desc [] runs)) as Hsorted.
  { induction runs as [|x runs IH]; cbn [foldr]; [constructor|].
    by apply insert_desc_sorted. }
  split_and!; [|done| |by apply sorted_take_drop].
  - clear Hsorted. induction runs as [|x runs IH]; cbn [foldr]; [done|].
    rewrite insert_desc_perm. by rewrite IH.
  - intros k. clear Hsorted. induction runs as [|x runs IH]; cbn [foldr]; [done|].
    rewrite insert_desc_stable.
    destruct (decide (run_sort_key x = k)).
    + rewrite !(filter_cons_True _ x) by done. by rewrite IH.
    + rewrite !(filter_cons_False _ x) by done. by rewrite IH.
Qed.

(** X11.  [list_suites] turns ids into strings without merging suites:
    two suites get the same key exactly when their ids are equal, the
    [parentId] of a suite is the key of another exactly when its parent
    reference carries that suite's id, and a suite is top-level exactly when
    it carries no parent id. *)
Theorem normalize_suite_keys (a b : RawSuite) (x y : Z) :
  rs_id a = Some x → rs_id b = Some y →
  (s_id (normalize_suite a) = s_id (normalize_suite b) ↔ x = y) ∧
  (s_parentId (normalize_suite a) = Some (s_id (normalize_suite b))
     ↔ rs_parentSuite a ≫= pr_id = Some y) ∧
  (s_parentId (normalize_suite a) = None ↔ rs_parentSuite a ≫= pr_id = None).
Proof.
  intros Ha Hb. unfold normalize_suite. cbn. rewrite Ha, Hb. cbn. split_and!.
  - split; [apply (inj pretty)|by intros ->].
  - destruct (rs_parentSuite a) as [[[z|]]|]; cbn; [|done..].
    split; [intros [= Hz]; f_equal; by apply (inj pretty)|by intros [= ->]].
  - by destruct (rs_parentSuite a) as [[[z|]]|].
Qed.

Section MorePlanFacts.
Context {St : Type} (svc : Service St) (cfg : Config).
Variables lower strip : string → string.

(** X12.  Whatever id plan resolution returns is the id of a plan of the
    list, a plan that has a name and whose name equals or contains the
    wanted one; a single request was made to find it. *)
Theorem resolved_plan_is_listed plan_name st r st' pid st'' :
  get_plans svc (urlp cfg "/_apis/testplan/plans")
            {[ "api-version" := TESTPLAN_API_VER ]} st = (r, st') →
  status_code r < 400 →
  resolve_plan_id_by_name svc cfg lower strip plan_name st = (Ret pid, st'') →
  st'' = st' ∧
  ∃ p, p ∈ default [] (r_json r !! "value") ∧
       pid = pretty (pl_id p) ∧ is_Some (pl_name p) ∧
       (strip (lower (name_of p)) = strip (lower plan_name) ∨
        is_substring (strip (lower plan_name)) (lower (name_of p)) = true).
Proof.
  intros Hget Hok. unfold resolve_plan_id_by_name, bind, get_json.
  cbn [from_option id]. rewrite Hget.
  replace (status_code r >=? 400) with false
    by (symmetry; rewrite Z.geb_leb; apply Z.leb_gt; lia).
  set (plans := default [] (r_json r !! "value")).
  set (wanted := strip (lower plan_name)).
  destruct (filter (λ p, strip (lower (name_of p)) = wanted) plans)
    as [|p exact] eqn:Hexact.
  - destruct (filter (λ p, is_substring wanted (lower (name_of p))) plans)
      as [|p partial] eqn:Hpartial; [done|]. cbn.
    destruct (pl_name p) eqn:Hname; [|done]. intros [= <- <-]. split; [done|].
    assert (p ∈ filter (λ p, is_substring wanted (lower (name_of p))) plans) as Hin
      by (rewrite Hpartial; by left).
    apply list_elem_of_filter in Hin as [Hp Hin]. exists p. split_and!; try done.
    right. by apply Is_true_true.
  - cbn. destruct (pl_name p) eqn:Hname; [|done]. intros [= <- <-]. split; [done|].
    assert (p ∈ filter (λ p, strip (lower (name_of p)) = wanted) plans) as Hin
      by (rewrite Hexact; by left).
    apply list_elem_of_filter in Hin as [Hp Hin]. exists p. split_and!; try done.
    by left.
Qed.

(** X13.  Every point [get_points_for_suite] returns carries the outcome
    [resolve_point_outcome] finds in its own fields, and the outcome [main]
    merges for it is that outcome, or ["NeverRun"] when it is empty: the
    value handed to [worse] is never [None] nor [""], and the middle operand
    [p.get("outcome")] of the [or] chain never decides. *)
Theorem observed_outcome_never_empty fuel plan_id suite_id st pts st' :
  get_points_for_suite svc cfg fuel plan_id suite_id st = (Ret pts, st') →
  ∀ p, p ∈ pts →
    p_resolvedOutcome p = resolve_point_outcome p ∧
    py_or (py_or (p_resolvedOutcome p) (p_outcome p)) (Some "NeverRun")
    = py_or (resolve_point_outcome p) (Some "NeverRun") ∧
    truthy (py_or (py_or (p_resolvedOutcome p) (p_outcome p)) (Some "NeverRun")) = true.
Proof.
  unfold get_points_for_suite. intros (raw & st1 & _ & [= <- <-])%bind_Ret_inv p Hp.
  apply list_elem_of_fmap in Hp as (q & -> & _).
  change (resolve_point_outcome {| p_id := p_id q; p_testCase := p_testCase q;
            p_outcome := p_outcome q; p_mostRecentResult := p_mostRecentResult q;
            p_lastTestRun := p_lastTestRun q;
            p_lastResultDetails := p_lastResultDetails q;
            p_resolvedOutcome := resolve_point_outcome q |})
    with (resolve_point_outcome q). cbn [p_resolvedOutcome p_outcome].
  split; [done|].
  assert (py_or (py_or (resolve_point_outcome q) (p_outcome q)) (Some "NeverRun")
          = py_or (resolve_point_outcome q) (Some "NeverRun")) as ->.
  { destruct (truthy (resolve_point_outcome q)) eqn:Hres.
    - assert (py_or (resolve_point_outcome q) (p_outcome q) = resolve_point_outcome q)
        as -> by (unfold py_or; by rewrite Hres). done.
    - assert (truthy (p_outcome q) = false) as Ho.
      { unfold resolve_point_outcome in Hres. cbv zeta in Hres.
        destruct (truthy (p_outcome q)) eqn:Ho; [congruence|done]. }
      unfold py_or. rewrite !Hres, Ho. done. }
  split; [done|]. unfold py_or. by destruct (truthy (resolve_point_outcome q)) eqn:E.
Qed.
End MorePlanFacts.

(** * Further facts about the back-fill map *)

Lemma note_result_cases run res (latest : gmap Z Latest) :
  match r_pointId res with
  | None => note_result run res latest = latest
  | Some pid =>
      (∀ k, k ≠ pid → note_result run res latest !! k = latest !! k) ∧
      ∃ e, note_result run res latest !! pid = Some e ∧
           String.le (stamp_key (stamp run res)) (stamp_key (l_ts e)) ∧
           (latest !! pid = Some e ∨
            e = {| l_outcome := r_outcome res; l_ts := stamp run res |}) ∧
           ∀ prev, latest !! pid = Some prev →
                   String.le (stamp_key (l_ts prev)) (stamp_key (l_ts e))
  end.
Proof.
  unfold note_result. destruct (r_pointId res) as [pid|]; [|done].
  fold (stamp run res).
  destruct (latest !! pid) as [prev|] eqn:Hprev.
  - fold (stamp_key (l_ts prev)). fold (stamp_key (stamp run res)).
    destruct (String.ltb (stamp_key (l_ts prev)) (stamp_key (stamp run res))) eqn:Hlt.
    + split; [intros k Hk; by rewrite lookup_insert_ne|].
      eexists. rewrite lookup_insert_eq. split_and!; [done|done|by right|].
      intros ? [= <-]. cbn. by apply ltb_le.
    + split; [done|]. exists prev. split_and!; [done| |by left|by intros ? [= <-]].
      by apply not_ltb_le.
  - split; [intros k Hk; by rewrite lookup_insert_ne|].
    eexists. rewrite lookup_insert_eq. split_and!; [done|done|by right|done].
Qed.

(** X14.  The innermost loop of the back-fill block keeps, for each point, the
    result with the latest time stamp: after the results of a run have been
    noted, every point that had an entry or occurs in the results has one,
    no entry is older than it was or than a result noted for its point, and
    every entry is either the one the map held before or the outcome and
    time stamp of one of the results. *)
Theorem backfill_keeps_latest {St : Type} (run : Run) (results : list TestResult)
    (latest : gmap Z Latest) (st : St) :
  ∃ latest',
    for_each (λ _ res, update_local (note_result run res)) results tt (latest, st)
    = (Ret tt, (latest', st)) ∧
    (∀ pid, is_Some (latest' !! pid)
            ↔ is_Some (latest !! pid) ∨ ∃ res, res ∈ results ∧ r_pointId res = Some pid) ∧
    (∀ pid e, latest !! pid = Some e →
       ∃ e', latest' !! pid = Some e' ∧
             String.le (stamp_key (l_ts e)) (stamp_key (l_ts e'))) ∧
    (∀ pid res, res ∈ results → r_pointId res = Some pid →
       ∃ e', latest' !! pid = Some e' ∧
             String.le (stamp_key (stamp run res)) (stamp_key (l_ts e'))) ∧
    (∀ pid e', latest' !! pid = Some e' →
       latest !! pid = Some e' ∨
       ∃ res, res ∈ results ∧ r_pointId res = Some pid ∧
              e' = {| l_outcome := r_outcome res; l_ts := stamp run res |}).
Proof.
  revert latest. induction results as [|res results IH]; intros latest.
  - exists latest. split_and!; [done|..].
    + intros pid. split; [by left|]. intros [H|(res & Hres & _)]; [done|].
      by apply elem_of_nil in Hres.
    + intros pid e He. by exists e.
    + intros pid res Hres. by apply elem_of_nil in Hres.
    + intros pid e' He'. by left.
  - destruct (IH (note_result run res latest))
      as (latest' & Hrun & Hkeys & Holder & Hcover & Hprov).
    exists latest'. split; [cbn; unfold bind, update_local; exact Hrun|].
    pose proof (note_result_cases run res latest) as Hstep.
    destruct (r_pointId res) as [p|] eqn:Hp.
    + destruct Hstep as (Hothers & e1 & He1 & Hle1 & Hprov1 & Hprev1).
      split_and!.
      * intros pid. rewrite Hkeys. destruct (decide (pid = p)) as [->|Hne].
        -- rewrite He1. split; [|intros _; left; by eexists].
           intros _. right. exists res. split; [by left|done].
        -- rewrite Hothers by done. split.
           ++ intros [H|(r & Hr & Hid)]; [by left|]. right. exists r. split; [by right|done].
           ++ intros [H|(r & [->|Hr]%elem_of_cons & Hid)]; [by left|congruence|].
              right. by exists r.
      * intros pid e He. destruct (decide (pid = p)) as [->|Hne].
        -- destruct (Holder _ _ He1) as (e' & He' & Hle'). exists e'. split; [done|].
           etrans; [by apply Hprev1|done].
        -- apply Holder. by rewrite Hothers.
      * intros pid r [->|Hr]%elem_of_cons Hid; [|by eapply Hcover].
        assert (pid = p) as -> by congruence.
        destruct (Holder _ _ He1) as (e' & He' & Hle'). exists e'. split; [done|].
        by etrans.
      * intros pid e' He'. destruct (Hprov _ _ He') as [Hold|(r & Hr & Hid & ->)].
        -- destruct (decide (pid = p)) as [->|Hne].
           ++ rewrite He1 in Hold. injection Hold as <-.
              destruct Hprov1 as [?| ->]; [by left|].
              right. exists res. split_and!; [by left|done..].
           ++ left. by rewrite <- Hothers.
        -- right. exists r. split_and!; [by right|done..].
    + rewrite Hstep in *. split_and!.
      * intros pid. rewrite Hkeys. split.
        -- intros [H|(r & Hr & Hid)]; [by left|]. right. exists r. split; [by right|done].
        -- intros [H|(r & [->|Hr]%elem_of_cons & Hid)]; [by left|congruence|].
           right. by exists r.
      * done.
      * intros pid r [->|Hr]%elem_of_cons Hid; [congruence|by eapply Hcover].
      * intros pid e' He'. destruct (Hprov _ _ He') as [Hold|(r & Hr & Hid & ->)];
          [by left|]. right. exists r. split_and!; [by right|done..].
Qed.

(** * Further facts about the orchestration *)

Lemma upsert_keys tcid f (d : list (Z * Bucket)) :
  (upsert tcid f d).*1 = if decide (tcid ∈ d.*1) then d.*1 else (d.*1 ++ [tcid])%list.
Proof.
  induction d as [|[k v] d IH]; cbn; [done|].
  destruct (decide (k = tcid)) as [->|Hne]; cbn.
  - rewrite decide_True by (by left). done.
  - rewrite IH. destruct (decide (tcid ∈ d.*1)) as [Hin|Hnotin].
    + rewrite decide_True by (by right). done.
    + rewrite decide_False; [done|]. intros [?|?]%elem_of_cons; congruence.
Qed.

Lemma upsert_Forall (P : Z * Bucket → Prop) tcid f (d : list (Z * Bucket)) :
  (∀ found, (∀ b, found = Some b → ∃ k, P (k, b)) → P (tcid, f found)) →
  Forall P d → Forall P (upsert tcid f d).
Proof.
  intros Hf. induction 1 as [|[k v] d Hv Hd IH]; cbn.
  - constructor; [|done]. apply Hf. done.
  - destruct (decide (k = tcid)) as [->|Hne]; (constructor; [|done]); [|done].
    apply Hf. intros b [= <-]. by exists tcid.
Qed.

Lemma merge_point_shaped {St} tid path_str agg p (st : St) agg' st' :
  agg_shaped agg →
  merge_point tid path_str agg p st = (Ret agg', st') →
  agg_shaped agg' ∧ dom agg' = dom agg ∧ st' = st.
Proof.
  intros Hagg. unfold merge_point.
  destruct (tc_id _) as [[|tcid|tcid]|] eqn:Htc; try (by intros [= <- <-]);
    (destruct (agg !! tid) as [buckets|] eqn:Htid; [|done]);
    intros [= <- <-]; (split_and!; [|apply dom_insert_lookup_L; by eexists|done]);
    intros k bs; (destruct (decide (tid = k)) as [<-|Hne];
      [rewrite lookup_insert_eq; intros [= <-];
       destruct (Hagg _ _ Htid) as [Hnd Hall]; split;
       [rewrite upsert_keys; case_decide; [done|];
        apply NoDup_app; split_and!; [done| |apply NoDup_singleton];
        intros x Hx [->|Hx']%elem_of_cons; [done|by apply elem_of_nil in Hx']
       |apply upsert_Forall; [|done]; intros found _; cbn; split; [done|];
        apply non_empty_inhabited_L with path_str; set_solver]
      |rewrite lookup_insert_ne by done; apply Hagg]).
Qed.

Lemma for_each_invariant_state {S A B} (P : B → S → Prop) (body : B → A → M S B) :
  (∀ acc x st acc' st', P acc st → body acc x st = (Ret acc', st') → P acc' st') →
  ∀ xs acc st acc' st',
    P acc st → for_each body xs acc st = (Ret acc', st') → P acc' st'.
Proof.
  intros Hbody. induction xs as [|x xs IH]; intros acc st acc' st' Hacc; cbn.
  - by intros [= <- <-].
  - intros (acc1 & st1 & H1 & H2)%bind_Ret_inv. eapply IH; [|done]. by eapply Hbody.
Qed.

Lemma bind_Raise_inv {S A B} (m : M S A) (k : A → M S B) st e st' :
  bind m k st = (Raise e, st') →
  m st = (Raise e, st') ∨ ∃ a st1, m st = (Ret a, st1) ∧ k a st1 = (Raise e, st').
Proof.
  unfold bind. destruct (m st) as [[a|e'|] st1]; [|intros [= -> ->]; by left|by intros [=]].
  intros H. right. by exists a, st1.
Qed.

Lemma for_each_raise_inv {S A B} (P : B → Prop) (body : B → A → M S B) :
  (∀ acc x st acc' st', P acc → body acc x st = (Ret acc', st') → P acc') →
  ∀ xs acc st e st',
    P acc → for_each body xs acc st = (Raise e, st') →
    ∃ acc1 x st1, P acc1 ∧ x ∈ xs ∧ body acc1 x st1 = (Raise e, st').
Proof.
  intros Hbody. induction xs as [|x xs IH]; intros acc st e st' Hacc; cbn; [done|].
  intros [H|(acc1 & st1 & H1 & H2)]%bind_Raise_inv.
  - exists acc, x, st. split_and!; [done|by left|done].
  - destruct (IH acc1 st1 e st') as (acc2 & y & st2 & ? & ? & ?); [by eapply Hbody|done|].
    exists acc2, y, st2. split_and!; [done|by right|done].
Qed.

Lemma get_json_raises {St V} (requests_get : Get St V) url params st e st' :
  get_json requests_get url params st = (Raise e, st') → ∃ msg, e = SystemExit msg.
Proof.
  unfold get_json. destruct (requests_get _ _ st) as [r st1].
  destruct (status_code r >=? 400); [|done]. intros [= <- <-]. by eexists.
Qed.

Lemma pages_loop_never_raises {St A} (requests_get : Get St (Value A)) url params value_key
    fuel : ∀ ver token out st e st',
  pages_loop requests_get url params value_key fuel ver token out st ≠ (Raise e, st').
Proof.
  induction fuel as [|fuel IH]; intros ver token out st e st'; cbn; [done|].
  destruct (requests_get _ _ st) as [r st1].
  destruct (status_code r >=? 400); [done|]. destruct (negb _); [done|]. apply IH.
Qed.

Lemma versions_loop_raises {St A} (requests_get : Get St (Value A)) url params value_key
    fuel versions : ∀ last st e st',
  versions_loop requests_get url params value_key fuel versions last st = (Raise e, st') →
  ∃ msg, e = SystemExit msg.
Proof.
  induction versions as [|ver versions IH]; intros last st e st'; cbn.
  - intros [= <- <-]. by eexists.
  - intros [H|([last'|out] & st1 & _ & H)]%bind_Raise_inv.
    + by apply pages_loop_never_raises in H.
    + by eapply IH.
    + done.
Qed.

Lemma top_ancestor_raises suites fuel sid e :
  top_ancestor (by_id suites) fuel sid = Raise e →
  (e = KeyError sid ∧ by_id suites !! sid = None) ∨
  ∃ c pid, c ∈ suites ∧ s_parentId c = Some pid ∧ by_id suites !! pid = None ∧
           e = KeyError pid.
Proof.
  unfold top_ancestor. destruct (by_id suites !! sid) as [cur|] eqn:Hcur;
    [|intros [= <-]; by left].
  intros Hclimb. right. apply by_id_lookup in Hcur as [Hcur _].
  revert cur Hcur Hclimb. induction fuel as [|fuel IH]; intros cur Hcur; cbn; [done|].
  destruct (s_parentId cur) as [pid|] eqn:Hpar; [|done].
  destruct (by_id suites !! pid) as [next|] eqn:Hnext.
  - apply IH. by apply by_id_lookup in Hnext as [? _].
  - intros [= <-]. by exists cur, pid.
Qed.

Lemma build_never_raises fuel suites e : build_suite_path_lookup fuel suites ≠ Raise e.
Proof.
  unfold build_suite_path_lookup.
  destruct (for_each _ suites tt ∅) as [r cache'] eqn:Hloop.
  destruct (lookup_loop_keys suites fuel suites ∅ r cache') as [Hne _];
    [intros x Hx; by apply by_id_elem|done|].
  destruct r as [[]|e'|]; [done| |done]. by destruct (Hne e').
Qed.

Section MoreMainFacts.
Context {St : Type} (svc : Service St) (cfg : Config).
Variables lower strip : string → string.

Lemma merge_suite_shaped fuel plan_id m suite_path agg s st agg' st' :
  agg_shaped agg →
  merge_suite svc cfg fuel plan_id m suite_path agg s st = (Ret agg', st') →
  agg_shaped agg' ∧ dom agg' = dom agg.
Proof.
  intros Hagg. unfold merge_suite.
  intros (pts & st1 & _ & Hrest)%bind_Ret_inv.
  destruct pts as [|p pts]; [by injection Hrest as <- <-|].
  apply bind_Ret_inv in Hrest as (tid & st2 & _ & Hrest).
  apply bind_Ret_inv in Hrest as (tname & st3 & _ & Hrest).
  revert Hrest.
  apply (for_each_invariant (λ a, agg_shaped a ∧ dom a = dom agg)); [|done].
  intros acc x sta acc' sta' [Hacc Hdom] Hstep.
  destruct (merge_point_shaped _ _ _ _ _ _ _ Hacc Hstep) as (? & ? & _).
  split; [done|congruence].
Qed.

Lemma empty_agg_shaped (top_level : list Suite) :
  agg_shaped (foldl (λ m s, <[s_id s := []]> m) ∅ top_level).
Proof.
  assert (∀ m0, agg_shaped m0 →
    agg_shaped (foldl (λ m s, <[s_id s := []]> m) m0 top_level)) as Hgen.
  { induction top_level as [|t top_level IH]; intros m0 Hm0; cbn; [done|].
    apply IH. intros k bs. destruct (decide (s_id t = k)) as [<-|Hne].
    - rewrite lookup_insert_eq. intros [= <-]. split; constructor.
    - rewrite lookup_insert_ne by done. apply Hm0. }
  apply Hgen. intros k bs. by rewrite lookup_empty.
Qed.

Lemma tables_loop agg (tops : list Suite) : ∀ acc (st : St) tables st',
  for_each (λ tables top,
      match agg !! s_id top with
      | Some buckets => ret (tables ++ [(top, row_of top <$> buckets)])%list
      | None => raise (KeyError (s_id top))
      end) tops acc st = (Ret tables, st') →
  st' = st ∧ ∃ new, tables = (acc ++ new)%list ∧ Forall2 (λ top t, table_of agg top = Some t) tops new.
Proof.
  induction tops as [|top tops IH]; intros acc st tables st'; cbn.
  - intros [= <- <-]. split; [done|]. exists []. by rewrite app_nil_r.
  - intros (acc1 & st1 & Hstep & Hrest)%bind_Ret_inv.
    destruct (agg !! s_id top) as [buckets|] eqn:Htop; [|done].
    injection Hstep as <- <-.
    apply IH in Hrest as (-> & new & -> & Hnew). split; [done|].
    exists ((top, row_of top <$> buckets) :: new). split; [by rewrite <- app_assoc|].
    constructor; [|done]. unfold table_of. by rewrite Htop.
Qed.

Lemma main_tables fuel st tables st' :
  main svc cfg lower strip fuel st = (Ret tables, st') →
  ∃ plan_id st1 suites st2 agg,
    resolve_plan_id_by_name svc cfg lower strip (TEST_PLAN_NAME cfg) st
      = (Ret plan_id, st1) ∧
    list_suites svc cfg plan_id st1 = (Ret suites, st2) ∧
    agg_shaped agg ∧
    Forall2 (λ top t, table_of agg top = Some t)
            (filter (λ s, s_parentId s = None) suites) tables.
Proof.
  unfold main.
  intros (plan_id & st1 & Hplan & H)%bind_Ret_inv.
  apply bind_Ret_inv in H as (suites & st2 & Hsuites & H).
  apply bind_Ret_inv in H as (suite_path & st3 & _ & H).
  apply bind_Ret_inv in H as (latest_by_point & st4 & _ & H).
  apply bind_Ret_inv in H as (agg & st5 & Hagg & H).
  exists plan_id, st1, suites, st2, agg. split_and!; [done..| |].
  - revert Hagg. apply for_each_invariant; [|apply empty_agg_shaped].
    intros acc x sta acc' sta' Hacc Hstep.
    by destruct (merge_suite_shaped _ _ _ _ _ _ _ _ _ Hacc Hstep).
  - apply tables_loop in H as (_ & new & -> & Hnew). done.
Qed.

(** X15.  [main] produces exactly one table per top-level suite, in the order
    in which the suites endpoint lists them: the suites the tables are made
    for are the suites without parent of the list [list_suites] returned
    for the resolved plan. *)
Theorem one_table_per_top_level_suite fuel st tables st' :
  main svc cfg lower strip fuel st = (Ret tables, st') →
  ∃ plan_id st1 suites st2,
    resolve_plan_id_by_name svc cfg lower strip (TEST_PLAN_NAME cfg) st
      = (Ret plan_id, st1) ∧
    list_suites svc cfg plan_id st1 = (Ret suites, st2) ∧
    tables.*1 = filter (λ s, s_parentId s = None) suites.
Proof.
  intros (plan_id & st1 & suites & st2 & agg & Hplan & Hsuites & _ & Htables)%main_tables.
  exists plan_id, st1, suites, st2. split_and!; [done..|].
  induction Htables as [|top t tops tables' Ht _ IH]; [done|]. cbn. rewrite IH.
  f_equal. unfold table_of in Ht. destruct (agg !! s_id top); [|done].
  by injection Ht as <-.
Qed.

(** X16.  Within a table every test case has a single row: the test case ids
    of the rows are pairwise distinct, every row carries the id and the name
    of the table's suite, and every row lists at least one path. *)
Theorem rows_are_unique_per_test_case fuel st tables st' :
  main svc cfg lower strip fuel st = (Ret tables, st') →
  ∀ top rows, (top, rows) ∈ tables →
    NoDup (TestCaseId <$> rows) ∧
    ∀ row, row ∈ rows →
      TopSuiteId row = s_id top ∧ TopSuiteName row = s_name top ∧
      (1 ≤ NumPaths row)%nat.
Proof.
  intros (plan_id & st1 & suites & st2 & agg & _ & _ & Hagg & Htables)%main_tables
    top rows Hin.
  assert (∃ buckets, agg !! s_id top = Some buckets ∧ rows = row_of top <$> buckets)
    as (buckets & Hb & ->).
  { induction Htables as [|top' t tops tables' Ht _ IH]; [by apply elem_of_nil in Hin|].
    apply elem_of_cons in Hin as [<-|Hin]; [|by apply IH].
    unfold table_of in Ht. destruct (agg !! s_id top') as [buckets|] eqn:Hb; [|done].
    injection Ht as <- <-. by exists buckets. }
  destruct (Hagg _ _ Hb) as [Hnd Hall]. split.
  - assert (TestCaseId <$> (row_of top <$> buckets) = buckets.*1) as ->; [|done].
    clear. induction buckets as [|[k b] buckets IH]; [done|]. cbn. by rewrite IH.
  - intros row (e & -> & He)%list_elem_of_fmap.
    rewrite Forall_forall in Hall. destruct (Hall _ He) as [Hid Hpaths].
    destruct e as [k b]. cbn in *. split_and!; try done.
    assert (size (b_paths b) ≠ 0%nat) as Hsize
      by (apply size_non_empty_iff; by intros ?%leibniz_equiv).
    lia.
Qed.

Lemma resolve_plan_key_error plan_name st k st' :
  resolve_plan_id_by_name svc cfg lower strip plan_name st = (Raise (KeyError k), st') →
  k = "name".
Proof.
  unfold resolve_plan_id_by_name.
  intros [Hfetch|(body & st1 & _ & H)]%bind_Raise_inv;
    [by apply get_json_raises in Hfetch as [msg ?]|].
  apply bind_Raise_inv in H as [H|(exact & st2 & Hexact & H)].
  - destruct (filter _ _); [|done]. by destruct (filter _ _).
  - destruct exact as [|p exact].
    + destruct (filter (λ p, strip (lower (name_of p)) = _) _); [|done].
      by destruct (filter _ _).
    + destruct (pl_name p); [done|]. by injection H as <-.
Qed.

Lemma get_points_raises fuel plan_id suite_id st e st' :
  get_points_for_suite svc cfg fuel plan_id suite_id st = (Raise e, st') →
  ∃ msg, e = SystemExit msg.
Proof.
  unfold get_points_for_suite.
  intros [H|(pts & st1 & _ & H)]%bind_Raise_inv; [|done].
  by eapply versions_loop_raises.
Qed.

Lemma merge_suite_key_error fuel plan_id suites suite_path agg s st k st' :
  s ∈ suites →
  dom agg = dom (foldl (λ m s, <[s_id s := []]> m)
                       (∅ : gmap string (list (Z * Bucket)))
                       (filter (λ s, s_parentId s = None) suites)) →
  merge_suite svc cfg fuel plan_id (by_id suites) suite_path agg s st
    = (Raise (KeyError k), st') →
  ∃ c, c ∈ suites ∧ s_parentId c = Some k ∧ by_id suites !! k = None.
Proof.
  intros Hs Hdom. unfold merge_suite.
  intros [H|(pts & st1 & _ & H)]%bind_Raise_inv;
    [by apply get_points_raises in H as [msg ?]|].
  destruct pts as [|p pts]; [done|].
  apply bind_Raise_inv in H as [H|(tid & st2 & Htid & H)].
  - unfold lift in H. injection H as H _. apply top_ancestor_raises in H as [[_ Hnone]|(c & pid & ? & ? & ? & [= <-])].
    + destruct (by_id_elem _ _ Hs) as [? ?]. congruence.
    + by exists c.
  - unfold lift in Htid. injection Htid as Htid _.
    unfold top_ancestor in Htid.
    destruct (by_id suites !! s_id s) as [cur|] eqn:Hcur; [|done].
    destruct (by_id_lookup _ _ _ Hcur) as [_ Hid].
    destruct (climb_keyed suites fuel cur tid) as (t & Ht & Htid' & Hroot);
      [by rewrite Hid|done|].
    rewrite Ht in H.
    apply bind_Raise_inv in H as [H|(tname & st3 & _ & H)]; [done|].
    exfalso.
    apply (for_each_raise_inv (λ a, dom a = dom agg)) in H
      as (acc1 & x & sta & Hacc1 & _ & Hstep); [| |done].
    + unfold merge_point in Hstep.
      assert (is_Some (acc1 !! tid)) as [bs Hbs].
      { apply elem_of_dom. rewrite Hacc1, Hdom. apply elem_of_dom.
        apply insert_keys_is_Some. right. exists t. split; [|done].
        apply list_elem_of_filter. split; [done|]. by apply by_id_lookup in Ht as [? _]. }
      rewrite Hbs in Hstep. by destruct (tc_id _) as [[| |]|].
    + intros acc x sta acc' sta' Hacc. unfold merge_point.
      destruct (tc_id _) as [[|tcid|tcid]|]; try (by intros [= <- <-]);
        (destruct (acc !! tid) as [bs|] eqn:Hbs; [|done]); intros [= <- <-];
        rewrite <- Hacc; apply dom_insert_lookup_L; by eexists.
Qed.

(** X17.  For plans that carry an id and suites that carry a name, as the
    records of this development do, [main] can end with a [KeyError] in two
    ways only: plan resolution ends with the one for the name of the
    resolved plan, which has none; or the key is a parent id that some suite
    of the list names and no suite carries.  The lookups [by_id[sid]],
    [by_id[tid]], [agg[tid]] and [agg[top]] do not fail. *)
Theorem main_key_errors fuel st k st' :
  main svc cfg lower strip fuel st = (Raise (KeyError k), st') →
  (k = "name" ∧
   resolve_plan_id_by_name svc cfg lower strip (TEST_PLAN_NAME cfg) st
   = (Raise (KeyError "name"), st')) ∨
  ∃ plan_id st1 suites st2 c,
    resolve_plan_id_by_name svc cfg lower strip (TEST_PLAN_NAME cfg) st
      = (Ret plan_id, st1) ∧
    list_suites svc cfg plan_id st1 = (Ret suites, st2) ∧
    c ∈ suites ∧ s_parentId c = Some k ∧ by_id suites !! k = None.
Proof.
  unfold main.
  intros [H|(plan_id & st1 & Hplan & H)]%bind_Raise_inv.
  { left. pose proof (resolve_plan_key_error _ _ _ _ H) as ->. by split. }
  apply bind_Raise_inv in H as [H|(suites & st2 & Hsuites & H)].
  { exfalso. unfold list_suites in H.
    apply bind_Raise_inv in H as [H|(? & ? & _ & H)]; [|done].
    by apply get_json_raises in H as [msg ?]. }
  apply bind_Raise_inv in H as [H|(suite_path & st3 & _ & H)].
  { exfalso. unfold lift in H. injection H as H _. by eapply build_never_raises. }
  apply bind_Raise_inv in H as [H|(latest_by_point & st4 & _ & H)].
  { exfalso. unfold try_filling in H. by destruct (backfill _ _ _ _ _) as [[| |] []]. }
  set (agg0 := foldl (λ m s, <[s_id s := []]> m)
                     (∅ : gmap string (list (Z * Bucket)))
                     (filter (λ s, s_parentId s = None) suites)) in *.
  apply bind_Raise_inv in H as [H|(agg & st5 & Hagg & H)].
  - apply (for_each_raise_inv (λ a, agg_shaped a ∧ dom a = dom agg0)) in H
      as (acc1 & x & sta & [_ Hdom] & Hx & Hstep).
    + right. destruct (merge_suite_key_error _ _ _ _ _ _ _ _ _ Hx Hdom Hstep)
        as (c & ? & ? & ?).
      by exists plan_id, st1, suites, st2, c.
    + intros acc x sta acc' sta' [Hacc Hdom] Hstep.
      destruct (merge_suite_shaped _ _ _ _ _ _ _ _ _ Hacc Hstep). split; [done|congruence].
    + split; [apply empty_agg_shaped|done].
  - exfalso.
    assert (dom agg = dom agg0) as Hdom.
    { revert Hagg.
      apply (for_each_invariant (λ a, agg_shaped a ∧ dom a = dom agg0));
        [|split; [apply empty_agg_shaped|done]].
      intros acc x sta acc' sta' [Hacc Hdom] Hstep.
      destruct (merge_suite_shaped _ _ _ _ _ _ _ _ _ Hacc Hstep). split; [done|congruence]. }
    apply (for_each_raise_inv (λ _, True)) in H as (acc1 & top & sta & _ & Htop & Hstep);
      [|done..].
    assert (is_Some (agg !! s_id top)) as [bs Hbs].
    { apply elem_of_dom. rewrite Hdom. apply elem_of_dom.
      apply insert_keys_is_Some. right. by exists top. }
    by rewrite Hbs in Hstep.
Qed.
End MoreMainFacts.

(** * The further facts at work on the sample data *)

(** The leaf of the three-level chain has the root for top-level ancestor. *)
Lemma top_ancestor_is_top_level_witness :
  ∃ t, by_id chain_suites !! "1" = Some t ∧ s_id t = "1" ∧ s_parentId t = None ∧
       t ∈ filter (λ s, s_parentId s = None) chain_suites ∧
       is_Some (foldl (λ m s, <[s_id s := []]> m)
                      (∅ : gmap string (list (Z * Bucket)))
                      (filter (λ s, s_parentId s = None) chain_suites) !! "1").
Proof.
  apply (top_ancestor_is_top_level chain_suites 3 "3" "1").
  vm_compute. reflexivity.
Defined.

(** The grandchild's walk breaks off at the unlisted suite [5]. *)
Lemma missing_parent_splits_the_walks_witness :
  top_ancestor (by_id orphan_suites) 2 "7" = Raise (KeyError "5") ∧
  path_for (by_id orphan_suites) 2 "7" ∅
  = (Ret "child/grandchild", {[ "7" := "child/grandchild" ]}).
Proof.
  apply (missing_parent_splits_the_walks orphan_suites "7"
           {| s_id := "7"; s_name := "grandchild"; s_parentId := Some "6" |}
           [ {| s_id := "7"; s_name := "grandchild"; s_parentId := Some "6" |};
             {| s_id := "6"; s_name := "child"; s_parentId := Some "5" |} ]
           "5" 2).
  - vm_compute. reflexivity.
  - eapply truncated_step; [reflexivity|vm_compute; reflexivity|].
    apply truncated_here; [reflexivity|vm_compute; reflexivity].
  - cbn. lia.
Defined.


(** The paths of the three-level chain. *)
Lemma paths_compose_witness :
  ∃ n, ∀ fuel, (n ≤ fuel)%nat →
    ∃ cache, build_suite_path_lookup fuel chain_suites = Ret cache ∧
      ∀ sid s, by_id chain_suites !! sid = Some s →
        match s_parentId s with
        | None => cache !! sid = Some (s_name s)
        | Some pid =>
            ∃ parent_path, cache !! pid = Some parent_path ∧
                           cache !! sid = Some (parent_path +:+ "/" +:+ s_name s)
        end.
Proof.
  exact (paths_compose chain_suites chain_suites_closed chain_suites_acyclic).
Defined.

(** The child's [parentId] is the key of the top suite. *)
Lemma normalize_suite_keys_witness :
  (s_id (normalize_suite raw_child) = s_id (normalize_suite raw_top) ↔ 11 = 10) ∧
  (s_parentId (normalize_suite raw_child) = Some (s_id (normalize_suite raw_top))
     ↔ rs_parentSuite raw_child ≫= pr_id = Some 10) ∧
  (s_parentId (normalize_suite raw_child) = None
     ↔ rs_parentSuite raw_child ≫= pr_id = None).
Proof.
  apply (normalize_suite_keys raw_child raw_top 11 10); reflexivity.
Defined.

(** The plan resolved on the sample service is plan [2] of the list. *)
Lemma resolved_plan_is_listed_witness :
  (1%nat = 1%nat) ∧
  ∃ p, p ∈ sample_plans ∧
       "2" = pretty (pl_id p) ∧ is_Some (pl_name p) ∧
       (ascii_strip (ascii_lower (name_of p))
        = ascii_strip (ascii_lower " Release Plan ") ∨
        is_substring (ascii_strip (ascii_lower " Release Plan "))
                     (ascii_lower (name_of p)) = true).
Proof.
  change sample_plans
    with (default [] (r_json (response 200 "" (urlp sample_cfg "/_apis/testplan/plans")
                                       {[ "value" := sample_plans ]} ∅) !! "value"))
    at 1.
  apply (resolved_plan_is_listed (sample_service unrun_points) sample_cfg
           ascii_lower ascii_strip " Release Plan " 0%nat
           (response 200 "" (urlp sample_cfg "/_apis/testplan/plans")
                     {[ "value" := sample_plans ]} ∅)
           1%nat "2" 1%nat).
  - reflexivity.
  - vm_compute. reflexivity.
  - vm_compute. reflexivity.
Defined.

(** The points of suite [11] of the sample service. *)
Lemma observed_outcome_never_empty_witness :
  Forall (λ p,
      p_resolvedOutcome p = resolve_point_outcome p ∧
      py_or (py_or (p_resolvedOutcome p) (p_outcome p)) (Some "NeverRun")
      = py_or (resolve_point_outcome p) (Some "NeverRun") ∧
      truthy (py_or (py_or (p_resolvedOutcome p) (p_outcome p)) (Some "NeverRun"))
      = true)
    mixed_points_resolved.
Proof.
  apply Forall_forall.
  apply (observed_outcome_never_empty (sample_service mixed_points) sample_cfg
           5 "2" "11" 0%nat mixed_points_resolved 1%nat).
  vm_compute. reflexivity.
Defined.

(** What [main] returns on the sample service with mixed observations. *)
Lemma main_on_mixed_points :
  main (sample_service mixed_points) sample_cfg ascii_lower ascii_strip 5 0%nat
  = (Ret [ ({| s_id := "10"; s_name := "Top"; s_parentId := None |}, mixed_rows) ],
     7%nat).
Proof. vm_compute. reflexivity. Qed.

(** One table, for the only top-level suite. *)
Lemma one_table_per_top_level_suite_witness :
  ∃ plan_id st1 suites st2,
    resolve_plan_id_by_name (sample_service mixed_points) sample_cfg
      ascii_lower ascii_strip (TEST_PLAN_NAME sample_cfg) 0%nat = (Ret plan_id, st1) ∧
    list_suites (sample_service mixed_points) sample_cfg plan_id st1 = (Ret suites, st2) ∧
    [ {| s_id := "10"; s_name := "Top"; s_parentId := None |} ]
    = filter (λ s, s_parentId s = None) suites.
Proof.
  exact (one_table_per_top_level_suite (sample_service mixed_points) sample_cfg
           ascii_lower ascii_strip 5 0%nat _ 7%nat main_on_mixed_points).
Defined.

(** The two rows of that table are for two different test cases. *)
Lemma rows_are_unique_per_test_case_witness :
  NoDup (TestCaseId <$> mixed_rows) ∧
  ∀ row, row ∈ mixed_rows →
    TopSuiteId row = "10" ∧ TopSuiteName row = "Top" ∧ (1 ≤ NumPaths row)%nat.
Proof.
  apply (rows_are_unique_per_test_case (sample_service mixed_points) sample_cfg
           ascii_lower ascii_strip 5 0%nat _ 7%nat main_on_mixed_points
           {| s_id := "10"; s_name := "Top"; s_parentId := None |} mixed_rows).
  by left.
Defined.

(** With a suite whose parent is not listed, [main] ends with the [KeyError]
    of [top_ancestor]. *)
Lemma main_on_orphan :
  main service_with_orphan sample_cfg ascii_lower ascii_strip 5 0%nat
  = (Raise (KeyError "99"), 6%nat).
Proof. vm_compute. reflexivity. Qed.

(** The missing parent [99] is the key of that error. *)
Lemma main_key_errors_witness :
  ("99" = "name" ∧
   resolve_plan_id_by_name service_with_orphan sample_cfg
     ascii_lower ascii_strip (TEST_PLAN_NAME sample_cfg) 0%nat
   = (Raise (KeyError "name"), 6%nat)) ∨
  ∃ plan_id st1 suites st2 c,
    resolve_plan_id_by_name service_with_orphan sample_cfg
      ascii_lower ascii_strip (TEST_PLAN_NAME sample_cfg) 0%nat = (Ret plan_id, st1) ∧
    list_suites service_with_orphan sample_cfg plan_id st1 = (Ret suites, st2) ∧
    c ∈ suites ∧ s_parentId c = Some "99" ∧ by_id suites !! "99" = None.
Proof.
  exact (main_key_errors service_with_orphan sample_cfg ascii_lower ascii_strip
           5 0%nat "99" 6%nat main_on_orphan).
Defined.

(** * The burndown script *)

Lemma for_each_invariant_elem {S A B} (P : B → Prop) (body : B → A → M S B) xs :
  (∀ acc x st acc' st', x ∈ xs → P acc → body acc x st = (Ret acc', st') → P acc') →
  ∀ acc st acc' st', P acc → for_each body xs acc st = (Ret acc', st') → P acc'.
Proof.
  induction xs as [|x xs IH]; intros Hbody acc st acc' st' Hacc; cbn.
  - by intros [= <- <-].
  - intros (acc1 & st1 & H1 & H2)%bind_Ret_inv. eapply IH; [| |done].
    + intros ????? Hin. apply Hbody. by right.
    + eapply Hbody; [by left|done..].
Qed.

Lemma point_to_top_lookup (tid : string) pids : ∀ (m : gmap Z string) pid,
  foldl (λ m pid, <[pid := tid]> m) m pids !! pid
  = if decide (pid ∈ pids) then Some tid else m !! pid.
Proof.
  induction pids as [|p pids IH]; intros m pid; cbn [foldl].
  - rewrite decide_False; [done|]. apply not_elem_of_nil.
  - rewrite IH. destruct (decide (pid ∈ pids)) as [Hin|Hnotin].
    + rewrite decide_True by (by right). done.
    + destruct (decide (p = pid)) as [->|Hne].
      * rewrite decide_True by (by left). by rewrite lookup_insert_eq.
      * rewrite decide_False by (intros [?|?]%elem_of_cons; congruence).
        by rewrite lookup_insert_ne.
Qed.

Lemma empty_lists_lookup {V} (top_level : list Suite) : ∀ (m0 : gmap string (list V)) k l,
  foldl (λ m s, <[s_id s := []]> m) m0 top_level !! k = Some l →
  l = [] ∨ m0 !! k = Some l.
Proof.
  induction top_level as [|t top_level IH]; intros m0 k l; cbn [foldl]; [by right|].
  intros [->|H]%IH; [by left|].
  destruct (decide (s_id t = k)) as [<-|Hne].
  - rewrite lookup_insert_eq in H. injection H as <-. by left.
  - rewrite lookup_insert_ne in H by done. by right.
Qed.

Lemma top_ancestor_keyed suites fuel sid tid :
  top_ancestor (by_id suites) fuel sid = Ret tid →
  ∃ t, t ∈ suites ∧ s_id t = tid ∧ s_parentId t = None.
Proof.
  unfold top_ancestor. destruct (by_id suites !! sid) as [cur|] eqn:Hcur; [|done].
  intros Hclimb. destruct (by_id_lookup _ _ _ Hcur) as [_ Hid].
  destruct (climb_keyed suites fuel cur tid) as (t & Ht & Htid & Hroot);
    [by rewrite Hid|done|].
  exists t. by apply by_id_lookup in Ht as [? _].
Qed.

Lemma top_level_keys {V} (suites : list Suite) (tid : string) :
  (∃ t, t ∈ suites ∧ s_id t = tid ∧ s_parentId t = None) ↔
  tid ∈ dom (foldl (λ m s, <[s_id s := []]> m) (∅ : gmap string (list V))
                   (filter (λ s, s_parentId s = None) suites)).
Proof.
  rewrite elem_of_dom, insert_keys_is_Some. split.
  - intros (t & Ht & Hid & Hroot). right. exists t. split; [|done].
    by apply list_elem_of_filter.
  - intros [[? H]|(t & [Hroot Ht]%list_elem_of_filter & Hid)];
      [by rewrite lookup_empty in H|].
    by exists t.
Qed.

Section BurndownFacts.
Context {St : Type} (svc : Service St) (cfg : Config).
Variable get_burndown_runs : Get St (Value BurndownRun).
Variables START_DATE END_DATE : string.
Variables lower strip : string → string.
Variable int : string → Z.

Lemma map_suite_points_step fuel plan_id m maps s st maps' st' :
  map_suite_points svc cfg fuel plan_id m maps s st = (Ret maps', st') →
  maps' = maps ∨
  ∃ tid l pids,
    top_ancestor m fuel (s_id s) = Ret tid ∧ maps.1 !! tid = Some l ∧
    maps' = (<[tid := (l ++ pids)%list]> maps.1,
             foldl (λ m pid, <[pid := tid]> m) maps.2 pids).
Proof.
  destruct maps as [top_points point_to_top]. unfold map_suite_points.
  intros (pts & st1 & _ & H)%bind_Ret_inv.
  destruct (omap p_id pts) as [|pid pids] eqn:Hpids; [injection H as <- <-; by left|].
  apply bind_Ret_inv in H as (tid & st2 & Htid & H).
  unfold lift in Htid. injection Htid as Htid _.
  apply bind_Ret_inv in H as (top_points' & st3 & Htop & H).
  destruct (top_points !! tid) as [l|] eqn:Hl; [|done]. injection Htop as <- _.
  apply bind_Ret_inv in H as ([] & st4 & _ & H). injection H as <- _.
  right. by exists tid, l, (pid :: pids).
Qed.

Lemma map_points_loop fuel plan_id suites (top0 : gmap string (list Z)) maps st st' :
  for_each (map_suite_points svc cfg fuel plan_id (by_id suites)) suites (top0, ∅) st
    = (Ret maps, st') →
  dom maps.1 = dom top0 ∧ maps_agree maps ∧
  ∀ pid tid, maps.2 !! pid = Some tid →
    ∃ s, s ∈ suites ∧ top_ancestor (by_id suites) fuel (s_id s) = Ret tid.
Proof.
  apply (for_each_invariant_elem (λ maps,
    dom maps.1 = dom top0 ∧ maps_agree maps ∧
    ∀ pid tid, maps.2 !! pid = Some tid →
      ∃ s, s ∈ suites ∧ top_ancestor (by_id suites) fuel (s_id s) = Ret tid)).
  - intros acc s sta acc' sta' Hs (Hdom & Hagree & Hroot)
      [->|(tid & l & pids & Htid & Hl & ->)]%map_suite_points_step; [done|].
    cbn [fst snd]. split_and!.
    + rewrite <- Hdom. apply dom_insert_lookup_L. by eexists.
    + intros pid tid'. cbn [fst snd]. rewrite point_to_top_lookup.
      destruct (decide (pid ∈ pids)) as [Hin|Hnotin].
      * intros [= <-]. exists (l ++ pids)%list. rewrite lookup_insert_eq.
        split; [done|]. apply elem_of_app. by right.
      * intros (l' & Hl' & Hpid)%Hagree. destruct (decide (tid = tid')) as [<-|Hne].
        -- exists (l ++ pids)%list. rewrite lookup_insert_eq. split; [done|].
           apply elem_of_app. left. congruence.
        -- exists l'. by rewrite lookup_insert_ne.
    + intros pid tid'. rewrite point_to_top_lookup.
      destruct (decide (pid ∈ pids)); [|apply Hroot].
      intros [= <-]. by exists s.
  - split_and!; [done| |]; intros pid tid; cbn; by rewrite lookup_empty.
Qed.

(** X18.  After the loop over the suites of the burndown [main] the two
    dictionaries agree: the keys of [top_points] are still the ones it
    started with, every point that [point_to_top] maps is in the list
    [top_points] keeps for the suite it is mapped to, and that suite is the
    top-level ancestor of a suite of the plan. *)
Theorem point_maps_agree fuel plan_id suites (top0 : gmap string (list Z)) maps st st' :
  for_each (map_suite_points svc cfg fuel plan_id (by_id suites)) suites (top0, ∅) st
    = (Ret maps, st') →
  dom maps.1 = dom top0 ∧
  ∀ pid tid, maps.2 !! pid = Some tid →
    (∃ l, maps.1 !! tid = Some l ∧ pid ∈ l) ∧
    ∃ s t, s ∈ suites ∧ top_ancestor (by_id suites) fuel (s_id s) = Ret tid ∧
           t ∈ suites ∧ s_id t = tid ∧ s_parentId t = None.
Proof.
  intros (Hdom & Hagree & Hroot)%map_points_loop. split; [done|].
  intros pid tid Hpid. split; [by apply Hagree|].
  destruct (Hroot _ _ Hpid) as (s & Hs & Htid).
  destruct (top_ancestor_keyed _ _ _ _ Htid) as (t & ? & ? & ?). by exists s, t.
Qed.

Lemma burndown_runs_loop (runs : list BurndownRun) (st : St) r st' :
  for_each (λ _ r, match br_id r with
                   | Some _ => ret tt
                   | None => raise (KeyError "id")
                   end) runs tt st = (r, st') →
  st' = st ∧
  ((r = Ret tt ∧ Forall (λ r, is_Some (br_id r)) runs) ∨
   (r = Raise (KeyError "id") ∧ Exists (λ r, br_id r = None) runs)).
Proof.
  induction runs as [|run runs IH]; cbn.
  - intros [= <- <-]. split; [done|]. by left.
  - unfold bind at 1. destruct (br_id run) as [rid|] eqn:Hid; cbn.
    + intros [-> [[-> Hall]|[-> Hex]]]%IH; (split; [done|]).
      * left. split; [done|]. constructor; [by rewrite Hid|done].
      * right. split; [done|]. by apply Exists_cons_tl.
    + intros [= <- <-]. split; [done|]. right. split; [done|]. by apply Exists_cons_hd.
Qed.

(** X19.  [list_runs_for_plan] of the burndown script either returns the
    runs the fetch delivered, unchanged and in the order delivered, all of
    them with an id, or, when a run has none, ends with the [KeyError] for
    [id]; a failed fetch is passed on.  The query carries the plan id, and a
    date bound exactly when the bound is not the empty string. *)
Theorem burndown_runs_need_ids fuel plan_id start end_ st :
  ∃ params,
    params !! "planId" = Some plan_id ∧
    params !! "minLastUpdatedDate" = (if decide (start = "") then None else Some start) ∧
    params !! "maxLastUpdatedDate" = (if decide (end_ = "") then None else Some end_) ∧
    match get_json_paginated_fallback get_burndown_runs (urlp cfg "/_apis/test/runs")
            (Some params) "value" fuel VER_RUNS st with
    | (Ret runs, st1) =>
        (Forall (λ run, is_Some (br_id run)) runs ∧
         burndown_runs cfg get_burndown_runs fuel plan_id start end_ st = (Ret runs, st1)) ∨
        (Exists (λ run, br_id run = None) runs ∧
         burndown_runs cfg get_burndown_runs fuel plan_id start end_ st
         = (Raise (KeyError "id"), st1))
    | failed => burndown_runs cfg get_burndown_runs fuel plan_id start end_ st = failed
    end.
Proof.
  exists (let params : gmap string string := {[ "planId" := plan_id ]} in
          let params := if truthy (Some start)
                        then <["minLastUpdatedDate" := start]> params else params in
          if truthy (Some end_) then <["maxLastUpdatedDate" := end_]> params else params).
  split_and!.
  - destruct start as [|a start], end_ as [|b end_]; cbn; by simplify_map_eq.
  - destruct start as [|a start], end_ as [|b end_]; cbn; by simplify_map_eq.
  - destruct start as [|a start], end_ as [|b end_]; cbn; by simplify_map_eq.
  - cbv zeta.
    destruct (get_json_paginated_fallback _ _ _ _ _ _ _) as [[runs|e|] st1] eqn:Hfetch;
      [|unfold burndown_runs; cbv zeta; unfold bind; by rewrite Hfetch..].
    destruct (for_each (λ _ r, match br_id r with
                               | Some _ => ret tt
                               | None => raise (KeyError "id")
                               end) runs tt st1) as [r st2] eqn:Hloop.
    pose proof Hloop as Hcases.
    apply burndown_runs_loop in Hcases as [-> [[-> Hall]|[-> Hex]]]; [left|right];
      (split; [done|]); unfold burndown_runs; cbv zeta; unfold bind;
      by rewrite Hfetch, Hloop.
Qed.

Lemma burndown_runs_have_ids fuel plan_id start end_ (st : St) runs st' :
  burndown_runs cfg get_burndown_runs fuel plan_id start end_ st = (Ret runs, st') →
  Forall (λ run, is_Some (br_id run)) runs.
Proof.
  unfold burndown_runs.
  intros (runs' & st1 & _ & H)%bind_Ret_inv.
  apply bind_Ret_inv in H as ([] & st2 & Hloop & H). injection H as <- <-.
  by apply burndown_runs_loop in Hloop as [-> [[_ Hall]|[[=] _]]].
Qed.

Lemma collect_result_step plan_id point_to_top run rid m res (st : St) m' st' :
  collect_result int plan_id point_to_top run rid m res st = (Ret m', st') →
  m' = m ∨
  ∃ pid tid rows,
    r_pointId res = Some pid ∧ point_to_top !! pid = Some tid ∧ tid ≠ "" ∧
    m !! tid = Some rows ∧
    m' = <[tid := (rows ++ [ {| rr_result := res; rr_planId := int plan_id;
                               rr_topSuiteId := tid; rr_runId := rid;
                               rr_runName := br_name run;
                               rr_automated := br_isAutomated run |} ])%list]> m.
Proof.
  unfold collect_result.
  destruct (r_pointId res) as [pid|] eqn:Hpid; [|intros [= <- _]; by left].
  destruct (point_to_top !! pid) as [tid|] eqn:Htid; [|intros [= <- _]; by left].
  destruct (decide (tid = "")) as [->|Hne]; [intros [= <- _]; by left|].
  destruct (m !! tid) as [rows|] eqn:Hrows; [|done].
  intros [= <- _]. right. by exists pid, tid, rows.
Qed.

Lemma burndown_main_inv fuel st results_by_top st' :
  burndown_main svc cfg get_burndown_runs START_DATE END_DATE lower strip int fuel st
    = (Ret results_by_top, st') →
  ∃ plan_id st1 suites st2 (point_to_top : gmap Z string) st3 runs st4,
    burndown_resolve_plan_id_by_name svc cfg lower strip (TEST_PLAN_NAME cfg) st
      = (Ret plan_id, st1) ∧
    burndown_list_suites svc cfg plan_id st1 = (Ret suites, st2) ∧
    (∀ pid tid, point_to_top !! pid = Some tid →
       ∃ s, s ∈ suites ∧ top_ancestor (by_id suites) fuel (s_id s) = Ret tid) ∧
    burndown_runs cfg get_burndown_runs fuel plan_id START_DATE END_DATE st3
      = (Ret runs, st4) ∧
    dom results_by_top
    = dom (foldl (λ m s, <[s_id s := []]> m) (∅ : gmap string (list ResultRow))
                 (filter (λ s, s_parentId s = None) suites)) ∧
    ∀ tid rows row, results_by_top !! tid = Some rows → row ∈ rows →
      rr_topSuiteId row = tid ∧ tid ≠ "" ∧ rr_planId row = int plan_id ∧
      (∃ pid, r_pointId (rr_result row) = Some pid ∧ point_to_top !! pid = Some tid) ∧
      ∃ run sta results stb,
        run ∈ runs ∧ br_id run = Some (rr_runId row) ∧
        rr_runName row = br_name run ∧ rr_automated row = br_isAutomated run ∧
        list_results_for_run svc cfg fuel (rr_runId row) sta = (Ret results, stb) ∧
        rr_result row ∈ results.
Proof.
  unfold burndown_main.
  intros (plan_id & st1 & Hplan & H)%bind_Ret_inv.
  apply bind_Ret_inv in H as (suites & st2 & Hsuites & H).
  apply bind_Ret_inv in H as (maps & st3 & Hmaps & H).
  apply bind_Ret_inv in H as (runs & st4 & Hruns & H).
  apply map_points_loop in Hmaps as (_ & _ & Hroot).
  exists plan_id, st1, suites, st2, maps.2, st3, runs, st4.
  do 4 (split; [done|]).
  set (m0 := foldl (λ m s, <[s_id s := []]> m) (∅ : gmap string (list ResultRow))
                   (filter (λ s, s_parentId s = None) suites)) in *.
  set (P := λ m : gmap string (list ResultRow),
    dom m = dom m0 ∧
    ∀ tid rows row, m !! tid = Some rows → row ∈ rows →
      rr_topSuiteId row = tid ∧ tid ≠ "" ∧ rr_planId row = int plan_id ∧
      (∃ pid, r_pointId (rr_result row) = Some pid ∧ maps.2 !! pid = Some tid) ∧
      ∃ run sta results stb,
        run ∈ runs ∧ br_id run = Some (rr_runId row) ∧
        rr_runName row = br_name run ∧ rr_automated row = br_isAutomated run ∧
        list_results_for_run svc cfg fuel (rr_runId row) sta = (Ret results, stb) ∧
        rr_result row ∈ results).
  revert H. apply (for_each_invariant_elem P).
  - intros acc run sta acc' sta' Hrun Hacc.
    intros (rid & st5 & Hrid & H)%bind_Ret_inv.
    destruct (br_id run) as [rid'|] eqn:Hid; [|done]. injection Hrid as -> <-.
    apply bind_Ret_inv in H as (results & st6 & Hresults & H).
    revert H. apply (for_each_invariant_elem P); [|done].
    intros m res stb m' stb' Hres [Hdom Hrows]
      [->|(pid & tid & rows & Hpid & Htid & Hne & Hm & ->)]%collect_result_step; [done|].
    split; [rewrite <- Hdom; apply dom_insert_lookup_L; by eexists|].
    intros tid' rows' row. destruct (decide (tid = tid')) as [<-|Hne'].
    + rewrite lookup_insert_eq.
      intros [= <-] [Hin|Hrow]%elem_of_app; [by eapply Hrows|].
      apply list_elem_of_singleton in Hrow as ->. cbn.
      split_and!; [done..|by exists pid|].
      by exists run, sta, results, st6.
    + rewrite lookup_insert_ne by done. apply Hrows.
  - split; [done|]. intros tid rows row [->|H]%empty_lists_lookup;
      [by intros ?%elem_of_nil|by rewrite lookup_empty in H].
Qed.

(** X20.  The dictionary the burndown [main] builds has one list per
    top-level suite of the plan, and nothing else.  Every result in the list
    of a suite carries the id of that suite as [_topSuiteId], the number of
    the resolved plan as [_planId] and a point id; it carries the id, the
    name and the [isAutomated] flag of one of the runs [list_runs_for_plan]
    returned, and is one of the results fetched for that run; and the suite
    is the top-level ancestor of a suite of the plan. *)
Theorem results_filed_under_top_suites fuel st results_by_top st' :
  burndown_main svc cfg get_burndown_runs START_DATE END_DATE lower strip int fuel st
    = (Ret results_by_top, st') →
  ∃ plan_id st1 suites st2 st3 runs st4,
    burndown_resolve_plan_id_by_name svc cfg lower strip (TEST_PLAN_NAME cfg) st
      = (Ret plan_id, st1) ∧
    burndown_list_suites svc cfg plan_id st1 = (Ret suites, st2) ∧
    burndown_runs cfg get_burndown_runs fuel plan_id START_DATE END_DATE st3
      = (Ret runs, st4) ∧
    (∀ tid, is_Some (results_by_top !! tid) ↔
            ∃ t, t ∈ suites ∧ s_id t = tid ∧ s_parentId t = None) ∧
    ∀ tid rows row, results_by_top !! tid = Some rows → row ∈ rows →
      rr_topSuiteId row = tid ∧ rr_planId row = int plan_id ∧
      is_Some (r_pointId (rr_result row)) ∧
      (∃ run sta results stb,
         run ∈ runs ∧ br_id run = Some (rr_runId row) ∧
         rr_runName row = br_name run ∧ rr_automated row = br_isAutomated run ∧
         list_results_for_run svc cfg fuel (rr_runId row) sta = (Ret results, stb) ∧
         rr_result row ∈ results) ∧
      ∃ s, s ∈ suites ∧ top_ancestor (by_id suites) fuel (s_id s) = Ret tid.
Proof.
  intros (plan_id & st1 & suites & st2 & point_to_top & st3 & runs & st4 & Hplan
          & Hsuites & Hroot & Hruns & Hdom & Hrows)%burndown_main_inv.
  exists plan_id, st1, suites, st2, st3, runs, st4. split_and!; [done..| |].
  - intros tid. rewrite <- elem_of_dom, Hdom. symmetry. apply top_level_keys.
  - intros tid rows row Hm Hin.
    destruct (Hrows _ _ _ Hm Hin) as (? & _ & ? & (pid & Hpid & Htid) & Hrun).
    split_and!; [done..|by eexists|done|by eapply Hroot].
Qed.
End BurndownFacts.

Section BurndownErrors.
Context {St : Type} (svc : Service St) (cfg : Config).
Variable get_burndown_runs : Get St (Value BurndownRun).
Variables START_DATE END_DATE : string.
Variables lower strip : string → string.
Variable int : string → Z.

Lemma burndown_get_json_raises {V} (requests_get : Get St V) url params st e st' :
  burndown_get_json requests_get url params st = (Raise e, st') → ∃ msg, e = SystemExit msg.
Proof.
  unfold burndown_get_json. destruct (requests_get _ _ st) as [r st1].
  destruct (status_code r >=? 400); [|done]. intros [= <- <-]. by eexists.
Qed.

Lemma burndown_resolve_key_error plan_name st k st' :
  burndown_resolve_plan_id_by_name svc cfg lower strip plan_name st
    = (Raise (KeyError k), st') →
  k = "name".
Proof.
  unfold burndown_resolve_plan_id_by_name.
  intros [Hfetch|(body & st1 & _ & H)]%bind_Raise_inv;
    [by apply burndown_get_json_raises in Hfetch as [msg ?]|].
  apply bind_Raise_inv in H as [H|(exact & st2 & Hexact & H)].
  - destruct (filter _ _); [|done]. by destruct (filter _ _).
  - destruct exact as [|p exact].
    + destruct (filter (λ p, strip (lower (name_of p)) = _) _); [|done].
      by destruct (filter _ _).
    + destruct (pl_name p); [done|]. by injection H as <-.
Qed.

Lemma map_suite_points_key_error fuel plan_id suites maps s st k st' :
  s ∈ suites →
  dom maps.1 = dom (foldl (λ m s, <[s_id s := []]> m) (∅ : gmap string (list Z))
                          (filter (λ s, s_parentId s = None) suites)) →
  map_suite_points svc cfg fuel plan_id (by_id suites) maps s st
    = (Raise (KeyError k), st') →
  ∃ c, c ∈ suites ∧ s_parentId c = Some k ∧ by_id suites !! k = None.
Proof.
  destruct maps as [top_points point_to_top]. cbn [fst]. intros Hs Hdom.
  unfold map_suite_points.
  intros [H|(pts & st1 & _ & H)]%bind_Raise_inv;
    [by apply versions_loop_raises in H as [msg ?]|].
  destruct (omap p_id pts) as [|pid pids]; [done|].
  apply bind_Raise_inv in H as [H|(tid & st2 & Htid & H)].
  - unfold lift in H. injection H as H _.
    apply top_ancestor_raises in H as [[_ Hnone]|(c & pid' & ? & ? & ? & [= <-])].
    + destruct (by_id_elem _ _ Hs) as [? ?]. congruence.
    + by exists c.
  - exfalso. unfold lift in Htid. injection Htid as Htid _.
    destruct (top_ancestor_keyed _ _ _ _ Htid) as (t & Ht & Hid & Hroot).
    assert (is_Some (top_points !! tid)) as [l Hl].
    { apply elem_of_dom. rewrite Hdom. apply top_level_keys. by exists t. }
    rewrite Hl in H.
    apply bind_Raise_inv in H as [H|(? & ? & _ & H)]; [done|].
    destruct (by_id_elem _ _ Ht) as [t' Ht']. rewrite Hid in Ht'. rewrite Ht' in H.
    by apply bind_Raise_inv in H as [H|(? & ? & _ & H)].
Qed.

(** X21.  For plans that carry an id and suites that carry a name, as the
    records of this development do, the burndown [main] can end with a
    [KeyError], before [results_by_top] is complete, in three ways only:
    plan resolution ends with the one for the name of the resolved plan,
    which has none; [list_runs_for_plan] ends with the one for the id of a
    run, which has none; or the key is a parent id that some suite of the
    list names and no suite carries.  The lookups [by_id[sid]],
    [top_points[tid]], [by_id[tid]], [run["id"]] and [results_by_top[tid]]
    do not fail. *)
Theorem burndown_main_key_errors fuel st k st' :
  burndown_main svc cfg get_burndown_runs START_DATE END_DATE lower strip int fuel st
    = (Raise (KeyError k), st') →
  (k = "name" ∧
   burndown_resolve_plan_id_by_name svc cfg lower strip (TEST_PLAN_NAME cfg) st
   = (Raise (KeyError "name"), st')) ∨
  (k = "id" ∧
   ∃ plan_id st1 suites st2 st3,
     burndown_resolve_plan_id_by_name svc cfg lower strip (TEST_PLAN_NAME cfg) st
       = (Ret plan_id, st1) ∧
     burndown_list_suites svc cfg plan_id st1 = (Ret suites, st2) ∧
     burndown_runs cfg get_burndown_runs fuel plan_id START_DATE END_DATE st3
     = (Raise (KeyError "id"), st')) ∨
  ∃ plan_id st1 suites st2 c,
    burndown_resolve_plan_id_by_name svc cfg lower strip (TEST_PLAN_NAME cfg) st
      = (Ret plan_id, st1) ∧
    burndown_list_suites svc cfg plan_id st1 = (Ret suites, st2) ∧
    c ∈ suites ∧ s_parentId c = Some k ∧ by_id suites !! k = None.
Proof.
  unfold burndown_main.
  intros [H|(plan_id & st1 & Hplan & H)]%bind_Raise_inv.
  { left. pose proof (burndown_resolve_key_error _ _ _ _ H) as ->. by split. }
  apply bind_Raise_inv in H as [H|(suites & st2 & Hsuites & H)].
  { exfalso. unfold burndown_list_suites in H.
    apply bind_Raise_inv in H as [H|(? & ? & _ & H)]; [|done].
    by apply burndown_get_json_raises in H as [msg ?]. }
  set (top0 := foldl (λ m s, <[s_id s := []]> m) (∅ : gmap string (list Z))
                     (filter (λ s, s_parentId s = None) suites)) in *.
  set (m0 := foldl (λ m s, <[s_id s := []]> m) (∅ : gmap string (list ResultRow))
                   (filter (λ s, s_parentId s = None) suites)) in *.
  apply bind_Raise_inv in H as [H|(maps & st3 & Hmaps & H)].
  - right; right.
    apply (for_each_raise_inv (λ maps, dom maps.1 = dom top0)) in H
      as (acc1 & s & sta & Hdom & Hs & Hstep); [| |done].
    + destruct (map_suite_points_key_error _ _ _ _ _ _ _ _ Hs Hdom Hstep)
        as (c & ? & ? & ?).
      by exists plan_id, st1, suites, st2, c.
    + intros acc x sta acc' sta' Hacc
        [->|(tid & l & pids & _ & Hl & ->)]%map_suite_points_step; [done|].
      cbn [fst]. rewrite <- Hacc. apply dom_insert_lookup_L. by eexists.
  - apply map_points_loop in Hmaps as (_ & _ & Hroot).
    apply bind_Raise_inv in H as [H|(runs & st4 & Hruns & H)].
    + right; left.
      assert (k = "id") as ->.
      { unfold burndown_runs in H.
        apply bind_Raise_inv in H as [H|(runs & st4 & _ & H)];
          [by apply versions_loop_raises in H as [msg ?]|].
        apply bind_Raise_inv in H as [H|([] & st5 & _ & H)]; [|done].
        by apply burndown_runs_loop in H as [_ [[[=] _]|[[= ->] _]]]. }
      split; [done|]. by exists plan_id, st1, suites, st2, st3.
    + exfalso.
      pose proof (burndown_runs_have_ids _ _ _ _ _ _ _ _ _ Hruns) as Hids.
      assert (∀ run rid results acc (sta : St) acc' stb,
                dom acc = dom m0 →
                for_each (collect_result int plan_id maps.2 run rid) results acc sta
                = (Ret acc', stb) → dom acc' = dom m0) as Hinner.
      { intros run rid results acc sta acc' stb Hacc.
        apply (for_each_invariant (λ m, dom m = dom m0)); [|done].
        intros m res stc m' stc' Hm
          [->|(pid & tid & rows & _ & _ & _ & Hrows & ->)]%collect_result_step; [done|].
        rewrite <- Hm. apply dom_insert_lookup_L. by eexists. }
      apply (for_each_raise_inv (λ m, dom m = dom m0)) in H
        as (acc1 & run & sta & Hacc & Hrun & Hstep); [| |done].
      * apply bind_Raise_inv in Hstep as [H|(rid & st5 & _ & H)].
        { rewrite Forall_forall in Hids. destruct (Hids _ Hrun) as [rid Hrid].
          by rewrite Hrid in H. }
        apply bind_Raise_inv in H as [H|(results & st6 & _ & H)].
        { unfold list_results_for_run in H.
          apply bind_Raise_inv in H as [H|(? & ? & _ & H)]; [|done].
          by apply versions_loop_raises in H as [msg ?]. }
        apply (for_each_raise_inv (λ m, dom m = dom m0)) in H
          as (acc2 & res & stb & Hacc2 & _ & Hstep); [| |done].
        -- unfold collect_result in Hstep.
           destruct (r_pointId res) as [pid|]; [|done].
           destruct (maps.2 !! pid) as [tid|] eqn:Htid; [|done].
           destruct (decide (tid = "")); [done|].
           destruct (Hroot _ _ Htid) as (s & _ & Hs).
           destruct (top_ancestor_keyed _ _ _ _ Hs) as (t & Ht & Hid & Hpar).
           assert (is_Some (acc2 !! tid)) as [rows Hrows].
           { apply elem_of_dom. rewrite Hacc2. apply top_level_keys. by exists t. }
           by rewrite Hrows in Hstep.
        -- intros m res stc m' stc' Hm
             [->|(pid & tid & rows & _ & _ & _ & Hrows & ->)]%collect_result_step; [done|].
           rewrite <- Hm. apply dom_insert_lookup_L. by eexists.
      * intros acc run sta acc' sta' Hacc (rid & st5 & _ & H')%bind_Ret_inv.
        apply bind_Ret_inv in H' as (results & st6 & _ & H'). by eapply Hinner.
Qed.
End BurndownErrors.

(** * The burndown script on the sample data *)

(** The three points of the sample plan are all mapped to the top-level
    suite [10]. *)
Lemma point_maps_agree_witness :
  dom sample_maps.1 = dom ({[ "10" := [] ]} : gmap string (list Z)) ∧
  ∀ pid tid, sample_maps.2 !! pid = Some tid →
    (∃ l, sample_maps.1 !! tid = Some l ∧ pid ∈ l) ∧
    ∃ s t, s ∈ sample_suites ∧ top_ancestor (by_id sample_suites) 5 (s_id s) = Ret tid ∧
           t ∈ sample_suites ∧ s_id t = tid ∧ s_parentId t = None.
Proof.
  apply (point_maps_agree (sample_service mixed_points) sample_cfg 5 "2" sample_suites
           {[ "10" := [] ]} sample_maps 2%nat 5%nat).
  vm_compute. reflexivity.
Defined.

(** What the burndown [main] builds on the sample service. *)
Lemma burndown_on_mixed_points :
  burndown_main (sample_service mixed_points) sample_cfg sample_burndown_runs "" ""
    ascii_lower ascii_strip sample_int 5 0%nat
  = (Ret sample_results_by_top, 7%nat).
Proof. vm_compute. reflexivity. Qed.

(** The only result of the sample run is filed under suite [10]. *)
Lemma results_filed_under_top_suites_witness :
  ∃ plan_id st1 suites st2 st3 runs st4,
    burndown_resolve_plan_id_by_name (sample_service mixed_points) sample_cfg
      ascii_lower ascii_strip (TEST_PLAN_NAME sample_cfg) 0%nat = (Ret plan_id, st1) ∧
    burndown_list_suites (sample_service mixed_points) sample_cfg plan_id st1
      = (Ret suites, st2) ∧
    burndown_runs sample_cfg sample_burndown_runs 5 plan_id "" "" st3 = (Ret runs, st4) ∧
    (∀ tid, is_Some (sample_results_by_top !! tid) ↔
            ∃ t, t ∈ suites ∧ s_id t = tid ∧ s_parentId t = None) ∧
    ∀ tid rows row, sample_results_by_top !! tid = Some rows → row ∈ rows →
      rr_topSuiteId row = tid ∧ rr_planId row = sample_int plan_id ∧
      is_Some (r_pointId (rr_result row)) ∧
      (∃ run sta results stb,
         run ∈ runs ∧ br_id run = Some (rr_runId row) ∧
         rr_runName row = br_name run ∧ rr_automated row = br_isAutomated run ∧
         list_results_for_run (sample_service mixed_points) sample_cfg 5
           (rr_runId row) sta = (Ret results, stb) ∧
         rr_result row ∈ results) ∧
      ∃ s, s ∈ suites ∧ top_ancestor (by_id suites) 5 (s_id s) = Ret tid.
Proof.
  exact (results_filed_under_top_suites (sample_service mixed_points) sample_cfg
           sample_burndown_runs "" "" ascii_lower ascii_strip sample_int
           5 0%nat _ 7%nat burndown_on_mixed_points).
Defined.

(** With a suite whose parent is not listed, the burndown [main] ends with
    the [KeyError] of [top_ancestor]. *)
Lemma burndown_on_orphan :
  burndown_main service_with_orphan sample_cfg sample_burndown_runs "" ""
    ascii_lower ascii_strip sample_int 5 0%nat
  = (Raise (KeyError "99"), 4%nat).
Proof. vm_compute. reflexivity. Qed.

(** The missing parent [99] is the key of that error. *)
Lemma burndown_main_key_errors_witness :
  ("99" = "name" ∧
   burndown_resolve_plan_id_by_name service_with_orphan sample_cfg
     ascii_lower ascii_strip (TEST_PLAN_NAME sample_cfg) 0%nat
   = (Raise (KeyError "name"), 4%nat)) ∨
  ("99" = "id" ∧
   ∃ plan_id st1 suites st2 st3,
     burndown_resolve_plan_id_by_name service_with_orphan sample_cfg
       ascii_lower ascii_strip (TEST_PLAN_NAME sample_cfg) 0%nat = (Ret plan_id, st1) ∧
     burndown_list_suites service_with_orphan sample_cfg plan_id st1 = (Ret suites, st2) ∧
     burndown_runs sample_cfg sample_burndown_runs 5 plan_id "" "" st3
     = (Raise (KeyError "id"), 4%nat)) ∨
  ∃ plan_id st1 suites st2 c,
    burndown_resolve_plan_id_by_name service_with_orphan sample_cfg
      ascii_lower ascii_strip (TEST_PLAN_NAME sample_cfg) 0%nat = (Ret plan_id, st1) ∧
    burndown_list_suites service_with_orphan sample_cfg plan_id st1 = (Ret suites, st2) ∧
    c ∈ suites ∧ s_parentId c = Some "99" ∧ by_id suites !! "99" = None.
Proof.
  exact (burndown_main_key_errors service_with_orphan sample_cfg sample_burndown_runs
           "" "" ascii_lower ascii_strip sample_int 5 0%nat "99" 4%nat
           burndown_on_orphan).
Defined.

(** * The paginated fetch, when it fails *)

Section MoreHttpFacts.
Context {St A : Type} (requests_get : Get St (Value A)).
Context (url : string) (params : option (gmap string string)) (value_key : string).

(** X22.  When the paginated fetch ends with [SystemExit], every version of
    the list has been tried, in order, and each has run into a status of 400
    or more; the message reports the status and text of the last of these
    failures (an empty report when the list of versions is empty). *)
Theorem fetch_fails_only_when_all_fail fuel versions st msg st' :
  get_json_paginated_fallback requests_get url params value_key fuel versions st
    = (Raise (SystemExit msg), st') →
  ∃ last, all_fail requests_get url params st versions "" last st' ∧
          msg = "All versions failed for " +:+ url +:+ nl +:+ last.
Proof.
  unfold get_json_paginated_fallback.
  assert (∀ last0 st,
    versions_loop requests_get url params value_key fuel versions last0 st
      = (Raise (SystemExit msg), st') →
    ∃ last, all_fail requests_get url params st versions last0 last st' ∧
            msg = "All versions failed for " +:+ url +:+ nl +:+ last)
    as Hgen; [|apply Hgen].
  clear st. induction versions as [|ver versions IH]; intros last0 st; cbn.
  - intros [= <- <-]. exists last0. split; [constructor|done].
  - intros [H|([last'|out] & st1 & Hloop & H)]%bind_Raise_inv.
    + by apply pages_loop_never_raises in H.
    + apply pages_loop_sound in Hloop as (status & body & Hf & ->).
      apply IH in H as (last & Hall & ->). exists last. split; [|done].
      by eapply all_fail_cons.
    + done.
Qed.
End MoreHttpFacts.

(** Versions [A] and [C] of the paged resource: the failure reported is the
    one of [C]. *)
Lemma fetch_fails_only_when_all_fail_witness :
  ∃ last, all_fail paged_resource "u" None 0%nat ["A"; "C"] "" last 3%nat ∧
          "All versions failed for u" +:+ nl +:+ "404 no such version"
          = "All versions failed for " +:+ "u" +:+ nl +:+ last.
Proof.
  apply (fetch_fails_only_when_all_fail paged_resource "u" None "value" 5 ["A"; "C"]).
  vm_compute. reflexivity.
Defined.

(** * What a failed fetch does to the run *)



Section FatalFacts.
Context {St : Type} (svc : Service St) (cfg : Config).
Variables lower strip : string → string.



End FatalFacts.


